(** * mPower walking features: a shallow embedding of
      [src/utils/new_walking_feature.py] and of the cleaning step of
      [src/utils/query_utils.py].

    Conventions of the embedding.
    - A float64 that the code reads or computes with [+], [-], [*] is a
      rational [Q]; rounding is not modelled.  Where numpy can produce a
      value that is not a finite number (the mean of an empty array, a
      division by [0.0]) the result type is [npfloat], which has [NaN]
      and [PInf] next to the finite values.
    - A pandas column is a list; a DataFrame is a list of rows (a record
      per row), with its index labels kept next to the rows where the
      code selects by label.
    - A Python exception is the [Raise] outcome of the [outcome] monad;
      [sys.exit] is the exception [SystemExit], [IOError] is what
      [open] raises on a file it cannot open ([FileNotFoundError] is
      one of them).
    - A time in seconds is held by pandas as a count of nanoseconds in
      64 bits: a timestamp of a file goes through this conversion in
      [clean_accelerometer_data], which raises on a number outside the
      range; the [td] of a row of a cleaned recording is inside it.
    - scipy's [butter]/[lfilter], pdkit's heel-strike detector, numpy's
      [sqrt] and the reading of a JSON file are not part of the
      repository: they are fields of the record [externals]. *)

From Stdlib Require Import QArith Qabs Qminmax ZArith Lia Lqa.
From stdpp Require Import base list strings sorting.

Local Open Scope Q_scope.
Local Open Scope nat_scope.

(** ** Exceptions *)

Inductive exn : Type :=
| IndexError
| KeyError
| ValueError
| IOError
| OutOfBoundsDatetime
| OverflowError
| SystemExit (msg : string).

Inductive outcome (A : Type) : Type :=
| Ret (a : A)
| Raise (e : exn).
Arguments Ret {A} a.
Arguments Raise {A} e.

#[global] Instance outcome_ret : MRet outcome := @Ret.
#[global] Instance outcome_bind : MBind outcome :=
  λ A B f m, match m with Ret a => f a | Raise e => Raise e end.

(** A lookup that raises [IndexError] out of range, as [iloc[i]] and
    [l[i]] do for a non-negative [i]. *)
Definition iloc {A} (l : list A) (i : nat) : outcome A :=
  match l !! i with Some a => Ret a | None => Raise IndexError end.

(** [l[-1]]. *)
Definition iloc_last {A} (l : list A) : outcome A :=
  match last l with Some a => Ret a | None => Raise IndexError end.

(** [l[a:b]] for non-negative [a], [b]: a slice is clipped, never an
    error. *)
Definition slice {A} (a b : nat) (l : list A) : list A :=
  take (b - a) (drop a l).

(** ** numpy and pandas helpers *)

Module Np.

(** A float64 result that may fail to be a finite number.  Negative
    infinity is left out: the only division of the program has a
    count (a non-negative integer) as its numerator, and its
    denominator is a difference [a - b] of finite numbers, which is
    [+0.0] when it is zero. *)
Inductive npfloat : Type :=
| Fin (q : Q)
| PInf
| NaN.

Definition is_finite (v : npfloat) : bool :=
  match v with Fin _ => true | _ => false end.

(** [v >= 0] on float64: false on [NaN]. *)
Definition nonneg (v : npfloat) : bool :=
  match v with Fin q => Qle_bool 0 q | PInf => true | NaN => false end.

Definition Qsum (l : list Q) : Q := foldr Qplus 0%Q l.

(** Mean of a non-empty list of finite numbers. *)
Definition Qmean (l : list Q) : Q := (Qsum l / inject_Z (Z.of_nat (length l)))%Q.

(** [n / d] on float64 with a non-negative numerator: [0/0] is
    [nan], [n/0] is [inf]; numpy warns and does not raise. *)
Definition div (n d : Q) : npfloat :=
  if Qeq_bool d 0 then (if Qeq_bool n 0 then NaN else PInf)
  else Fin (n / d)%Q.

(** Sum of float64 values: [nan] absorbs, then [inf]. *)
Definition add (a b : npfloat) : npfloat :=
  match a, b with
  | NaN, _ | _, NaN => NaN
  | PInf, _ | _, PInf => PInf
  | Fin p, Fin q => Fin (p + q)%Q
  end.

Definition sum (l : list npfloat) : npfloat := foldr add (Fin 0) l.

(** [np.mean(np.array(l))]: the mean of an empty array is [nan]
    (numpy warns, it does not raise). *)
Definition mean (l : list npfloat) : npfloat :=
  match l with
  | [] => NaN
  | _ => match sum l with
         | Fin s => Fin (s / inject_Z (Z.of_nat (length l)))%Q
         | v => v
         end
  end.

(** [np.sign]. *)
Definition sign (q : Q) : Z := Z.sgn (Qnum q).

(** [np.diff] of an integer array. *)
Fixpoint diff (l : list Z) : list Z :=
  match l with
  | a :: (b :: _) as t => (b - a)%Z :: diff t
  | _ => []
  end.

(** [np.diff] of a float array. *)
Fixpoint Qdiff (l : list Q) : list Q :=
  match l with
  | a :: (b :: _) as t => (b - a)%Q :: Qdiff t
  | _ => []
  end.

(** [np.trapz(y, x)]: [(diff(x) * (y[1:] + y[:-1]) / 2).sum()]. *)
Fixpoint trapz (y x : list Q) : Q :=
  match x, y with
  | x0 :: (x1 :: _) as xt, y0 :: (y1 :: _) as yt =>
      ((x1 - x0) * (y1 + y0) / 2 + trapz yt xt)%Q
  | _, _ => 0%Q
  end.

(** [np.where(mask)[0]], the positions of the true entries, counted
    from [k]. *)
Fixpoint where_from (k : nat) (mask : list bool) : list nat :=
  match mask with
  | [] => []
  | b :: t => if b then k :: where_from (S k) t else where_from (S k) t
  end.

Definition where_ (mask : list bool) : list nat := where_from 0 mask.

(** [a.reshape(-1, 2)] of a flat array: rows of two; an odd size is
    a [ValueError]. *)
Fixpoint reshape2 (l : list nat) : outcome (list (nat * nat)) :=
  match l with
  | [] => Ret []
  | a :: b :: t => r ← reshape2 t; Ret ((a, b) :: r)
  | [_] => Raise ValueError
  end.

(** pandas [Series.var()]: the sample variance (ddof = 1); [nan] for
    fewer than two values. *)
Definition var (l : list Q) : npfloat :=
  let m := Qmean l in
  div (Qsum (map (λ v, (v - m) * (v - m))%Q l))
      (inject_Z (Z.of_nat (length l - 1))).

End Np.

(** [a < b] on finite floats. *)
Definition Qlt_bool (a b : Q) : bool := negb (Qle_bool b a).

(** [v < c] for a float64 [v]: false on [nan] and on [inf]. *)
Definition lt_const (v : Np.npfloat) (c : Q) : bool :=
  match v with Np.Fin q => Qlt_bool q c | _ => false end.

(** ** Data *)

(** A row of a cleaned recording ([query.clean_accelerometer_data]):
    the sensor it comes from, the seconds since the first sample and
    the three axes with their magnitude.  The table of such rows has
    the time index the cleaning gives it. *)
Record sample : Type := Sample {
  sensorType : string;
  s_td : Q;
  s_x : Q;
  s_y : Q;
  s_z : Q;
  s_AA : Q
}.

(** The [orientation] argument names a column of the recording. *)
Inductive orientation : Type := OX | OY | OZ | OAA.

Definition col (o : orientation) (r : sample) : Q :=
  match o with OX => s_x r | OY => s_y r | OZ => s_z r | OAA => s_AA r end.

(** A row of a table that has the columns [timestamp], [sensorType],
    [x], [y] and [z]: the timestamp is a number, any axis may be
    missing. *)
Record raw_sample : Type := RawSample {
  r_timestamp : Q;
  r_sensorType : string;
  r_x : option Q;
  r_y : option Q;
  r_z : option Q
}.

(** A row of a file of the first schema: a timestamp and, under the
    name of each sensor, a dictionary of the three axes. *)
Record v1_sample : Type := V1Sample {
  v1_timestamp : Q;
  v1_axes : string → option Q * option Q * option Q
}.

(** What [open_filepath] reads, [pd.DataFrame(json.loads(...))]: a
    table with the columns [timestamp], [sensorType], [x], [y], [z]
    (the current schema); a table with the column [timestamp] and a
    column per sensor, which has no column [x], [y] or [z] (the first
    schema); or the table of an empty JSON array, which has no column
    and no row. *)
Inductive json_frame : Type :=
| SchemaV2 (rows : list raw_sample)
| SchemaV1 (rows : list v1_sample)
| NoColumns.

(** What the repository calls and does not define. [butter] designs
    the filter, [lfilter] applies it and returns an array of the shape
    of its input; [heel_strikes d v] is
    [pdkit.GaitProcessor(duration = d, cutoff_frequency = 5,
    filter_order = 4, delta = 0.5).heel_strikes(v)], reduced to the
    lengths of the two arrays it returns, or [None] when it raises.
    The detector works in the array it is given (it centres it
    before it looks for strikes): [heel_strikes_leaves d v] is what
    the array holds when the call ends, whether it returns or
    raises. *)
Record externals : Type := Externals {
  coeffs : Type;
  butter : nat → Q → coeffs;
  lfilter : coeffs → list Q → list Q;
  lfilter_length : ∀ c l, length (lfilter c l) = length l;
  heel_strikes : Q → list Q → option (nat * nat);
  heel_strikes_leaves : Q → list Q → list Q;
  np_sqrt : Q → Q;
  open_filepath : string → outcome json_frame
}.

(** An instance: the filter that passes its input through, a detector
    that raises at once and a file system without files. *)
Definition passthrough : externals :=
  {| coeffs := unit;
     butter := λ _ _, tt;
     lfilter := λ _ l, l;
     lfilter_length := λ _ _, eq_refl;
     heel_strikes := λ _ _, None;
     heel_strikes_leaves := λ _ v, v;
     np_sqrt := λ q, q;
     open_filepath := λ _, Raise IOError |}.

(** ** [new_walking_feature.py] *)

Section Walking.

Context (E : externals).

(** [butter_lowpass_filter(data, sample_rate, cutoff, order)], with
    [plot = False]. *)
Definition butter_lowpass_filter
    (data : list Q) (sample_rate cutoff : Q) (order : nat) : list Q :=
  let nyquist := ((1 # 2) * sample_rate)%Q in
  let normal_cutoff := (cutoff / nyquist)%Q in
  lfilter E (butter E order normal_cutoff) data.

(** [zero_runs(array)]: the rows [start, end) of the runs of zeros. *)
Definition zero_runs (array : list Q) : outcome (list (nat * nat)) :=
  let iszero :=
    [0%Z] ++ map (λ v, if Qeq_bool v 0 then 1%Z else 0%Z) array ++ [0%Z] in
  let absdiff := map Z.abs (Np.diff iszero) in
  Np.reshape2 (Np.where_ (map (λ d, Z.eqb d 1) absdiff)).

(** [detect_zcr(array)]: the indexes before a sign change. *)
Definition detect_zcr (array : list Q) : list nat :=
  Np.where_ (map (λ d, negb (Z.eqb d 0)) (Np.diff (map Np.sign array))).

(** A row of the table of windows: where the window ends, its
    heel strikes per second and the variance of the filtered axis. *)
Record window : Type := Window {
  w_time : nat;
  w_heel_strikes : Q;
  w_variance : Np.npfloat
}.

(** [range(a, b)] membership. *)
Definition in_range (a b i : nat) : bool := (a <=? i) && (i <? b).

(** One pass of the second loop of [subset_data_non_zero_runs]:
    [data.loc[~data.index.isin(range(i[0], i[1]))]], on rows that
    carry their index label. *)
Definition drop_range {A} (data : list (nat * A)) (i : nat * nat) : list (nat * A) :=
  filter (λ r, negb (in_range i.1 i.2 r.1) = true) data.

(** [subset_data_non_zero_runs(data, zero_runs_cutoff)]. *)
Definition subset_data_non_zero_runs
    (data : list window) (zero_runs_cutoff : nat) : outcome (list window) :=
  runs ← zero_runs (map w_heel_strikes data);
  let z_runs_threshold :=
    filter (λ value, (Z.of_nat zero_runs_cutoff <=? Z.of_nat value.2 - Z.of_nat value.1)%Z = true)
           runs in
  let data := foldl drop_range (imap pair data) z_runs_threshold in
  Ret (map snd data).

(** [data[orientation] = v] on one row. *)
Definition set_col (o : orientation) (v : Q) (r : sample) : sample :=
  match o with
  | OX => {| sensorType := sensorType r; s_td := s_td r;
             s_x := v; s_y := s_y r; s_z := s_z r; s_AA := s_AA r |}
  | OY => {| sensorType := sensorType r; s_td := s_td r;
             s_x := s_x r; s_y := v; s_z := s_z r; s_AA := s_AA r |}
  | OZ => {| sensorType := sensorType r; s_td := s_td r;
             s_x := s_x r; s_y := s_y r; s_z := v; s_AA := s_AA r |}
  | OAA => {| sensorType := sensorType r; s_td := s_td r;
              s_x := s_x r; s_y := s_y r; s_z := s_z r; s_AA := v |}
  end.

(** What a write in the array of [subset[orientation]] does to [ts]:
    [subset = ts.iloc[jStart:jPos]] shares its values with [ts], so
    row [jStart + k] of [ts] takes the value [k] of the array.  The
    filtered column and [td] are other columns. *)
Definition write_col (o : orientation) (jStart : nat) (vs : list Q)
    (ts : list (sample * Q)) : list (sample * Q) :=
  imap (λ i r, if jStart <=? i then
                 match vs !! (i - jStart) with
                 | Some v => (set_col o v r.1, r.2)
                 | None => r
                 end
               else r) ts.

(** The [while] loop of [calculate_number_of_steps_per_window] over
    the rows of the bout paired with their filtered value; [fuel]
    bounds the number of iterations.  The bout has a time index
    ([pipeline] passes [data_seqs.set_index("time")]), on which
    [subset.td[-1]] and [subset.td[0]] are the last and the first
    [td] of the window; on a table whose index is of integers the two
    expressions would look for the labels [-1] and [0].  The detector
    is given the column of the window as it is when the window is
    reached, and what it leaves in it is what the later windows
    read. *)
Fixpoint window_loop (fuel : nat) (o : orientation)
    (ts : list (sample * Q)) (jPos : nat) : outcome (list (nat * nat * Np.npfloat)) :=
  match fuel with
  | O => Ret []
  | S fuel =>
      if jPos <? length ts then
        let jStart := jPos - 256 in
        let subset := slice jStart jPos ts in
        t1 ← iloc_last (map (λ r, s_td r.1) subset);
        t0 ← iloc (map (λ r, s_td r.1) subset) 0;
        let duration := (t1 - t0)%Q in
        let var := Np.var (map snd subset) in
        let values := map (λ r, col o r.1) subset in
        let strikes :=
          if lt_const var (1 # 100) then 0
          else match heel_strikes E duration values with
               | Some hs => hs.2
               | None => 0
               end in
        let ts :=
          if lt_const var (1 # 100) then ts
          else write_col o jStart (heel_strikes_leaves E duration values) ts in
        rest ← window_loop fuel o ts (jPos + 50);
        Ret ((jPos, strikes, var) :: rest)
      else Ret []
  end.

(** The table of windows of [calculate_number_of_steps_per_window]:
    the statements from [ts = data.copy()] to the [pd.DataFrame] of
    the columns [time], [heel_strikes / (256 / 100)] and [variance]. *)
Definition window_table (data : list sample) (o : orientation) : outcome (list window) :=
  let window_size := 256 in
  let jPos := window_size + 1 in
  let filtered := butter_lowpass_filter (map (col o) data) 100 5 4 in
  let ts := zip data filtered in
  obs ← window_loop (length ts) o ts jPos;
  Ret (map (λ w, {| w_time := w.1.1;
                    w_heel_strikes := (inject_Z (Z.of_nat w.1.2) / (256 / 100))%Q;
                    w_variance := w.2 |}) obs).

(** [calculate_number_of_steps_per_window(data, orientation)] for a
    DataFrame [data] with a time index (the statements after the
    [isinstance] test; [pipeline] calls the function with such a
    DataFrame only).  The loop works on the copy [ts = data.copy()]:
    what the detector writes does not reach [data]. *)
Definition calculate_number_of_steps_per_window
    (data : list sample) (o : orientation) : outcome Q :=
  ts ← window_table data o;
  ts ← subset_data_non_zero_runs ts 5;
  let new_data_size := length ts in
  if new_data_size =? 0 then Ret 0%Q
  else Ret (Np.Qmean (map w_heel_strikes ts)).

(** [sklearn.metrics.auc(x, y)]: the trapezoidal rule, after the
    checks of the library: the two arrays have one length, at least
    two points, and [x] is monotonic (a decreasing [x] flips the
    sign). *)
Definition metrics_auc (x y : list Q) : outcome Q :=
  if negb (length x =? length y) then Raise ValueError
  else if length x <? 2 then Raise ValueError
  else
    let dx := Np.Qdiff x in
    if existsb (λ d, Qlt_bool d 0) dx then
      if forallb (λ d, Qle_bool d 0) dx then Ret (- Np.trapz y x)%Q
      else Raise ValueError
    else Ret (Np.trapz y x).

(** A row of the table [calculate_rotation] returns. *)
Record turn_event : Type := TurnEvent {
  ev_td : Q;
  ev_auc : Q;
  ev_turn_duration : Q;
  ev_aucXt : Q
}.

(** The [for] loop of [calculate_rotation]: [td] and [ys] are the
    columns ["td"] and [orientation] (filtered), [start] the loop
    variable of that name. *)
Fixpoint rotation_loop (td ys : list Q) (zcr_list : list nat) (start : nat)
    : outcome (list turn_event) :=
  match zcr_list with
  | [] => Ret []
  | i :: zcr_list =>
      let x := slice start (i + 1) td in
      let y := slice start (i + 1) ys in
      t1 ← iloc td (i + 1);
      t0 ← iloc td start;
      let turn_duration := (t1 - t0)%Q in
      let start := i + 1 in
      if 2 <=? length y then
        a ← metrics_auc x y;
        let auc := Qabs a in
        let aucXt := (auc * turn_duration)%Q in
        x_last ← iloc_last x;
        rest ← rotation_loop td ys zcr_list start;
        Ret ({| ev_td := x_last; ev_auc := auc;
                ev_turn_duration := turn_duration; ev_aucXt := aucXt |} :: rest)
      else rotation_loop td ys zcr_list start
  end.

(** [calculate_rotation(data, orientation)]. *)
Definition calculate_rotation (data : list sample) (o : orientation)
    : outcome (list turn_event) :=
  let filtered := butter_lowpass_filter (map (col o) data) 100 2 2 in
  let zcr_list := detect_zcr filtered in
  rotation_loop (map s_td data) filtered zcr_list 0.

(** [pd.merge(accel_data, rotation_data, on = "td", how = "left")]:
    the rows of the left table in their order, each with every row
    of the right table of the same [td], or once with nothing.  (When
    both tables are empty pandas compares the types of the two key
    columns and may reject them; the statements below that promise a
    result of [pipeline] take a left table that has rows.) *)
Definition merge_left (accel_data : list sample) (rotation_data : list turn_event)
    : list (sample * option turn_event) :=
  flat_map
    (λ a, match filter (λ e, Qeq_bool (s_td a) (ev_td e) = true) rotation_data with
          | [] => [(a, None)]
          | ms => map (λ e, (a, Some e)) ms
          end)
    accel_data.

(** [fillna(method = "bfill")]: a missing value takes the next known
    value below it, if there is one. *)
Fixpoint bfill (c : list (option Q)) : list (option Q) :=
  match c with
  | [] => []
  | v :: t =>
      let t' := bfill t in
      match v with
      | Some _ => v :: t'
      | None => match t' with n :: _ => n | [] => None end :: t'
      end
  end.

(** [fillna(v)]. *)
Definition fillna (v : Q) (c : list (option Q)) : list Q := map (default v) c.

(** A row of the merged timeline. *)
Record overlay_row : Type := OverlayRow {
  ov_sample : sample;
  ov_auc : option Q;
  ov_turn_duration : Q;
  ov_aucXt : Q
}.

(** [create_overlay_data(accel_data, rotation_data)]. *)
Definition create_overlay_data
    (accel_data : list sample) (rotation_data : list turn_event) : list overlay_row :=
  let test := merge_left accel_data rotation_data in
  let aucXt := fillna 0 (bfill (map (λ r, ev_aucXt <$> r.2) test)) in
  let turn_duration := fillna 0 (bfill (map (λ r, ev_turn_duration <$> r.2) test)) in
  zip_with (λ r v, {| ov_sample := r.1; ov_auc := ev_auc <$> r.2;
                      ov_turn_duration := v.2; ov_aucXt := v.1 |})
           test (zip aucXt turn_duration).

(** [itertools.groupby(l, key)]: the runs of neighbours with one key. *)
Fixpoint groupby {A} (key : A → Z) (l : list A) : list (Z * list A) :=
  match l with
  | [] => []
  | a :: t =>
      match groupby key t with
      | (k, g) :: gs =>
          if Z.eqb (key a) k then (k, a :: g) :: gs
          else (key a, [a]) :: (k, g) :: gs
      | [] => [(key a, [a])]
      end
  end.

(** [separate_array_sequence(array)]. *)
Definition separate_array_sequence (array : list nat) : list (list nat) :=
  let seq2 := array in
  map (λ kg, map snd kg.2)
      (groupby (λ x : nat * nat, (Z.of_nat x.1 - Z.of_nat x.2)%Z) (imap pair seq2)).

(** *** [query_utils.clean_accelerometer_data] *)

(** The order of the time index. *)
Definition td_le (a b : sample) : Prop := (s_td a <= s_td b)%Q.

#[global] Instance td_le_dec : RelDecision td_le.
Proof.
  intros a b. unfold td_le.
  destruct (Qlt_le_dec (s_td b) (s_td a)) as [Hlt | Hle].
  - right. intros H. exact (Qlt_not_le _ _ Hlt H).
  - left. exact Hle.
Defined.

#[global] Instance td_le_total : Total td_le.
Proof.
  intros a b. unfold td_le.
  destruct (Qlt_le_dec (s_td b) (s_td a)) as [H|H]; [right; lra | left; done].
Qed.

(** [all(index[:-1] <= index[1:])]. *)
Definition index_sorted (index : list Q) : bool :=
  forallb (λ p, Qle_bool p.1 p.2) (zip (removelast index) (tail index)).

(** The numbers of seconds pandas can hold as a time, or as a
    difference of two times, with its count of nanoseconds in 64
    bits: about 292 years on either side of zero.  The library makes
    its test on floats, and not in the same way in all its versions:
    within a second of the two ends the model, which takes the exact
    bound, may differ from it. *)
Definition ns_bound : Q := 9223372036854775807 # 1000000000.

Definition in_ns_range (t : Q) : bool :=
  Qle_bool (- ns_bound) t && Qle_bool t ns_bound.

(** The first statements of [clean_accelerometer_data], up to the
    column [AA], on a table that has the columns [timestamp], [x],
    [y] and [z]: [dropna] keeps the rows with the three axes;
    [pd.to_datetime(.., unit = "s")] raises on a timestamp it cannot
    hold; [date_series.iloc[0]] raises when no row is left; the
    difference to the first timestamp raises when it overflows (the
    [OverflowError] of the checked addition of the library); [td] is
    that difference in seconds.  The library keeps a time to the
    nanosecond and [total_seconds()] gives it back as a float: as for
    every float, the rounding is not modelled.  Every row has a number
    for its timestamp: a missing one, which pandas turns into [NaT],
    is outside the model. *)
Definition with_td (data : list raw_sample) : outcome (list sample) :=
  let data :=
    omap (λ r, match r_x r, r_y r, r_z r with
               | Some x, Some y, Some z => Some (r, x, y, z)
               | _, _, _ => None
               end) data in
  let date_series := map (λ r, r_timestamp r.1.1.1) data in
  if negb (forallb in_ns_range date_series) then Raise OutOfBoundsDatetime
  else
    t0 ← iloc date_series 0;
    if negb (forallb (λ t, in_ns_range (t - t0)) date_series) then Raise OverflowError
    else
      Ret (map (λ r, let '(r, x, y, z) := r in
                     {| sensorType := r_sensorType r;
                        s_td := (r_timestamp r - t0)%Q;
                        s_x := x; s_y := y; s_z := z;
                        s_AA := np_sqrt E (x * x + y * y + z * z)%Q |}) data).

(** [clean_accelerometer_data(data)]: after [with_td], [sort_index]
    orders the rows by [td] (pandas does not promise the order of
    rows of equal [td]; the model is a stable sort), and the last
    statement is the check that the index is sorted. *)
Definition clean_accelerometer_data (data : list raw_sample) : outcome (list sample) :=
  data ← with_td data;
  let data := merge_sort td_le data in
  if index_sorted (map s_td data) then Ret data
  else Raise (SystemExit "Time Series File is not Sorted").

(** [clean_accelerometer_data] on a table as [open_filepath] reads
    it: [dropna(subset = ["x", "y", "z"])], its first statement,
    raises [KeyError] on a table that has not the three columns. *)
Definition clean_table (data : json_frame) : outcome (list sample) :=
  match data with
  | SchemaV2 rows => clean_accelerometer_data rows
  | SchemaV1 _ | NoColumns => Raise KeyError
  end.

(** *** [pipeline] *)

(** The argument of [pipeline]: a string (a path, or the mark of a
    missing file) or a DataFrame, the table of a cleaned recording. *)
Inductive pdata : Type :=
| Path (s : string)
| Frame (rows : list sample).

(** The dictionary [pipeline] builds. *)
Record feature_dict : Type := FeatureDict {
  wchunk_mean_no_of_steps_per_secs : Np.npfloat;
  no_wchunk_mean_no_of_steps_per_secs : Np.npfloat;
  rotation_no_of_turns : nat;
  rotation_mean_duration : Np.npfloat;
  rotation_min_duration : Np.npfloat;
  rotation_max_duration : Np.npfloat
}.

(** What [pipeline] returns: its argument, or the dictionary. *)
Inductive pipeline_result : Type :=
| RetStr (s : string)
| RetDict (f : feature_dict).

(** [Series.min()] and [Series.max()] of a non-empty column. *)
Definition Qminimum (l : list Q) : Q :=
  match l with [] => 0%Q | a :: t => foldl Qmin a t end.
Definition Qmaximum (l : list Q) : Q :=
  match l with [] => 0%Q | a :: t => foldl Qmax a t end.

(** The indexes of the merged timeline that start the bouts:
    [separate_array_sequence(np.where(data["aucXt"] < 2)[0])]. *)
Definition walking_seqs (data : list overlay_row) : list (list nat) :=
  separate_array_sequence (Np.where_ (map (λ r, Qlt_bool (ov_aucXt r) 2) data)).

(** The body of the loop over [walking_seqs]: the two rates of one
    bout.  What the detector leaves in [data_seqs["y"]] is not read
    again: the bouts are disjoint. *)
Definition bout_rates (data : list overlay_row) (o : orientation) (seqs : list nat)
    : outcome (Q * Np.npfloat) :=
  first ← iloc seqs 0;
  last ← iloc_last seqs;
  let data_seqs := map ov_sample (slice first (last + 1) data) in
  no_of_steps_per_secs_wchunk ← calculate_number_of_steps_per_window data_seqs o;
  t1 ← iloc_last (map s_td data_seqs);
  t0 ← iloc (map s_td data_seqs) 0;
  let duration := (t1 - t0)%Q in
  let no_of_steps_per_secs_no_wchunk :=
    match heel_strikes E duration (map s_y data_seqs) with
    | Some hs => Np.div (inject_Z (Z.of_nat hs.1)) duration
    | None => Np.Fin 0
    end in
  Ret (no_of_steps_per_secs_wchunk, no_of_steps_per_secs_no_wchunk).

(** The last statements of [pipeline]: the four rotation entries from
    the table [rotation_occurences]. *)
Definition rotation_features (rotation_occurences : list turn_event)
    : nat * Np.npfloat * Np.npfloat * Np.npfloat :=
  if negb (length rotation_occurences =? 0) then
    let d := map ev_turn_duration rotation_occurences in
    (length rotation_occurences,
     Np.Fin (Np.Qmean d), Np.Fin (Qminimum d), Np.Fin (Qmaximum d))
  else (0, Np.Fin 0, Np.Fin 0, Np.Fin 0).

(** [pipeline] from the statement [accel_ts = ...] on. *)
Definition pipeline_frame (data : list sample) (o : orientation) : outcome pipeline_result :=
  let accel_ts := filter (λ r, sensorType r = "userAcceleration") data in
  let rotation_ts := filter (λ r, sensorType r = "rotationRate") data in
  rotation_ts ← calculate_rotation rotation_ts o;
  let rotation_occurences := filter (λ e, Qlt_bool 2 (ev_aucXt e) = true) rotation_ts in
  let data := create_overlay_data accel_ts rotation_ts in
  rates ← mapM (bout_rates data o) (walking_seqs data);
  let mean_arr_wchunk := map (λ r, Np.Fin r.1) rates in
  let mean_arr_no_wchunk := map snd rates in
  let wchunk_mean := Np.mean mean_arr_wchunk in
  let no_wchunk_mean := Np.mean mean_arr_no_wchunk in
  let '(n, mean_d, min_d, max_d) := rotation_features rotation_occurences in
  Ret (RetDict {| wchunk_mean_no_of_steps_per_secs := wchunk_mean;
                  no_wchunk_mean_no_of_steps_per_secs := no_wchunk_mean;
                  rotation_no_of_turns := n;
                  rotation_mean_duration := mean_d;
                  rotation_min_duration := min_d;
                  rotation_max_duration := max_d |}).

(** [pipeline(data, orientation)]. *)
Definition pipeline (data : pdata) (o : orientation) : outcome pipeline_result :=
  match data with
  | Path s =>
      if String.eqb s "#ERROR" then Ret (RetStr s)
      else
        data ← open_filepath E s;
        data ← clean_table data;
        pipeline_frame data o
  | Frame rows => pipeline_frame rows o
  end.

End Walking.

(** ** The vocabulary of the properties *)

(** [select keep l]: the rows of [l] whose position passes [keep], in
    their order. *)
Definition select {A} (keep : nat → bool) (l : list A) : list A :=
  map snd (filter (λ r, keep r.1 = true) (imap pair l)).

(** [s, e) is a maximal run of positions with [P]: [P] holds inside,
    fails just before and just after. *)
Definition maximal_run (P : nat → Prop) (s e : nat) : Prop :=
  s < e ∧ (∀ j, s ≤ j < e → P j) ∧ (∀ j, S j = s → ¬ P j) ∧ ¬ P e.

(** Window [i] has a heel-strike rate of zero. *)
Definition zero_rate (rates : list Q) (i : nat) : Prop :=
  ∃ q, rates !! i = Some q ∧ (q == 0)%Q.

(** Window [i] lies in a maximal run of at least [n] windows of rate
    zero. *)
Definition in_long_zero_run (rates : list Q) (n i : nat) : Prop :=
  ∃ s e, maximal_run (zero_rate rates) s e ∧ s ≤ i < e ∧ n ≤ e - s.

(** The scan that [zero_runs] amounts to: the runs of [true] of [l],
    whose first position is [k]; [cur] is the start of the run the
    scan is in, if it is in one. *)
Fixpoint true_runs (l : list bool) (k : nat) (cur : option nat) : list (nat * nat) :=
  match l with
  | [] => match cur with Some s => [(s, k)] | None => [] end
  | true :: t => true_runs t (S k) (Some (default k cur))
  | false :: t =>
      match cur with
      | Some s => (s, k) :: true_runs t (S k) None
      | None => true_runs t (S k) None
      end
  end.

(** A flag as [np.int8]. *)
Definition zbit (b : bool) : Z := if b then 1%Z else 0%Z.

(** The positions, counted from [k], where the flags [p :: l ++ [false]]
    change: what [zero_runs] reshapes, with [p] the flag before the
    list. *)
Definition edges (p : bool) (l : list bool) (k : nat) : list nat :=
  Np.where_from k (map (λ d, Z.eqb d 1) (map Z.abs (Np.diff (zbit p :: map zbit l ++ [0%Z])))).

Arguments edges : simpl never.

(** What the scan knows of the flags [pre] it has read: it is in a
    run that started at [s], or the last flag read is [false]. *)
Definition scan_inv (pre : list bool) (cur : option nat) : Prop :=
  match cur with
  | Some s => s < length pre ∧ (∀ j, s ≤ j < length pre → pre !! j = Some true)
              ∧ (∀ j, S j = s → pre !! j ≠ Some true)
  | None => ∀ j, S j = length pre → pre !! j ≠ Some true
  end.

(** Position [j] is in none of the ranges [runs]. *)
Definition keeps (runs : list (nat * nat)) (j : nat) : bool :=
  forallb (λ i, negb (in_range i.1 i.2 j)) runs.

(** The split of a list of integers into its runs of consecutive
    values, written by recursion on the list. *)
Fixpoint consecutive_runs (l : list nat) : list (list nat) :=
  match l with
  | [] => []
  | a :: t =>
      match consecutive_runs t with
      | (b :: g) :: gs =>
          if b =? S a then (a :: b :: g) :: gs else [a] :: (b :: g) :: gs
      | _ => [[a]]
      end
  end.

(** What [groupby] returns on an enumerated list, from the runs: each
    run with its key and with the positions of its members. *)
Fixpoint annotate (k : nat) (gs : list (list nat)) : list (Z * list (nat * nat)) :=
  match gs with
  | [] => []
  | g :: gs =>
      ((Z.of_nat k - Z.of_nat (hd 0%nat g))%Z, imap (λ i, pair (k + i)) g)
        :: annotate (k + length g) gs
  end.

(** Index [i] of the merged timeline is a candidate for walking, or
    is turning. *)
Definition walking (data : list overlay_row) (i : nat) : Prop :=
  ∃ r, data !! i = Some r ∧ (ov_aucXt r < 2)%Q.
Definition turning (data : list overlay_row) (i : nat) : Prop :=
  ∃ r, data !! i = Some r ∧ (2 <= ov_aucXt r)%Q.

(** The first known value of a column, from its top. *)
Fixpoint first_known (c : list (option Q)) : option Q :=
  match c with
  | [] => None
  | Some v :: _ => Some v
  | None :: t => first_known t
  end.

(** [v] is what row [i] of column [c] holds once filled: the known
    value at the nearest row [j] from [i] on (row [i] itself when it
    is known), or zero when no row from [i] on is known. *)
Definition filled (c : list (option Q)) (i : nat) (v : Q) : Prop :=
  (∃ j, i ≤ j ∧ c !! j = Some (Some v) ∧ ∀ j', i ≤ j' < j → c !! j' = Some None)
  ∨ (v = 0%Q ∧ ∀ j, i ≤ j → j < length c → c !! j = Some None).

(** The time index never goes down from a row to the next. *)
Definition non_decreasing (l : list Q) : Prop :=
  ∀ i a b, l !! i = Some a → l !! S i = Some b → (a <= b)%Q.

(** The intervals of the segmentation: from [start] to the first
    crossing, then from the row after a crossing to the next crossing
    (both ends included). *)
Fixpoint intervals (start : nat) (zcr : list nat) : list (nat * nat) :=
  match zcr with
  | [] => []
  | i :: zcr => (start, i) :: intervals (i + 1) zcr
  end.

(** Row [i] of a column known to have it. *)
Definition at_ (l : list Q) (i : nat) : Q := default 0%Q (l !! i).

(** The turn event of the interval from row [start] to row [i]: none
    under two rows; else the marker is the [td] of row [i], the area
    is the trapezoidal rule over the rows of the interval, and the
    duration runs from row [start] to row [i + 1], the first row after
    the interval. *)
Definition interval_event (td ys : list Q) (iv : nat * nat) : option turn_event :=
  let '(start, i) := iv in
  let x := slice start (i + 1) td in
  let y := slice start (i + 1) ys in
  if 2 <=? length y then
    let auc := Qabs (Np.trapz y x) in
    let duration := (at_ td (i + 1) - at_ td start)%Q in
    Some {| ev_td := at_ td i; ev_auc := auc;
            ev_turn_duration := duration; ev_aucXt := (auc * duration)%Q |}
  else None.

(** The span of the rows of an interval: the [td] of its last row
    minus the [td] of its first. *)
Definition subseries_span (td : list Q) (iv : nat * nat) : Q :=
  let x := slice iv.1 (iv.2 + 1) td in
  (default 0 (last x) - default 0 (head x))%Q.

(** ** Small recordings *)

Definition rot_row (t v : Q) : sample := Sample "rotationRate" t 0 v 0 0.
Definition acc_row (t v : Q) : sample := Sample "userAcceleration" t 0 v 0 0.

(** Four gyroscope rows with one sign change, and two accelerometer
    rows before it. *)
Definition turn_td : list Q := [0; 1; 2; 3]%Q.
Definition turn_ys : list Q := [2; 2; -2; -2]%Q.
Definition turning_recording : list sample :=
  [acc_row 0 1; acc_row 1 1] ++ zip_with rot_row turn_td turn_ys.


(** Three accelerometer rows, one second apart. *)
Definition three_rows : list sample := [acc_row 0 1; acc_row 1 1; acc_row 2 1].

(** Two rows of a file, the later one first. *)
Definition unsorted_file : list raw_sample :=
  [RawSample 2 "userAcceleration" (Some 0%Q) (Some 0%Q) (Some 0%Q);
   RawSample 1 "userAcceleration" (Some 0%Q) (Some 0%Q) (Some 0%Q)].

(** Two rows of a file, the second with a timestamp some 317 years
    after the origin of the timestamps. *)
Definition late_file : list raw_sample :=
  [RawSample 5 "userAcceleration" (Some 0%Q) (Some 0%Q) (Some 0%Q);
   RawSample 10000000000 "userAcceleration" (Some 0%Q) (Some 0%Q) (Some 0%Q)].

(** A merged timeline of five rows, two of them turning. *)
Definition small_timeline : list overlay_row :=
  map (λ v, OverlayRow (acc_row 0 0) None 0 v) [0; 0; 3; 0; 3]%Q.

(** A table of ten windows with a run of five zeros. *)
Definition small_table : list window :=
  map (λ q, Window 0 q (Np.Fin 1)) [0; 0; 1; 0; 0; 0; 0; 0; 2; 0]%Q.

(** Two turn events, of [aucXt] 5 and 1/2. *)
Definition two_events : list turn_event :=
  [TurnEvent 1 (5 # 3) 3 5; TurnEvent 2 (1 # 2) 1 (1 # 2)].

(** ** More of the two modules *)

(** A row of a file that [dropna(subset = ["x", "y", "z"])] keeps. *)
Definition complete (r : raw_sample) : bool :=
  match r_x r, r_y r, r_z r with
  | Some _, Some _, Some _ => true
  | _, _, _ => false
  end.

(** The values [time.append(jPos)] collects for a bout of [n] rows:
    257, 307, ... below [n]. *)
Definition window_times (n : nat) : list nat :=
  map (λ k, 257 + 50 * k) (seq 0 ((n - 257 + 49) / 50)).

#[global] Instance td_le_trans : Transitive td_le.
Proof. intros a b c. unfold td_le. apply Qle_trans. Qed.

(** [passthrough] with a reader of files. *)
Definition with_reader (read : string → outcome json_frame) : externals :=
  {| coeffs := unit;
     butter := λ _ _, tt;
     lfilter := λ _ l, l;
     lfilter_length := λ _ _, eq_refl;
     heel_strikes := λ _ _, None;
     heel_strikes_leaves := λ _ v, v;
     np_sqrt := λ q, q;
     open_filepath := read |}.

(** The values of an array above 3/2. *)
Definition high_values (v : list Q) : nat :=
  length (filter (λ x, Qlt_bool (3 # 2) x = true) v).

(** A detector that counts a strike for each value above 3/2 and
    leaves the array centred on its mean. *)
Definition centring : externals :=
  {| coeffs := unit;
     butter := λ _ _, tt;
     lfilter := λ _ l, l;
     lfilter_length := λ _ _, eq_refl;
     heel_strikes := λ _ v, Some (high_values v, high_values v);
     heel_strikes_leaves := λ _ v, map (λ x, x - Np.Qmean v)%Q v;
     np_sqrt := λ q, q;
     open_filepath := λ _, Raise IOError |}.

(** A bout of [n] accelerometer rows, a hundredth of a second apart,
    whose [y] is 2 and 0 in turn. *)
Definition swinging_bout (n : nat) : list sample :=
  map (λ k, acc_row (inject_Z (Z.of_nat k) / 100)
                    (if Nat.even k then 2 else 0)) (seq 0 n).

(** The tables [clean_accelerometer_data] returns from: a row has its
    three axes, the timestamps of the rows that have them are in the
    range of the library, and so are their differences to the first of
    them. *)
Definition cleanable (data : list raw_sample) : bool :=
  match filter (λ r, complete r = true) data with
  | [] => false
  | r0 :: rest =>
      forallb (λ r, in_ns_range (r_timestamp r)) (r0 :: rest)
      && forallb (λ r, in_ns_range (r_timestamp r - r_timestamp r0)) (r0 :: rest)
  end.

(** The first value a column has, from its top. *)
Fixpoint first_some {A} (c : list (option A)) : option A :=
  match c with
  | [] => None
  | Some v :: _ => Some v
  | None :: t => first_some t
  end.

(** No two turn events have the same [td]. *)
Definition distinct_td (rotation_data : list turn_event) : Prop :=
  ∀ i j e e', rotation_data !! i = Some e → rotation_data !! j = Some e' →
              (ev_td e == ev_td e')%Q → i = j.

(** *** [query_utils.get_sensor_ts_from_filepath] *)

(** A row of the table the function returns:
    [data[["td", "x", "y", "z", "AA"]]]. *)
Record ts_row : Type := TsRow {
  t_td : Q;
  t_x : Q;
  t_y : Q;
  t_z : Q;
  t_AA : Q
}.

Definition ts_columns (r : sample) : ts_row :=
  {| t_td := s_td r; t_x := s_x r; t_y := s_y r; t_z := s_z r; t_AA := s_AA r |}.

(** [data.shape[0]] of a table [open_filepath] has read. *)
Definition frame_rows (data : json_frame) : nat :=
  match data with
  | SchemaV2 rows => length rows
  | SchemaV1 rows => length rows
  | NoColumns => 0
  end.

(** What the function returns: a string (the mark ["#ERROR"]) or a
    table. *)
Inductive sensor_ts : Type :=
| TsStr (s : string)
| TsFrame (rows : list ts_row).

(** [get_sensor_ts_from_filepath(filepath, sensor)] for a string
    [filepath] (the first test of the function raises on anything
    else); [read] is [open_filepath].  A table without columns has no
    rows and is stopped by the test of [data.shape[0]]; past it,
    [data[["timestamp", sensor]]] would raise [KeyError]. *)
Definition get_sensor_ts_from_filepath (E : externals)
    (read : string → outcome json_frame) (filepath sensor : string) : outcome sensor_ts :=
  if String.eqb filepath "#ERROR" then Ret (TsStr filepath)
  else
    data ← read filepath;
    if frame_rows data =? 0 then Ret (TsStr "#ERROR")
    else
      match data with
      | SchemaV2 rows =>
          let data := filter (λ r, r_sensorType r = sensor) rows in
          match clean_accelerometer_data E data with
          | Ret data => Ret (TsFrame (map ts_columns data))
          | Raise _ => Ret (TsStr "#ERROR")
          end
      | SchemaV1 rows =>
          let data :=
            map (λ r, let '(x, y, z) := v1_axes r sensor in
                      {| r_timestamp := v1_timestamp r; r_sensorType := sensor;
                         r_x := x; r_y := y; r_z := z |}) rows in
          data ← clean_accelerometer_data E data;
          Ret (TsFrame (map ts_columns data))
      | NoColumns => Raise KeyError
      end.

(** *** [featurize] *)

(** A row of the table of recordings: what identifies it and the
    paths of its two files. *)
Record path_row (A : Type) : Type := PathRow {
  row_meta : A;
  walk_motion_json_pathfile : string;
  balance_motion_json_pathfile : string
}.
Arguments PathRow {A}.
Arguments row_meta {A}.
Arguments walk_motion_json_pathfile {A}.
Arguments balance_motion_json_pathfile {A}.

(** The table [featurize] is given, which is the caller's: its rows,
    and the columns ["walk_features"] and ["balance_features"] when
    it has them. *)
Record path_table (A : Type) : Type := PathTable {
  pt_rows : list (path_row A);
  pt_walk_features : option (list pipeline_result);
  pt_balance_features : option (list pipeline_result)
}.
Arguments PathTable {A}.
Arguments pt_rows {A}.
Arguments pt_walk_features {A}.
Arguments pt_balance_features {A}.

(** [featurize(data)]: [apply] runs [pipeline] on the column of the
    walking files, row after row, and the column of the results is
    assigned to [data]; then the same with the balance files.  The
    result is the table the caller holds when the call ends, with
    what the call does: it returns (that table) or raises. *)
Definition featurize {A} (E : externals) (data : path_table A)
    : path_table A * outcome unit :=
  match mapM (λ r, pipeline E (Path (walk_motion_json_pathfile r)) OY) (pt_rows data) with
  | Raise e => (data, Raise e)
  | Ret walk =>
      let data := {| pt_rows := pt_rows data;
                     pt_walk_features := Some walk;
                     pt_balance_features := pt_balance_features data |} in
      match mapM (λ r, pipeline E (Path (balance_motion_json_pathfile r)) OY)
                 (pt_rows data) with
      | Raise e => (data, Raise e)
      | Ret balance =>
          ({| pt_rows := pt_rows data;
              pt_walk_features := pt_walk_features data;
              pt_balance_features := Some balance |}, Ret ())
      end
  end.

(** *** [query_utils.fix_column_name] *)

(** [sub in s] for two strings. *)
Definition py_in (sub s : string) : bool :=
  match String.index 0 sub s with Some _ => true | None => false end.

(** [s.split(sep)[1]] for a separator that is not empty: what lies
    between the first [sep] and the next one (or the end);
    [IndexError] when [s] has no [sep]. *)
Definition split_second (sep s : string) : outcome string :=
  match String.index 0 sep s with
  | None => Raise IndexError
  | Some p =>
      let start := p + String.length sep in
      let rest := String.substring start (String.length s - start) s in
      match String.index 0 sep rest with
      | None => Ret rest
      | Some q => Ret (String.substring 0 q rest)
      end
  end.

(** [data.rename({old: new}, axis = 1)] on the names of the columns. *)
Definition rename_column (old new : string) (columns : list string) : list string :=
  map (λ c, if String.eqb c old then new else c) columns.

(** The loop of [fix_column_name] over the names [features]. *)
Fixpoint rename_loop (features columns : list string) : outcome (list string) :=
  match features with
  | [] => Ret columns
  | feature :: features =>
      new ← split_second "features_" feature;
      rename_loop features (rename_column feature new columns)
  end.

(** [fix_column_name(data)], on the names of the columns of [data]. *)
Definition fix_column_name (columns : list string) : outcome (list string) :=
  rename_loop (filter (λ x, py_in "feature" x = true) columns) columns.

(** The name [fix_column_name] gives a column. *)
Definition fixed_name (c : string) : string :=
  if py_in "feature" c then
    match split_second "features_" c with Ret n => n | Raise _ => c end
  else c.

(** The time index goes up from every row to the rows after it. *)
Definition strictly_increasing (l : list Q) : Prop :=
  ∀ i j a b, i < j → l !! i = Some a → l !! j = Some b → (a < b)%Q.
(** ** Zero runs *)

Lemma edges_nil p k : edges p [] k = if p then [k] else [].
Proof. by destruct p. Qed.

Lemma edges_cons p b l k :
  edges p (b :: l) k = (if Bool.eqb p b then [] else [k]) ++ edges b l (S k).
Proof. unfold edges. by destruct p, b. Qed.

Lemma reshape2_edges l : ∀ k,
  Np.reshape2 (edges false l k) = Ret (true_runs l k None)
  ∧ ∀ s, Np.reshape2 (s :: edges true l k) = Ret (true_runs l k (Some s)).
Proof.
  induction l as [|b l IH]; intros k.
  - rewrite !edges_nil. done.
  - destruct (IH (S k)) as [IH0 IH1]. rewrite !edges_cons.
    destruct b; cbn [Bool.eqb app true_runs default].
    + split; [apply IH1|]. intros s. apply IH1.
    + split; [apply IH0|]. intros s. cbn [Np.reshape2]. by rewrite IH0.
Qed.

Lemma zero_runs_true_runs array :
  zero_runs array = Ret (true_runs (map (λ v, Qeq_bool v 0) array) 0 None).
Proof.
  unfold zero_runs.
  destruct (reshape2_edges (map (λ v, Qeq_bool v 0) array) 0) as [<- _].
  unfold edges, Np.where_. rewrite (map_map _ zbit). reflexivity.
Qed.

Lemma maximal_run_unique (P : nat → Prop) s e s' e' j :
  maximal_run P s e → maximal_run P s' e' →
  s ≤ j < e → s' ≤ j < e' → s = s' ∧ e = e'.
Proof.
  intros (Hse & Hin & Hpre & Hpost) (Hse' & Hin' & Hpre' & Hpost') Hj Hj'.
  split.
  - destruct (Nat.lt_trichotomy s s') as [Hlt | [-> | Hlt]]; [|done|].
    + destruct s' as [|p]; [lia|]. exfalso. apply (Hpre' p eq_refl), Hin. lia.
    + destruct s as [|p]; [lia|]. exfalso. apply (Hpre p eq_refl), Hin'. lia.
  - destruct (Nat.lt_trichotomy e e') as [Hlt | [-> | Hlt]]; [|done|].
    + exfalso. apply Hpost, Hin'. lia.
    + exfalso. apply Hpost', Hin. lia.
Qed.

Lemma true_runs_spec suf : ∀ pre cur, scan_inv pre cur → ∀ s e,
  (s, e) ∈ true_runs suf (length pre) cur
  ↔ maximal_run (λ j, (pre ++ suf) !! j = Some true) s e ∧ length pre ≤ e.
Proof.
  induction suf as [|b suf IH]; intros pre cur Hinv s e.
  - rewrite app_nil_r. cbn [true_runs]. destruct cur as [s0|]; cbn [scan_inv] in Hinv.
    + destruct Hinv as (Hlt & Hin & Hpre).
      assert (Hrun : maximal_run (λ j, pre !! j = Some true) s0 (length pre)).
      { repeat split; [done..|]. rewrite lookup_ge_None_2; [done|lia]. }
      rewrite list_elem_of_singleton. split.
      * intros [= -> ->]. done.
      * intros [Hrun' Hle].
        assert (e = length pre) as ->.
        { destruct Hrun' as (Hse & Hin' & _). specialize (Hin' (e - 1)).
          apply Nat.le_antisymm; [|done].
          assert (e - 1 < length pre); [|lia]. eapply lookup_lt_Some, Hin'. lia. }
        destruct (maximal_run_unique _ _ _ _ _ (length pre - 1) Hrun Hrun') as [-> _];
          [|destruct Hrun' as (? & _)|]; (done || lia).
    + split; [by intros ?%elem_of_nil|]. intros [(Hse & Hin & _) Hle]. exfalso.
      assert (e = length pre) as ->.
      { apply Nat.le_antisymm; [|done].
        assert (e - 1 < length pre); [|lia]. eapply lookup_lt_Some, (Hin (e - 1)). lia. }
      destruct (length pre) as [|n] eqn:Hn; [lia|].
      apply (Hinv n eq_refl). rewrite <- Hn in *. apply Hin. lia.
  - assert (Happ : pre ++ b :: suf = (pre ++ [b]) ++ suf) by by rewrite <- app_assoc.
    assert (Hlen : length (pre ++ [b]) = S (length pre)) by (rewrite length_app; simpl; lia).
    assert (Hb : (pre ++ b :: suf) !! length pre = Some b) by by rewrite list_lookup_middle.
    destruct b; cbn [true_runs].
    + rewrite <- Hlen, IH, <- Happ, Hlen.
      * split; intros [Hrun Hle]; (split; [done|]); [lia|].
        destruct (decide (e = length pre)) as [->|]; [|lia].
        by destruct Hrun as (_ & _ & _ & []).
      * destruct cur as [s0|]; cbn [scan_inv default from_option id] in *.
        -- destruct Hinv as (Hlt & Hin & Hpre). rewrite Hlen. split_and!; [lia| |].
           ++ intros j Hj. destruct (decide (j = length pre)) as [->|].
              ** by rewrite list_lookup_middle.
              ** rewrite lookup_app_l by lia. apply Hin. lia.
           ++ intros j Hj. rewrite lookup_app_l by lia. by apply Hpre.
        -- rewrite Hlen. split_and!; [lia| |].
           ++ intros j Hj. assert (j = length pre) as -> by lia. by rewrite list_lookup_middle.
           ++ intros j Hj. rewrite lookup_app_l by lia. by apply Hinv.
    + assert (Hnone : scan_inv (pre ++ [false]) None).
      { cbn [scan_inv]. rewrite Hlen. intros j [= ->]. by rewrite list_lookup_middle. }
      destruct cur as [s0|]; cbn [scan_inv] in Hinv.
      * destruct Hinv as (Hlt & Hin & Hpre).
        assert (Hrun : maximal_run (λ j, (pre ++ false :: suf) !! j = Some true) s0 (length pre)).
        { split_and!; [done| | |by rewrite Hb].
          - intros j Hj. rewrite lookup_app_l by lia. by apply Hin.
          - intros j Hj. rewrite lookup_app_l by lia. by apply Hpre. }
        rewrite elem_of_cons, <- Hlen, IH, <- Happ, Hlen by done. split.
        -- intros [[= -> ->] | [Hrun' Hle]]; [done|]. split; [done|lia].
        -- intros [Hrun' Hle]. destruct (decide (e = length pre)) as [->|]; [|right; split; [done|lia]].
           left. destruct (maximal_run_unique _ _ _ _ _ (length pre - 1) Hrun Hrun') as [-> _];
             [|destruct Hrun' as (? & _)|]; (done || lia).
      * rewrite <- Hlen, IH, <- Happ, Hlen by done.
        split; intros [Hrun Hle]; (split; [done|]); [lia|].
        destruct (decide (e = length pre)) as [->|]; [|lia]. exfalso.
        destruct Hrun as (Hse & Hin & _).
        destruct (length pre) as [|n] eqn:Hn; [lia|].
        apply (Hinv n eq_refl). rewrite <- (lookup_app_l _ (false :: suf)) by lia. apply Hin. lia.
Qed.

Lemma true_runs_maximal (l : list bool) s e :
  (s, e) ∈ true_runs l 0 None ↔ maximal_run (λ j, l !! j = Some true) s e.
Proof.
  rewrite (true_runs_spec l [] None); [|by intros j [=]].
  simpl. split; [by intros [? _]|]. intros H. split; [done|lia].
Qed.

Lemma zero_rate_lookup (rates : list Q) j :
  map (λ v, Qeq_bool v 0) rates !! j = Some true ↔ zero_rate rates j.
Proof.
  unfold zero_rate. rewrite list_lookup_fmap. destruct (rates !! j) as [q|]; simpl.
  - split.
    + intros [= H%Qeq_bool_iff]. eauto.
    + intros (q' & [= <-] & H). f_equal. by apply Qeq_bool_iff.
  - split; [done|]. by intros (? & ? & _).
Qed.

Lemma maximal_run_ext (P P' : nat → Prop) s e :
  (∀ j, P j ↔ P' j) → maximal_run P s e ↔ maximal_run P' s e.
Proof.
  intros HP. unfold maximal_run. setoid_rewrite HP. done.
Qed.

(** The maximal runs of zeros are what [zero_runs] returns. *)
Lemma zero_runs_maximal (array : list Q) :
  ∃ runs, zero_runs array = Ret runs
    ∧ ∀ s e, (s, e) ∈ runs ↔ maximal_run (zero_rate array) s e.
Proof.
  eexists. split; [apply zero_runs_true_runs|]. intros s e.
  rewrite true_runs_maximal. apply maximal_run_ext, zero_rate_lookup.
Qed.

Lemma foldl_drop_range {A} (runs : list (nat * nat)) : ∀ data : list (nat * A),
  foldl drop_range data runs = filter (λ r, keeps runs r.1 = true) data.
Proof.
  induction runs as [|i runs IH]; intros data; cbn [foldl].
  - unfold keeps. simpl. induction data as [|r data IHd]; [done|].
    rewrite filter_cons_True by done. by f_equal.
  - rewrite IH. unfold drop_range. rewrite list_filter_filter.
    apply list_filter_iff. intros r. unfold keeps. cbn [forallb].
    rewrite andb_true_iff. tauto.
Qed.

Lemma keeps_false runs j :
  keeps runs j = false ↔ ∃ s e, (s, e) ∈ runs ∧ s ≤ j < e.
Proof.
  unfold keeps. induction runs as [|[s e] runs IH]; cbn [forallb].
  - split; [done|]. by intros (? & ? & ?%elem_of_nil & _).
  - rewrite andb_false_iff, IH. setoid_rewrite elem_of_cons.
    unfold in_range. cbn [fst snd]. rewrite negb_false_iff, andb_true_iff.
    rewrite Nat.leb_le, Nat.ltb_lt. split.
    + intros [H | (s' & e' & ? & ?)]; [exists s, e; auto | exists s', e'; auto].
    + intros (s' & e' & [[= -> ->] | ?] & ?); [by left | right; eauto].
Qed.

(** What [subset_data_non_zero_runs] keeps. *)
Lemma subset_data_non_zero_runs_select (data : list window) (n : nat) :
  ∃ keep, subset_data_non_zero_runs data n = Ret (select keep data)
    ∧ ∀ j, keep j = false ↔ in_long_zero_run (map w_heel_strikes data) n j.
Proof.
  destruct (zero_runs_maximal (map w_heel_strikes data)) as (runs & Hruns & Hspec).
  unfold subset_data_non_zero_runs. rewrite Hruns. cbn [mbind outcome_bind].
  eexists (keeps _). split.
  - rewrite foldl_drop_range. reflexivity.
  - intros j. rewrite keeps_false. unfold in_long_zero_run.
    split.
    + intros (s & e & [Hthr Hin]%list_elem_of_filter & Hj). exists s, e.
      apply Hspec in Hin. split_and!; try done; try lia.
      cbn [fst snd] in Hthr. apply Z.leb_le in Hthr. lia.
    + intros (s & e & Hrun & Hj & Hlen). exists s, e. split; [|done].
      apply list_elem_of_filter. split; [|by apply Hspec].
      cbn [fst snd]. apply Z.leb_le. lia.
Qed.

(** ** The windows of a bout *)

Lemma iloc_Ret {A} (l : list A) i : i < length l → ∃ a, iloc l i = Ret a.
Proof.
  intros [a Ha]%lookup_lt_is_Some_2. exists a. unfold iloc. by rewrite Ha.
Qed.

Lemma iloc_last_Ret {A} (l : list A) : 0 < length l → ∃ a, iloc_last l = Ret a.
Proof.
  intros Hl. unfold iloc_last. destruct (last l) as [a|] eqn:Ha; [eauto|].
  apply last_None in Ha as ->. simpl in Hl. lia.
Qed.

Lemma length_slice {A} (a b : nat) (l : list A) :
  length (slice a b l) = (b - a) `min` (length l - a).
Proof. unfold slice. by rewrite length_take, length_drop. Qed.

Lemma map_slice {A B} (f : A → B) (a b : nat) (l : list A) :
  map f (slice a b l) = slice a b (map f l).
Proof. unfold slice. by rewrite fmap_take, fmap_drop. Qed.

(** A write in the column of the axis changes neither the number of
    rows, nor the filtered column, nor [td]. *)
Lemma length_write_col o jStart vs ts : length (write_col o jStart vs ts) = length ts.
Proof. apply length_imap. Qed.

Lemma snd_write_col o jStart vs ts : map snd (write_col o jStart vs ts) = map snd ts.
Proof.
  apply list_eq. intros i. unfold write_col.
  rewrite !list_lookup_fmap, list_lookup_imap.
  destruct (ts !! i) as [r|]; [|done]. cbn.
  destruct (jStart <=? i); [|done]. by destruct (vs !! (i - jStart)).
Qed.

Lemma td_write_col o jStart vs ts :
  map (λ r : sample * Q, s_td r.1) (write_col o jStart vs ts)
  = map (λ r : sample * Q, s_td r.1) ts.
Proof.
  apply list_eq. intros i. unfold write_col.
  rewrite !list_lookup_fmap, list_lookup_imap.
  destruct (ts !! i) as [r|]; [|done]. cbn.
  destruct (jStart <=? i); [|done]. destruct (vs !! (i - jStart)); [|done].
  by destruct o.
Qed.

Section Windows.
Context (E : externals).

(** The table the loop goes on with after a window. *)
Lemma length_after_window (b : bool) o jStart vs (ts : list (sample * Q)) :
  length (if b then ts else write_col o jStart vs ts) = length ts.
Proof. destruct b; [done|apply length_write_col]. Qed.

Lemma snd_after_window (b : bool) o jStart vs (ts : list (sample * Q)) :
  map snd (if b then ts else write_col o jStart vs ts) = map snd ts.
Proof. destruct b; [done|apply snd_write_col]. Qed.

Lemma window_loop_total (o : orientation) (ts : list (sample * Q)) :
  ∀ fuel jPos, 0 < jPos → ∃ obs, window_loop E fuel o ts jPos = Ret obs.
Proof.
  intros fuel. revert ts.
  induction fuel as [|fuel IH]; intros ts jPos HjPos; cbn [window_loop]; [eauto|].
  destruct (jPos <? length ts) eqn:Hlt; [|eauto].
  apply Nat.ltb_lt in Hlt.
  assert (Hsub : 0 < length (map (λ r : sample * Q, s_td r.1) (slice (jPos - 256) jPos ts))).
  { rewrite length_map, length_slice. lia. }
  destruct (iloc_last_Ret _ Hsub) as [t1 ->], (iloc_Ret _ 0 Hsub) as [t0 ->].
  cbn [mbind outcome_bind].
  match goal with
  | |- context [window_loop E fuel o ?t (jPos + 50)] =>
      destruct (IH t (jPos + 50)) as [rest Hrest]; [lia|]; rewrite Hrest
  end.
  cbn [mbind outcome_bind]. eauto.
Qed.

(** The loop stops on its condition: more fuel changes nothing once
    [fuel] covers the rows left. *)
Lemma window_loop_fuel (o : orientation) (ts : list (sample * Q)) :
  ∀ fuel fuel' jPos, length ts ≤ jPos + fuel → fuel ≤ fuel' →
    window_loop E fuel o ts jPos = window_loop E fuel' o ts jPos.
Proof.
  intros fuel. revert ts.
  induction fuel as [|fuel IH]; intros ts fuel' jPos Hlen Hle.
  - destruct fuel'; cbn [window_loop]; [done|].
    destruct (jPos <? length ts) eqn:Hlt; [|done]. apply Nat.ltb_lt in Hlt. lia.
  - destruct fuel' as [|fuel']; [lia|]. cbn [window_loop].
    destruct (jPos <? length ts); [|done].
    destruct (iloc_last _) as [t1|]; cbn [mbind outcome_bind]; [|done].
    destruct (iloc _ 0) as [t0|]; cbn [mbind outcome_bind]; [|done].
    match goal with
    | |- context [window_loop E fuel o ?t (jPos + 50)] =>
        rewrite (IH t fuel' (jPos + 50)) by (rewrite ?length_after_window; lia)
    end.
    done.
Qed.

Lemma window_loop_short (o : orientation) (ts : list (sample * Q)) fuel jPos :
  length ts ≤ jPos → window_loop E fuel o ts jPos = Ret [].
Proof.
  intros Hlen. destruct fuel; cbn [window_loop]; [done|].
  destruct (jPos <? length ts) eqn:Hlt; [|done]. apply Nat.ltb_lt in Hlt. lia.
Qed.

Lemma window_table_total data o : ∃ table, window_table E data o = Ret table.
Proof.
  unfold window_table.
  edestruct window_loop_total as [obs ->]; [|cbn [mbind outcome_bind]; eauto]. lia.
Qed.

Lemma window_table_short data o :
  length data ≤ 257 → window_table E data o = Ret [].
Proof.
  intros Hlen. unfold window_table. rewrite window_loop_short; [done|].
  rewrite length_zip. lia.
Qed.

(** The fuel [window_table] gives the loop is enough: with any more
    the table is the same. *)
Lemma window_table_fuel data o extra :
  let ts := zip data (butter_lowpass_filter E (map (col o) data) 100 5 4) in
  window_loop E (length ts) o ts 257 = window_loop E (length ts + extra) o ts 257.
Proof. intros ts. apply window_loop_fuel; lia. Qed.

Lemma subset_data_non_zero_runs_nil n : subset_data_non_zero_runs [] n = Ret [].
Proof. reflexivity. Qed.

End Windows.

(** ** Walking bouts *)

Lemma imap_cons_pair {A} (k : nat) (a : A) (l : list A) :
  imap (λ i, pair (k + i)) (a :: l) = (k, a) :: imap (λ i, pair (S k + i)) l.
Proof.
  cbn [imap]. rewrite Nat.add_0_r. f_equal. apply imap_ext. intros i x _. simpl. f_equal. lia.
Qed.

Lemma map_snd_imap_pair {A} (l : list A) : ∀ k, map snd (imap (λ i, pair (k + i)) l) = l.
Proof.
  induction l as [|a l IH]; intros k; [done|].
  rewrite imap_cons_pair. cbn [map snd]. by rewrite IH.
Qed.

Lemma consecutive_runs_nonempty l : Forall (λ g, g ≠ []) (consecutive_runs l).
Proof.
  induction l as [|a l IH]; cbn [consecutive_runs]; [constructor|].
  destruct (consecutive_runs l) as [|[|b g] gs]; [repeat constructor; done..|].
  inversion_clear IH as [|? ? _ Hgs].
  destruct (b =? S a); repeat constructor; done.
Qed.

Lemma concat_consecutive_runs l : concat (consecutive_runs l) = l.
Proof.
  induction l as [|a l IH]; cbn [consecutive_runs]; [done|].
  pose proof (consecutive_runs_nonempty l) as Hne.
  destruct (consecutive_runs l) as [|[|b g] gs].
  - simpl in *. by subst.
  - by inversion Hne.
  - destruct (b =? S a); simpl in *; by rewrite IH.
Qed.

Lemma groupby_enumerate l : ∀ k,
  groupby (λ x : nat * nat, (Z.of_nat x.1 - Z.of_nat x.2)%Z) (imap (λ i, pair (k + i)) l)
  = annotate k (consecutive_runs l).
Proof.
  induction l as [|a l IH]; intros k; [done|].
  rewrite imap_cons_pair. cbn [groupby consecutive_runs]. rewrite IH.
  pose proof (consecutive_runs_nonempty l) as Hne.
  destruct (consecutive_runs l) as [|[|b g] gs].
  - simpl. by rewrite Nat.add_0_r.
  - by inversion Hne.
  - cbn [annotate hd fst snd].
    destruct (b =? S a) eqn:Hb.
    + apply Nat.eqb_eq in Hb as ->.
      replace (Z.of_nat k - Z.of_nat a =? Z.of_nat (S k) - Z.of_nat (S a))%Z with true
        by (symmetry; apply Z.eqb_eq; lia).
      cbn [annotate hd]. rewrite (imap_cons_pair k a). cbn [length].
      f_equal; [f_equal; lia | f_equal; lia].
    + apply Nat.eqb_neq in Hb.
      replace (Z.of_nat k - Z.of_nat a =? Z.of_nat (S k) - Z.of_nat b)%Z with false
        by (symmetry; apply Z.eqb_neq; lia).
      cbn [annotate hd length imap]. by rewrite Nat.add_1_r, !Nat.add_0_r.
Qed.

Lemma map_snd_annotate gs : ∀ k, map (λ kg, map snd kg.2) (annotate k gs) = gs.
Proof.
  induction gs as [|g gs IH]; intros k; [done|].
  cbn [annotate map snd]. by rewrite map_snd_imap_pair, IH.
Qed.

(** [separate_array_sequence] splits its argument into the runs of
    consecutive values. *)
Lemma separate_array_sequence_runs l :
  separate_array_sequence l = consecutive_runs l.
Proof.
  unfold separate_array_sequence.
  rewrite <- (map_snd_annotate (consecutive_runs l) 0), <- groupby_enumerate.
  do 2 f_equal.
Qed.

Lemma consecutive_runs_seq l :
  Forall (λ g, ∃ s n, g = seq s (S n)) (consecutive_runs l).
Proof.
  induction l as [|a l IH]; cbn [consecutive_runs]; [constructor|].
  destruct (consecutive_runs l) as [|[|b g] gs].
  - repeat constructor. by exists a, 0.
  - repeat constructor. by exists a, 0.
  - inversion_clear IH as [|? ? (s & n & Hg) Hgs].
    destruct (b =? S a) eqn:Hb.
    + apply Nat.eqb_eq in Hb as ->. constructor; [|done].
      injection Hg as <- ->. by exists a, (S n).
    + repeat constructor; [by exists a, 0 | by exists s, n | done].
Qed.

(** On a strictly increasing list a run stops where the next integer
    is missing, and starts where the previous one is. *)
Lemma consecutive_runs_maximal l :
  StronglySorted lt l →
  Forall (λ g, ∃ s n, g = seq s (S n) ∧ (s + S n ∉ l) ∧ ∀ j, S j = s → j ∉ l)
         (consecutive_runs l).
Proof.
  induction l as [|a l IH]; intros Hsorted; cbn [consecutive_runs]; [constructor|].
  apply StronglySorted_inv in Hsorted as [Hl Ha].
  specialize (IH Hl). pose proof (concat_consecutive_runs l) as Hcat.
  assert (Hlow : ∀ v, v ∈ a :: l → a ≤ v).
  { intros v [->|Hv]%elem_of_cons; [done|]. rewrite Forall_forall in Ha. apply Ha in Hv. lia. }
  destruct (consecutive_runs l) as [|[|b g] gs].
  - simpl in Hcat. subst l. repeat constructor. exists a, 0.
    split_and!; [done|intros H%list_elem_of_singleton; lia|intros j <- H%Hlow; lia].
  - by apply Forall_cons in IH as [(s & n & [=] & _) _].
  - cbn [concat] in Hcat. rewrite <- app_comm_cons in Hcat.
    assert (Hb : ∀ v, v ∈ l → b ≤ v).
    { rewrite <- Hcat in Hl |- *. apply StronglySorted_inv in Hl as [_ Hbl].
      intros v [->|Hv]%elem_of_cons; [done|]. rewrite Forall_forall in Hbl.
      apply Hbl in Hv. lia. }
    assert (Hab : a < b).
    { rewrite Forall_forall in Ha. apply Ha. rewrite <- Hcat. by left. }
    assert (Hbgs : Forall (λ g', ∀ v, v ∈ g' → b < v) gs).
    { rewrite <- Hcat in Hl. apply StronglySorted_inv in Hl as [_ Hbl].
      apply Forall_app in Hbl as [_ Hbl].
      rewrite Forall_forall in Hbl. apply Forall_forall. intros g' Hg' v Hv. apply Hbl.
      apply list_elem_of_In, in_concat. exists g'. by rewrite <- !list_elem_of_In. }
    apply Forall_cons in IH as [(s & n & Hg & Hend & Hpre) IH].
    assert (s = b) as -> by by injection Hg.
    assert (Hrest : Forall (λ g', ∃ s n, g' = seq s (S n) ∧ (s + S n ∉ a :: l)
                                  ∧ ∀ j, S j = s → j ∉ (a :: l)) gs).
    { rewrite Forall_forall in IH. rewrite Forall_forall in Hbgs.
      apply Forall_forall. intros g' Hg'.
      destruct (IH g' Hg') as (s' & n' & -> & Hend' & Hpre').
      assert (Hbs : b < s') by (apply (Hbgs _ Hg'); by left).
      exists s', n'. split_and!; [done|..].
      - intros [H|H]%elem_of_cons; [lia|done].
      - intros j Hj [H|H]%elem_of_cons; [lia|]. by apply (Hpre' j). }
    destruct (b =? S a) eqn:Heq.
    + apply Nat.eqb_eq in Heq as ->. constructor; [|done].
      exists a, (S n). split_and!.
      * cbn [seq]. f_equal. done.
      * intros [H|H]%elem_of_cons; [lia|]. apply Hend. by replace (S a + S n) with (a + S (S n)) by lia.
      * intros j <- H%Hlow. lia.
    + apply Nat.eqb_neq in Heq. constructor; [|constructor; [|done]].
      * exists a, 0. split_and!; [done|..].
        -- intros [H|H%Hb]%elem_of_cons; lia.
        -- intros j <- H%Hlow. lia.
      * exists b, n. split_and!; [done|..].
        -- intros [H|H]%elem_of_cons; [lia|done].
        -- intros j Hj [H|H]%elem_of_cons; [lia|]. by apply (Hpre j).
Qed.

Lemma where_from_spec mask : ∀ k i,
  i ∈ Np.where_from k mask ↔ k ≤ i ∧ mask !! (i - k) = Some true.
Proof.
  induction mask as [|b mask IH]; intros k i; cbn [Np.where_from].
  - split; [by intros ?%elem_of_nil | by intros [_ ?]].
  - assert (Hstep : S k ≤ i ∧ mask !! (i - S k) = Some true
                    ↔ k < i ∧ (b :: mask) !! (i - k) = Some true).
    { split; intros [Hk Hi]; (split; [lia|]).
      - by replace (i - k) with (S (i - S k)) by lia.
      - by replace (i - k) with (S (i - S k)) in Hi by lia. }
    destruct b.
    + rewrite elem_of_cons, IH, Hstep. split.
      * intros [-> | [? ?]]; [|split; [lia|done]]. by rewrite Nat.sub_diag.
      * intros [Hk Hi]. destruct (decide (i = k)) as [->|]; [by left|right]. split; [lia|done].
    + rewrite IH, Hstep. split.
      * intros [? ?]. split; [lia|done].
      * intros [Hk Hi]. destruct (decide (i = k)) as [->|]; [|split; [lia|done]].
        by rewrite Nat.sub_diag in Hi.
Qed.

Lemma where_spec mask i : i ∈ Np.where_ mask ↔ mask !! i = Some true.
Proof.
  unfold Np.where_. rewrite where_from_spec, Nat.sub_0_r. split; [by intros [_ ?]|]. split; [lia|done].
Qed.

Lemma where_from_sorted mask : ∀ k, StronglySorted lt (Np.where_from k mask).
Proof.
  induction mask as [|b mask IH]; intros k; cbn [Np.where_from]; [constructor|].
  destruct b; [|apply IH]. constructor; [apply IH|].
  apply Forall_forall. intros i [Hi _]%where_from_spec. lia.
Qed.

Lemma StronglySorted_lt_NoDup (l : list nat) : StronglySorted lt l → NoDup l.
Proof.
  induction 1 as [|a l _ IH Ha]; constructor; [|done].
  intros Hin. rewrite Forall_forall in Ha. apply Ha in Hin. lia.
Qed.

Lemma NoDup_concat_unique {A} (gs : list (list A)) : NoDup (concat gs) →
  ∀ k k' g g' x, gs !! k = Some g → gs !! k' = Some g' → x ∈ g → x ∈ g' → k = k'.
Proof.
  induction gs as [|g0 gs IH]; intros Hnd k k' g g' x Hk Hk' Hx Hx'; [done|].
  cbn [concat] in Hnd. apply NoDup_app in Hnd as (_ & Hdisj & Hnd).
  assert (Hin : ∀ k g, gs !! k = Some g → x ∈ g → x ∈ concat gs).
  { intros k0 g1 Hg1 Hx1. apply list_elem_of_In, in_concat. exists g1.
    rewrite <- !list_elem_of_In. split; [|done]. by eapply list_elem_of_lookup_2. }
  destruct k as [|k], k' as [|k']; simplify_eq/=; [done|..].
  - exfalso. eapply Hdisj; eauto.
  - exfalso. eapply Hdisj; eauto.
  - f_equal. eauto.
Qed.

(** ** The merged timeline *)

Lemma bfill_head c :
  match bfill c with n :: _ => n | [] => None end = first_known c.
Proof.
  induction c as [|[v|] c IH]; cbn [bfill first_known]; done.
Qed.

Lemma length_bfill c : length (bfill c) = length c.
Proof. induction c as [|[v|] c IH]; cbn [bfill length]; by f_equal. Qed.

Lemma bfill_lookup c : ∀ i, i < length c → bfill c !! i = Some (first_known (drop i c)).
Proof.
  induction c as [|v c IH]; intros i Hi; [simpl in Hi; lia|].
  destruct i as [|i].
  - cbn [drop]. rewrite <- bfill_head. by destruct v.
  - cbn [drop]. rewrite <- IH by (simpl in Hi; lia). by destruct v.
Qed.

Lemma first_known_Some c v :
  first_known c = Some v →
  ∃ j, c !! j = Some (Some v) ∧ ∀ j', j' < j → c !! j' = Some None.
Proof.
  induction c as [|[w|] c IH]; cbn [first_known]; [done|..].
  - intros [= ->]. exists 0. split; [done|]. lia.
  - intros (j & Hj & Hbefore)%IH. exists (S j). split; [done|].
    intros [|j'] Hlt; [done|]. apply Hbefore. lia.
Qed.

Lemma first_known_None c :
  first_known c = None → ∀ j, j < length c → c !! j = Some None.
Proof.
  induction c as [|[w|] c IH]; cbn [first_known]; [simpl; lia|done|].
  intros H [|j] Hj; [done|]. apply (IH H). simpl in Hj. lia.
Qed.

Lemma fillna_bfill_filled c i v :
  fillna 0 (bfill c) !! i = Some v → filled c i v.
Proof.
  unfold fillna. rewrite list_lookup_fmap.
  destruct (bfill c !! i) as [o|] eqn:Ho; [|done].
  assert (Hi : i < length c) by (rewrite <- length_bfill; by eapply lookup_lt_Some).
  rewrite bfill_lookup in Ho by done. injection Ho as <-.
  destruct (first_known (drop i c)) as [w|] eqn:Hw; cbn; intros [= <-].
  - left. apply first_known_Some in Hw as (j & Hj & Hbefore).
    rewrite lookup_drop in Hj. exists (i + j). split_and!; [lia|done|].
    intros j' Hj'. specialize (Hbefore (j' - i)). rewrite lookup_drop in Hbefore.
    replace (i + (j' - i)) with j' in Hbefore by lia. apply Hbefore. lia.
  - right. split; [done|]. intros j Hij Hj.
    pose proof (first_known_None _ Hw (j - i)) as H. rewrite lookup_drop, length_drop in H.
    replace (i + (j - i)) with j in H by lia. apply H. lia.
Qed.

Lemma merge_left_rows accel_data rotation_data a m :
  (a, m) ∈ merge_left accel_data rotation_data →
  a ∈ accel_data
  ∧ match m with
    | Some e => e ∈ rotation_data ∧ (s_td a == ev_td e)%Q
    | None => ∀ e, e ∈ rotation_data → ¬ (s_td a == ev_td e)%Q
    end.
Proof.
  unfold merge_left. rewrite list_elem_of_In, in_flat_map.
  intros (a' & Ha' & Hin). apply list_elem_of_In in Ha'.
  destruct (filter _ rotation_data) as [|e0 ms] eqn:Hf.
  - destruct Hin as [[= <- <-]|[]]. split; [done|]. intros e He Heq.
    assert (Hin : e ∈ filter (λ e, Qeq_bool (s_td a') (ev_td e) = true) rotation_data).
    { apply list_elem_of_filter. split; [|done]. by apply Qeq_bool_iff. }
    rewrite Hf in Hin. by apply elem_of_nil in Hin.
  - apply in_map_iff in Hin as (e & [= <- <-] & He).
    rewrite <- Hf in He. apply list_elem_of_In, list_elem_of_filter in He as [Heq He].
    split; [done|]. split; [done|]. by apply Qeq_bool_iff.
Qed.

Lemma length_create_overlay_data accel_data rotation_data :
  length (create_overlay_data accel_data rotation_data)
  = length (merge_left accel_data rotation_data).
Proof.
  unfold create_overlay_data, fillna.
  rewrite length_zip_with, length_zip, !length_map, !length_bfill, !length_map. lia.
Qed.

(** ** Turn events *)

Lemma length_diff l : length (Np.diff l) = length l - 1.
Proof.
  induction l as [|a [|b l] IH]; [done..|].
  change (Np.diff (a :: b :: l)) with ((b - a)%Z :: Np.diff (b :: l)).
  cbn [length] in *. rewrite IH. lia.
Qed.

Lemma detect_zcr_bound ys : Forall (λ i, i + 1 < length ys) (detect_zcr ys).
Proof.
  apply Forall_forall. intros i Hi. unfold detect_zcr in Hi.
  apply where_spec, lookup_lt_Some in Hi.
  rewrite length_map, length_diff, length_map in Hi. lia.
Qed.

Lemma detect_zcr_sorted ys : StronglySorted lt (detect_zcr ys).
Proof. apply where_from_sorted. Qed.

Lemma non_decreasing_slice l a b : non_decreasing l → non_decreasing (slice a b l).
Proof.
  intros Hl i u v Hu Hv. unfold slice in *.
  apply lookup_take_Some in Hu as [Hu _]. apply lookup_take_Some in Hv as [Hv _].
  rewrite lookup_drop in Hu, Hv. replace (a + S i) with (S (a + i)) in Hv by lia.
  by eapply Hl.
Qed.

Lemma non_decreasing_tail a l : non_decreasing (a :: l) → non_decreasing l.
Proof. intros Hl i u v Hu Hv. by apply (Hl (S i) u v). Qed.

Lemma Qdiff_non_decreasing x :
  non_decreasing x → existsb (λ d, Qlt_bool d 0) (Np.Qdiff x) = false.
Proof.
  induction x as [|a [|b x] IH]; intros Hx; [done..|].
  change (Np.Qdiff (a :: b :: x)) with ((b - a)%Q :: Np.Qdiff (b :: x)).
  cbn [existsb]. rewrite IH by by eapply non_decreasing_tail.
  rewrite orb_false_r. unfold Qlt_bool. apply negb_false_iff, Qle_bool_iff.
  pose proof (Hx 0 a b eq_refl eq_refl). lra.
Qed.

Lemma metrics_auc_non_decreasing x y :
  non_decreasing x → length x = length y → 2 ≤ length x →
  metrics_auc x y = Ret (Np.trapz y x).
Proof.
  intros Hx Hlen H2. unfold metrics_auc.
  rewrite (proj2 (Nat.eqb_eq _ _) Hlen). cbn [negb].
  rewrite (proj2 (Nat.ltb_ge _ _) H2). by rewrite Qdiff_non_decreasing.
Qed.

Lemma last_slice {A} (l : list A) start i :
  start ≤ i → i < length l → last (slice start (i + 1) l) = l !! i.
Proof.
  intros Hs Hi. unfold slice. rewrite last_lookup, length_take, length_drop.
  replace (Init.Nat.pred ((i + 1 - start) `min` (length l - start))) with (i - start) by lia.
  rewrite lookup_take_lt by lia. rewrite lookup_drop. f_equal. lia.
Qed.

Lemma iloc_at (l : list Q) i : i < length l → iloc l i = Ret (at_ l i).
Proof.
  intros [a Ha]%lookup_lt_is_Some_2. unfold iloc, at_. by rewrite Ha.
Qed.

(** The loop of [calculate_rotation] on a sorted time index: an event
    per interval of two rows or more, and no exception. *)
Lemma rotation_loop_intervals td ys :
  non_decreasing td → length ys = length td →
  ∀ zcr_list start,
    Forall (λ i, i + 1 < length td) zcr_list →
    (zcr_list ≠ [] → start < length td) →
    rotation_loop td ys zcr_list start
    = Ret (omap (interval_event td ys) (intervals start zcr_list)).
Proof.
  intros Htd Hlen. induction zcr_list as [|i zcr IH]; intros start Hzcr Hstart; [done|].
  apply Forall_cons in Hzcr as [Hi Hzcr]. specialize (Hstart ltac:(done)).
  cbn [rotation_loop intervals omap list_omap interval_event].
  rewrite !iloc_at by lia. cbn [mbind outcome_bind].
  rewrite (IH (i + 1)) by (done || lia).
  assert (Hxy : length (slice start (i + 1) td) = length (slice start (i + 1) ys)).
  { rewrite !length_slice. lia. }
  destruct (2 <=? length (slice start (i + 1) ys)) eqn:H2; [|done].
  apply Nat.leb_le in H2.
  rewrite metrics_auc_non_decreasing by (try apply non_decreasing_slice; done || lia).
  cbn [mbind outcome_bind]. unfold iloc_last.
  rewrite length_slice in H2. rewrite last_slice by lia.
  unfold at_. destruct (td !! i) as [ti|] eqn:Hti; [done|].
  apply lookup_ge_None in Hti. lia.
Qed.

(** ** Cleaning *)

Lemma index_sorted_Sorted index : Sorted Qle index → index_sorted index = true.
Proof.
  unfold index_sorted. induction 1 as [|a l Hl IH Ha]; [done|].
  destruct Ha as [|b l Hab]; [done|].
  change (removelast (a :: b :: l)) with (a :: removelast (b :: l)).
  cbn [tail zip zip_with forallb fst snd]. cbn [tail] in IH. rewrite IH.
  by rewrite (proj2 (Qle_bool_iff a b) Hab).
Qed.

Lemma index_sorted_non_decreasing index :
  index_sorted index = true → non_decreasing index.
Proof.
  unfold index_sorted. induction index as [|a [|b l] IH]; intros Hs i u v Hu Hv; [done..|].
  change (removelast (a :: b :: l)) with (a :: removelast (b :: l)) in Hs.
  cbn [tail zip zip_with forallb fst snd] in Hs.
  apply andb_true_iff in Hs as [Hab Hs]. destruct i as [|i].
  - injection Hu as <-. injection Hv as <-. by apply Qle_bool_iff.
  - by apply (IH Hs i u v).
Qed.

Section Cleaning.
Context (E : externals).

Lemma merge_sort_index_sorted rows :
  index_sorted (map s_td (merge_sort td_le rows)) = true.
Proof.
  apply index_sorted_Sorted.
  apply (Sorted_fmap s_td td_le Qle); [done|]. apply (Sorted_merge_sort td_le).
Qed.

Lemma clean_accelerometer_data_sorts data rows0 :
  with_td E data = Ret rows0 →
  clean_accelerometer_data E data = Ret (merge_sort td_le rows0).
Proof.
  intros H. unfold clean_accelerometer_data. rewrite H. cbn [mbind outcome_bind].
  by rewrite merge_sort_index_sorted.
Qed.


End Cleaning.

(** ** The rotation entries *)

Lemma Qmin_cases a b : Qmin a b = a ∨ Qmin a b = b.
Proof. unfold Qmin, GenericMinMax.gmin. destruct (a ?= b)%Q; auto. Qed.

Lemma Qmax_cases a b : Qmax a b = a ∨ Qmax a b = b.
Proof. unfold Qmax, GenericMinMax.gmax. destruct (a ?= b)%Q; auto. Qed.

Lemma foldl_Qmin l : ∀ a,
  foldl Qmin a l ∈ a :: l ∧ ∀ v, v ∈ a :: l → (foldl Qmin a l <= v)%Q.
Proof.
  induction l as [|b l IH]; intros a; cbn [foldl].
  - split; [by left|]. intros v ->%list_elem_of_singleton. lra.
  - destruct (IH (Qmin a b)) as [Hin Hle]. split.
    + apply elem_of_cons in Hin as [Hin|Hin]; [|by do 2 right].
      rewrite Hin. destruct (Qmin_cases a b) as [-> | ->]; [by left | right; by left].
    + intros v [-> | [-> | Hv]%elem_of_cons]%elem_of_cons.
      * eapply Qle_trans; [apply Hle; by left|]. apply Q.le_min_l.
      * eapply Qle_trans; [apply Hle; by left|]. apply Q.le_min_r.
      * apply Hle. by right.
Qed.

Lemma foldl_Qmax l : ∀ a,
  foldl Qmax a l ∈ a :: l ∧ ∀ v, v ∈ a :: l → (v <= foldl Qmax a l)%Q.
Proof.
  induction l as [|b l IH]; intros a; cbn [foldl].
  - split; [by left|]. intros v ->%list_elem_of_singleton. lra.
  - destruct (IH (Qmax a b)) as [Hin Hle]. split.
    + apply elem_of_cons in Hin as [Hin|Hin]; [|by do 2 right].
      rewrite Hin. destruct (Qmax_cases a b) as [-> | ->]; [by left | right; by left].
    + intros v [-> | [-> | Hv]%elem_of_cons]%elem_of_cons.
      * eapply Qle_trans; [|apply Hle; by left]. apply Q.le_max_l.
      * eapply Qle_trans; [|apply Hle; by left]. apply Q.le_max_r.
      * apply Hle. by right.
Qed.

(** [Qminimum] and [Qmaximum] are the least and the greatest member. *)
Lemma Qminimum_spec l :
  l ≠ [] → Qminimum l ∈ l ∧ ∀ v, v ∈ l → (Qminimum l <= v)%Q.
Proof. destruct l as [|a l]; [done|]. intros _. apply foldl_Qmin. Qed.

Lemma Qmaximum_spec l :
  l ≠ [] → Qmaximum l ∈ l ∧ ∀ v, v ∈ l → (v <= Qmaximum l)%Q.
Proof. destruct l as [|a l]; [done|]. intros _. apply foldl_Qmax. Qed.

Lemma Qlt_bool_iff a b : Qlt_bool a b = true ↔ (a < b)%Q.
Proof.
  unfold Qlt_bool. rewrite negb_true_iff. split.
  - intros H. apply Qnot_le_lt. intros Hle%Qle_bool_iff. congruence.
  - intros H. destruct (Qle_bool b a) eqn:Hle; [|done].
    apply Qle_bool_iff in Hle. lra.
Qed.

(** ** The bouts of the merged timeline *)

Lemma walking_mask data i :
  map (λ r, Qlt_bool (ov_aucXt r) 2) data !! i = Some true ↔ walking data i.
Proof.
  unfold walking. rewrite list_lookup_fmap. destruct (data !! i) as [r|]; simpl.
  - split.
    + intros [= H%Qlt_bool_iff]. eauto.
    + intros (r' & [= <-] & H). f_equal. by apply Qlt_bool_iff.
  - split; [done|]. by intros (? & ? & _).
Qed.

Lemma walking_or_turning data i :
  i < length data → (walking data i ∧ ¬ turning data i) ∨ (turning data i ∧ ¬ walking data i).
Proof.
  intros [r Hr]%lookup_lt_is_Some_2. unfold walking, turning.
  destruct (Qlt_le_dec (ov_aucXt r) 2) as [H|H]; [left|right];
    (split; [eauto|]); intros (r' & Hr' & H'); simplify_eq; lra.
Qed.

Lemma walking_seqs_runs data :
  walking_seqs data
  = consecutive_runs (Np.where_ (map (λ r, Qlt_bool (ov_aucXt r) 2) data)).
Proof. apply separate_array_sequence_runs. Qed.

Lemma elem_of_walking_seqs data i :
  (∃ g, g ∈ walking_seqs data ∧ i ∈ g) ↔ walking data i.
Proof.
  rewrite walking_seqs_runs. split.
  - intros (g & Hg & Hi). apply walking_mask, where_spec.
    rewrite <- (concat_consecutive_runs (Np.where_ _)).
    apply list_elem_of_In, in_concat. exists g. by rewrite <- !list_elem_of_In.
  - intros H%walking_mask%where_spec. rewrite <- concat_consecutive_runs in H.
    apply list_elem_of_In, in_concat in H as (g & Hg & Hi).
    exists g. by rewrite !list_elem_of_In.
Qed.

Lemma walking_seqs_maximal data g :
  g ∈ walking_seqs data →
  ∃ s n, g = seq s (S n) ∧ (∀ i, i ∈ g → walking data i)
    ∧ ¬ walking data (s + S n) ∧ ∀ j, S j = s → ¬ walking data j.
Proof.
  intros Hg. pose proof Hg as Hg'. rewrite walking_seqs_runs in Hg'.
  pose proof (consecutive_runs_maximal _ (where_from_sorted
    (map (λ r, Qlt_bool (ov_aucXt r) 2) data) 0)) as Hmax.
  rewrite Forall_forall in Hmax. destruct (Hmax g Hg') as (s & n & -> & Hend & Hpre).
  exists s, n. split_and!; [done|..].
  - intros i Hi. apply elem_of_walking_seqs. eauto.
  - by rewrite <- walking_mask, <- where_spec.
  - intros j Hj. rewrite <- walking_mask, <- where_spec. by apply Hpre.
Qed.

Lemma walking_seqs_none data :
  (∀ i, ¬ walking data i) → walking_seqs data = [].
Proof.
  intros Hnone. pose proof (consecutive_runs_nonempty
    (Np.where_ (map (λ r, Qlt_bool (ov_aucXt r) 2) data))) as Hne.
  rewrite <- walking_seqs_runs in Hne.
  destruct (walking_seqs data) as [|g gs] eqn:Hg; [done|].
  apply Forall_cons in Hne as [Hne _]. destruct g as [|i g]; [done|].
  exfalso. apply (Hnone i), elem_of_walking_seqs. exists (i :: g).
  rewrite Hg. split; by left.
Qed.

Lemma walking_seqs_unique data k k' g g' i :
  walking_seqs data !! k = Some g → walking_seqs data !! k' = Some g' →
  i ∈ g → i ∈ g' → k = k'.
Proof.
  apply NoDup_concat_unique. rewrite walking_seqs_runs, concat_consecutive_runs.
  apply StronglySorted_lt_NoDup, where_from_sorted.
Qed.

(** ** The pipeline *)

Lemma mapM_total {A B} (f : A → outcome B) l :
  Forall (λ a, ∃ b, f a = Ret b) l → ∃ bs, mapM f l = Ret bs.
Proof.
  induction 1 as [|a l [b Hb] _ [bs Hbs]]; [by exists []|].
  exists (b :: bs). cbn [mapM]. rewrite Hb. cbn [mbind outcome_bind].
  change (mapM f l ≫= (λ k, mret (b :: k)) = Ret (b :: bs)). by rewrite Hbs.
Qed.

Section Pipeline.
Context (E : externals).

Lemma calculate_rotation_intervals data o :
  non_decreasing (map s_td data) →
  let ys := butter_lowpass_filter E (map (col o) data) 100 2 2 in
  calculate_rotation E data o
  = Ret (omap (interval_event (map s_td data) ys) (intervals 0 (detect_zcr ys))).
Proof.
  intros Htd ys. unfold calculate_rotation. fold ys.
  assert (Hlen : length ys = length (map s_td data)).
  { unfold ys, butter_lowpass_filter. by rewrite lfilter_length, !length_map. }
  apply rotation_loop_intervals; [done..| |].
  - rewrite <- Hlen. apply detect_zcr_bound.
  - intros Hne. pose proof (detect_zcr_bound ys) as Hb. rewrite Hlen in Hb.
    destruct (detect_zcr ys) as [|i l]; [done|]. apply Forall_cons in Hb as [Hb _]. lia.
Qed.

Lemma calculate_number_of_steps_per_window_total data o :
  ∃ q, calculate_number_of_steps_per_window E data o = Ret q.
Proof.
  unfold calculate_number_of_steps_per_window.
  destruct (window_table_total E data o) as [table ->]. cbn [mbind outcome_bind].
  destruct (subset_data_non_zero_runs_select table 5) as (keep & -> & _).
  cbn [mbind outcome_bind]. destruct (_ =? 0); eauto.
Qed.

Lemma bout_rates_total data o g :
  g ∈ walking_seqs data → ∃ r, bout_rates E data o g = Ret r.
Proof.
  intros (s & n & -> & Hin & _)%walking_seqs_maximal.
  assert (Hs : s < length data).
  { destruct (Hin s) as (r & Hr & _); [by left|]. by eapply lookup_lt_Some. }
  unfold bout_rates.
  assert (iloc (seq s (S n)) 0 = Ret s) as -> by done.
  assert (iloc_last (seq s (S n)) = Ret (s + n)) as ->.
  { unfold iloc_last. rewrite last_lookup, length_seq. cbn [Init.Nat.pred].
    rewrite lookup_seq_lt by lia. done. }
  cbn [mbind outcome_bind].
  destruct (calculate_number_of_steps_per_window_total
              (map ov_sample (slice s (s + n + 1) data)) o) as [q ->].
  cbn [mbind outcome_bind].
  assert (Hlen : 0 < length (map s_td (map ov_sample (slice s (s + n + 1) data)))).
  { rewrite !length_map, length_slice. lia. }
  destruct (iloc_last_Ret _ Hlen) as [t1 ->], (iloc_Ret _ 0 Hlen) as [t0 ->].
  cbn [mbind outcome_bind]. eauto.
Qed.

Lemma pipeline_frame_rotation rows o r :
  pipeline_frame E rows o = Ret r →
  ∃ evs f,
    calculate_rotation E (filter (λ r, sensorType r = "rotationRate") rows) o = Ret evs
    ∧ r = RetDict f
    ∧ (rotation_no_of_turns f, rotation_mean_duration f,
       rotation_min_duration f, rotation_max_duration f)
      = rotation_features (filter (λ e, Qlt_bool 2 (ev_aucXt e) = true) evs).
Proof.
  unfold pipeline_frame.
  destruct (calculate_rotation E _ o) as [evs|e]; cbn [mbind outcome_bind]; [|done].
  destruct (mapM _ _) as [rates|e]; cbn [mbind outcome_bind]; [|done].
  destruct (rotation_features _) as [[[n m] mi] ma] eqn:Hf.
  intros [= <-]. eexists evs, _. split_and!; done.
Qed.

Lemma pipeline_frame_total rows o :
  non_decreasing (map s_td (filter (λ r, sensorType r = "rotationRate") rows)) →
  ∃ f, pipeline_frame E rows o = Ret (RetDict f).
Proof.
  intros Htd. unfold pipeline_frame.
  rewrite calculate_rotation_intervals by done. cbn [mbind outcome_bind].
  match goal with
  | |- context [mapM (bout_rates E ?d o) ?l] =>
      destruct (mapM_total (bout_rates E d o) l) as [rates ->]
  end.
  { apply Forall_forall. intros g Hg. by apply bout_rates_total. }
  cbn [mbind outcome_bind]. destruct (rotation_features _) as [[[n m] mi] ma]. eauto.
Qed.

End Pipeline.

Lemma select_sublist {A} (keep : nat → bool) (l : list A) : select keep l `sublist_of` l.
Proof.
  unfold select. rewrite <- (map_snd_imap_pair l 0) at 2.
  apply (fmap_sublist snd), sublist_filter.
Qed.

Lemma filled_unique c i v v' : filled c i v → filled c i v' → v = v'.
Proof.
  intros [(j & Hij & Hj & Hb) | [-> Hn]] [(j' & Hij' & Hj' & Hb') | [-> Hn']]; [| | |done].
  - destruct (Nat.lt_trichotomy j j') as [Hlt | [-> | Hlt]].
    + rewrite Hb' in Hj by lia. done.
    + congruence.
    + rewrite Hb in Hj' by lia. done.
  - rewrite Hn' in Hj; [done|done|]. by eapply lookup_lt_Some.
  - rewrite Hn in Hj'; [done|done|]. by eapply lookup_lt_Some.
Qed.

(** ** The rows the cleaning returns *)

Lemma StronglySorted_filter {A} (R : relation A) (P : A → Prop)
    `{!∀ x, Decision (P x)} l :
  StronglySorted R l → StronglySorted R (filter P l).
Proof.
  induction 1 as [|a l Hl IH Ha]; [constructor|].
  destruct (decide (P a)).
  - rewrite filter_cons_True by done. constructor; [done|].
    apply Forall_forall. intros x [_ Hx]%list_elem_of_filter.
    rewrite Forall_forall in Ha. by apply Ha.
  - by rewrite filter_cons_False.
Qed.

Lemma StronglySorted_non_decreasing rows :
  StronglySorted td_le rows → non_decreasing (map s_td rows).
Proof.
  induction 1 as [|a l Hl IH Ha]; intros i u v Hu Hv; [done|].
  destruct i as [|i].
  - cbn in Hu. injection Hu as <-. destruct l as [|b l]; [done|].
    cbn in Hv. injection Hv as <-. apply Forall_cons in Ha as [Hab _]. done.
  - by apply (IH i u v).
Qed.

Lemma complete_omap (data : list raw_sample) :
  Forall2 (λ r t, t.1.1.1 = r ∧ r_x r = Some t.1.1.2 ∧ r_y r = Some t.1.2 ∧ r_z r = Some t.2)
    (filter (λ r, complete r = true) data)
    (omap (λ r, match r_x r, r_y r, r_z r with
                | Some x, Some y, Some z => Some (r, x, y, z)
                | _, _, _ => None
                end) data).
Proof.
  induction data as [|r data IH]; [constructor|].
  cbn [omap list_omap]. unfold complete at 1.
  destruct (r_x r) as [x|] eqn:Hx, (r_y r) as [y|] eqn:Hy, (r_z r) as [z|] eqn:Hz;
    try (rewrite filter_cons_False by (unfold complete; rewrite Hx, ?Hy, ?Hz; done); exact IH).
  rewrite filter_cons_True by (unfold complete; by rewrite Hx, Hy, Hz).
  constructor; [done|exact IH].
Qed.

Lemma forallb_fmap {A B} (f : B → bool) (g : A → B) l :
  forallb f (map g l) = forallb (λ x, f (g x)) l.
Proof. induction l as [|a l IH]; [done|]. cbn. by rewrite IH. Qed.

Lemma forallb_Forall {A} (f : A → bool) l :
  forallb f l = true ↔ Forall (λ x, f x = true) l.
Proof.
  induction l as [|a l IH]; cbn; [by split|].
  rewrite andb_true_iff, Forall_cons, IH. done.
Qed.

Lemma filter_nil_Forall (data : list raw_sample) :
  filter (λ r, complete r = true) data = [] ↔ Forall (λ r, complete r = false) data.
Proof.
  split.
  - intros Hnil. apply Forall_forall. intros r Hr.
    destruct (complete r) eqn:Hc; [|done].
    assert (Hin : r ∈ filter (λ r, complete r = true) data)
      by by apply list_elem_of_filter.
    rewrite Hnil in Hin. by apply elem_of_nil in Hin.
  - intros Hall. destruct (filter (λ r, complete r = true) data) as [|r l] eqn:Hfl; [done|].
    assert (Hin : r ∈ filter (λ r, complete r = true) data) by (rewrite Hfl; by left).
    apply list_elem_of_filter in Hin as [Hc Hr].
    rewrite Forall_forall in Hall. apply Hall in Hr. congruence.
Qed.

Section CleaningRows.
Context (E : externals).

Lemma with_td_map (c : Q) rs ts :
  Forall2 (λ r (t : raw_sample * Q * Q * Q),
             t.1.1.1 = r ∧ r_x r = Some t.1.1.2 ∧ r_y r = Some t.1.2 ∧ r_z r = Some t.2)
          rs ts →
  Forall2 (λ r row,
      sensorType row = r_sensorType r
      ∧ s_td row = (r_timestamp r - c)%Q
      ∧ r_x r = Some (s_x row) ∧ r_y r = Some (s_y row) ∧ r_z r = Some (s_z row)
      ∧ s_AA row = np_sqrt E (s_x row * s_x row + s_y row * s_y row
                              + s_z row * s_z row)%Q)
    rs
    (map (λ r, let '(r, x, y, z) := r in
               {| sensorType := r_sensorType r;
                  s_td := (r_timestamp r - c)%Q;
                  s_x := x; s_y := y; s_z := z;
                  s_AA := np_sqrt E (x * x + y * y + z * z)%Q |}) ts).
Proof.
  induction 1 as [|r [[[r' x] y] z] rs' ts' (Hr & Hx & Hy & Hz) _ IH]; [constructor|].
  cbn in Hr, Hx, Hy, Hz. subst r'. cbn [map]. constructor; [|exact IH]. cbn. done.
Qed.

(** The timestamps [pd.to_datetime] is given are those of the rows
    with three axes. *)
Lemma date_series_complete (data : list raw_sample) :
  map (λ r : raw_sample * Q * Q * Q, r_timestamp r.1.1.1)
      (omap (λ r, match r_x r, r_y r, r_z r with
                  | Some x, Some y, Some z => Some (r, x, y, z)
                  | _, _, _ => None
                  end) data)
  = map r_timestamp (filter (λ r, complete r = true) data).
Proof.
  pose proof (complete_omap data) as Hom.
  induction Hom as [|r t rs ts (Hr & _) _ IH]; [done|]. cbn [map]. by rewrite Hr, IH.
Qed.

(** What the first statements of the cleaning do, case by case. *)
Lemma with_td_rows (data : list raw_sample) :
  match filter (λ r, complete r = true) data with
  | [] => with_td E data = Raise IndexError
  | r0 :: rest =>
      let kept := r0 :: rest in
      if negb (forallb (λ r, in_ns_range (r_timestamp r)) kept)
      then with_td E data = Raise OutOfBoundsDatetime
      else if negb (forallb (λ r, in_ns_range (r_timestamp r - r_timestamp r0)) kept)
      then with_td E data = Raise OverflowError
      else
        ∃ rows, with_td E data = Ret rows
          ∧ Forall2 (λ r row,
              sensorType row = r_sensorType r
              ∧ s_td row = (r_timestamp r - r_timestamp r0)%Q
              ∧ r_x r = Some (s_x row) ∧ r_y r = Some (s_y row) ∧ r_z r = Some (s_z row)
              ∧ s_AA row = np_sqrt E (s_x row * s_x row + s_y row * s_y row
                                      + s_z row * s_z row)%Q)
            kept rows
  end.
Proof.
  pose proof (complete_omap data) as Hom. unfold with_td.
  rewrite date_series_complete.
  destruct (filter (λ r, complete r = true) data) as [|r0 rs]; [done|]. cbv zeta.
  rewrite !forallb_fmap.
  destruct (negb (forallb (λ r, in_ns_range (r_timestamp r)) (r0 :: rs))); [done|].
  cbn [map iloc lookup list_lookup mbind outcome_bind].
  change (r_timestamp r0 :: map r_timestamp rs) with (map r_timestamp (r0 :: rs)).
  rewrite forallb_fmap.
  destruct (negb (forallb (λ r, in_ns_range (r_timestamp r - r_timestamp r0)) (r0 :: rs)));
    [done|].
  eexists. split; [reflexivity|]. by apply with_td_map.
Qed.

(** The cleaning returns from the tables that are [cleanable], and
    from no other. *)
Lemma clean_rows_spec (data : list raw_sample) :
  let kept := filter (λ r, complete r = true) data in
  (Forall (λ r, complete r = false) data →
     clean_accelerometer_data E data = Raise IndexError)
  ∧ (cleanable data = false →
     ∃ e, clean_accelerometer_data E data = Raise e
       ∧ (e = IndexError ∨ e = OutOfBoundsDatetime ∨ e = OverflowError))
  ∧ (cleanable data = true →
     ∃ rows0, with_td E data = Ret rows0
       ∧ clean_accelerometer_data E data = Ret (merge_sort td_le rows0)
       ∧ length rows0 = length kept
       ∧ (∃ row, row ∈ rows0 ∧ (s_td row == 0)%Q)
       ∧ Forall (λ row,
           in_ns_range (s_td row) = true
           ∧ s_AA row = np_sqrt E (s_x row * s_x row + s_y row * s_y row
                                   + s_z row * s_z row)%Q
           ∧ ∃ r, r ∈ data ∧ sensorType row = r_sensorType r
                ∧ r_x r = Some (s_x row) ∧ r_y r = Some (s_y row)
                ∧ r_z r = Some (s_z row)) rows0).
Proof.
  intros kept. pose proof (with_td_rows data) as Hwith. cbv zeta in Hwith.
  unfold cleanable. fold kept in Hwith |- *.
  assert (Hkept : ∀ r, r ∈ kept → r ∈ data).
  { intros r Hr. by apply list_elem_of_filter in Hr as [_ ?]. }
  split_and!.
  - intros Hall%filter_nil_Forall. fold kept in Hall. rewrite Hall in Hwith.
    unfold clean_accelerometer_data. by rewrite Hwith.
  - intros Hc. unfold clean_accelerometer_data. destruct kept as [|r0 rs].
    { rewrite Hwith. eauto. }
    destruct (forallb (λ r, in_ns_range (r_timestamp r)) (r0 :: rs)); cbn [negb] in Hwith.
    + rewrite andb_true_l in Hc. rewrite Hc in Hwith. cbn [negb] in Hwith.
      rewrite Hwith. eauto.
    + rewrite Hwith. eauto.
  - intros Hc. destruct kept as [|r0 rs]; [done|].
    apply andb_true_iff in Hc as [Hc1 Hc2]. rewrite Hc1, Hc2 in Hwith. cbn [negb] in Hwith.
    destruct Hwith as (rows0 & Hrows0 & Hall). exists rows0.
    split_and!; [done| by apply clean_accelerometer_data_sorts | | |].
    + symmetry. by eapply Forall2_length.
    + inversion Hall as [|? row0 ? ? (_ & Htd & _) _]; subst.
      exists row0. split; [by left|]. rewrite Htd. ring.
    + apply Forall_forall. intros row [i Hi]%list_elem_of_lookup_1.
      destruct (Forall2_lookup_r _ _ _ _ _ Hall Hi)
        as (r & Hr & Hs & Htd & Hx & Hy & Hz & HAA).
      apply list_elem_of_lookup_2 in Hr.
      split_and!; [|done|].
      * rewrite Htd. apply forallb_Forall in Hc2. rewrite Forall_forall in Hc2.
        by apply Hc2.
      * exists r. split_and!; [by apply Hkept|done..].
Qed.

End CleaningRows.

(** * The claims *)




(** C2 (as amended).  On a filtered rotation series whose [td] never
    goes down, the loop of [calculate_rotation] raises nothing and
    emits, in order, one event per interval of the segmentation that
    has two rows or more, and none for a shorter interval.  For the
    interval from row [start] to the crossing [i] the marker is the
    [td] of row [i], the area is the absolute value of the trapezoidal
    integral over the rows [start..i], the duration is the [td] of
    row [i + 1] (the first row after the interval) minus the [td] of
    row [start], and [aucXt] is the area times that duration. *)
Theorem turn_events (td ys : list Q) :
  non_decreasing td → length ys = length td →
  rotation_loop td ys (detect_zcr ys) 0
  = Ret (omap (interval_event td ys) (intervals 0 (detect_zcr ys))).
Proof.
  intros Htd Hlen. apply rotation_loop_intervals; [done..| |].
  - rewrite <- Hlen. apply detect_zcr_bound.
  - intros Hne. pose proof (detect_zcr_bound ys) as Hb. rewrite Hlen in Hb.
    destruct (detect_zcr ys) as [|i l]; [done|]. apply Forall_cons in Hb as [Hb _]. lia.
Qed.

Lemma turn_events_witness :
  rotation_loop turn_td turn_ys (detect_zcr turn_ys) 0
  = Ret (omap (interval_event turn_td turn_ys) (intervals 0 (detect_zcr turn_ys))).
Proof.
  apply turn_events.
  - apply index_sorted_non_decreasing. vm_compute. reflexivity.
  - reflexivity.
Defined.

(** C2, counterexample.  On the series [turn_td], [turn_ys] the one
    interval is rows 0 to 1, whose [td] span is 1; the event emitted
    for it has the duration 2. *)
Lemma turn_duration_is_not_the_span :
  ∃ ev,
    intervals 0 (detect_zcr turn_ys) = [(0, 1)]
    ∧ rotation_loop turn_td turn_ys (detect_zcr turn_ys) 0 = Ret [ev]
    ∧ (subseries_span turn_td (0%nat, 1%nat) == 1)%Q
    ∧ (ev_turn_duration ev == 2)%Q
    ∧ ¬ (ev_turn_duration ev == subseries_span turn_td (0%nat, 1%nat))%Q.
Proof.
  eexists. split_and!; [reflexivity | vm_compute; reflexivity | done | done |].
  vm_compute. discriminate.
Qed.

(** C3 (as amended).  The merged timeline has one row for each row of
    the left join of the accelerometer rows with the turn events on
    [td], in the same order; a joined row carries an event of its own
    [td], or none when no event has that [td].  In row [i] of the
    timeline [aucXt] and [turn_duration] are the known values of the
    nearest joined row from [i] on, and zero when no joined row from
    [i] on has a known value: every row has a value.  So a missing
    value above a known one is never set to zero, it takes the values
    of an event; the values set to zero are those of the rows after
    the last known value. *)
Theorem overlay_fill (accel_data : list sample) (rotation_data : list turn_event) :
  let test := merge_left accel_data rotation_data in
  let data := create_overlay_data accel_data rotation_data in
  length data = length test
  ∧ (∀ i a m, test !! i = Some (a, m) →
       ∃ row, data !! i = Some row
         ∧ ov_sample row = a ∧ a ∈ accel_data
         ∧ match m with
           | Some e => e ∈ rotation_data ∧ (s_td a == ev_td e)%Q
           | None => ∀ e, e ∈ rotation_data → ¬ (s_td a == ev_td e)%Q
           end
         ∧ filled (map (λ r, ev_aucXt <$> r.2) test) i (ov_aucXt row)
         ∧ filled (map (λ r, ev_turn_duration <$> r.2) test) i (ov_turn_duration row))
  ∧ (∀ i j a e row, i ≤ j → test !! j = Some (a, Some e) → data !! i = Some row →
       ∃ k a' e', i ≤ k ≤ j ∧ test !! k = Some (a', Some e')
         ∧ ov_aucXt row = ev_aucXt e' ∧ ov_turn_duration row = ev_turn_duration e').
Proof.
  intros test data.
  assert (Hrows : ∀ i row, data !! i = Some row →
            ∃ a m, test !! i = Some (a, m) ∧ ov_sample row = a
              ∧ filled (map (λ r, ev_aucXt <$> r.2) test) i (ov_aucXt row)
              ∧ filled (map (λ r, ev_turn_duration <$> r.2) test) i (ov_turn_duration row)).
  { intros i row Hrow. unfold data, create_overlay_data in Hrow. fold test in Hrow.
    apply lookup_zip_with_Some in Hrow as ([a m] & [v d] & -> & Htest & Hvd).
    apply lookup_zip_with_Some in Hvd as (v' & d' & [= <- <-] & Hv & Hd).
    exists a, m. cbn [ov_sample ov_aucXt ov_turn_duration fst snd].
    split_and!; [done..| |]; by apply fillna_bfill_filled. }
  assert (Hlen : length data = length test) by apply length_create_overlay_data.
  split_and!; [done| |].
  - intros i a m Htest.
    destruct (lookup_lt_is_Some_2 data i) as [row Hrow].
    { rewrite Hlen. by eapply lookup_lt_Some. }
    destruct (Hrows i row Hrow) as (a' & m' & Htest' & Ha & HX & HD).
    rewrite Htest in Htest'. injection Htest' as <- <-.
    destruct (merge_left_rows accel_data rotation_data a m) as [Hin Hm].
    { by eapply list_elem_of_lookup_2. }
    exists row. split_and!; done.
  - intros i j a e row Hij Hj Hrow.
    destruct (Hrows i row Hrow) as (_ & _ & _ & _ & HX & HD).
    assert (Hknown : ∀ (f : turn_event → Q) k v,
              map (λ r : sample * option turn_event, f <$> r.2) test !! k = Some (Some v) →
              ∃ a' e', test !! k = Some (a', Some e') ∧ v = f e').
    { intros f k v Hk. rewrite list_lookup_fmap in Hk.
      destruct (test !! k) as [[a' [e'|]]|]; cbn in Hk; [|done..].
      injection Hk as <-. eauto. }
    assert (Hmiss : ∀ (f : turn_event → Q) k a' e',
              test !! k = Some (a', Some e') →
              map (λ r : sample * option turn_event, f <$> r.2) test !! k ≠ Some None).
    { intros f k a' e' Hk. by rewrite list_lookup_fmap, Hk. }
    destruct HX as [(k & Hik & Hk & Hbefore) | [_ Hnone]].
    2:{ exfalso. apply (Hmiss ev_aucXt j a e Hj), Hnone; [done|].
        rewrite length_map. by eapply lookup_lt_Some. }
    destruct HD as [(k' & Hik' & Hk' & Hbefore') | [_ Hnone]].
    2:{ exfalso. apply (Hmiss ev_turn_duration j a e Hj), Hnone; [done|].
        rewrite length_map. by eapply lookup_lt_Some. }
    apply Hknown in Hk as (a1 & e1 & Htk & ->).
    apply Hknown in Hk' as (a2 & e2 & Htk' & ->).
    assert (k ≤ j).
    { destruct (decide (k ≤ j)) as [|Hgt]; [done|].
      exfalso. apply (Hmiss ev_aucXt j a e Hj), Hbefore. lia. }
    assert (k = k') as <-.
    { destruct (Nat.lt_trichotomy k k') as [Hlt | [-> | Hlt]]; [|done|].
      - exfalso. apply (Hmiss ev_turn_duration k a1 e1 Htk), Hbefore'. lia.
      - exfalso. apply (Hmiss ev_aucXt k' a2 e2 Htk'), Hbefore. lia. }
    rewrite Htk in Htk'. injection Htk' as <- <-.
    exists k, a1, e1. split_and!; [lia..|done|done|done].
Qed.

(** A missing value above a known one takes it; the values that
    become zero are those below the last known one. *)
Example fill_small_column :
  fillna 0 (bfill [None; Some 4%Q; None]) = [4; 4; 0]%Q.
Proof. reflexivity. Qed.

Lemma overlay_fill_witness :
  (∃ row, create_overlay_data three_rows [TurnEvent 1 2 2 4] !! 0 = Some row
     ∧ ov_sample row = acc_row 0 1
     ∧ filled [None; Some 4%Q; None] 0 (ov_aucXt row)
     ∧ filled [None; Some 2%Q; None] 0 (ov_turn_duration row))
  ∧ (∃ row, create_overlay_data three_rows [TurnEvent 1 2 2 4] !! 2 = Some row
       ∧ ov_sample row = acc_row 2 1
       ∧ filled [None; Some 4%Q; None] 2 (ov_aucXt row)
       ∧ filled [None; Some 2%Q; None] 2 (ov_turn_duration row)).
Proof.
  pose proof (proj1 (proj2 (overlay_fill three_rows [TurnEvent 1 2 2 4]))) as H.
  split.
  - destruct (H 0 (acc_row 0 1) None eq_refl) as (row & Hrow & Ha & _ & _ & HX & HD).
    exists row. split_and!; [exact Hrow | exact Ha | exact HX | exact HD].
  - destruct (H 2 (acc_row 2 1) None eq_refl) as (row & Hrow & Ha & _ & _ & HX & HD).
    exists row. split_and!; [exact Hrow | exact Ha | exact HX | exact HD].
Defined.

(** C3, counterexample.  Three accelerometer rows at [td] 0, 1, 2 and
    one turn event at [td] 1: after the join the value of the first
    row and that of the last row are missing.  The first, a leading
    value, is not set to zero: it becomes the [aucXt] 4 of the event.
    The value that is still missing after the back-fill, and becomes
    zero, is that of the last row. *)
Lemma zero_fill_is_trailing :
  map (λ r, ev_aucXt <$> r.2) (merge_left three_rows [TurnEvent 1 2 2 4])
  = [None; Some 4%Q; None]
  ∧ bfill [None; Some 4%Q; None] = [Some 4%Q; Some 4%Q; None]
  ∧ map ov_aucXt (create_overlay_data three_rows [TurnEvent 1 2 2 4]) = [4; 4; 0]%Q
  ∧ map ov_turn_duration (create_overlay_data three_rows [TurnEvent 1 2 2 4]) = [2; 2; 0]%Q.
Proof. split_and!; reflexivity. Qed.

(** C4.  Every index of the merged timeline is either turning
    ([aucXt >= 2]) and in no bout, or a candidate for walking
    ([aucXt < 2]) and in one bout and one only; and every bout is a
    run of consecutive indexes, all with [aucXt < 2], that cannot be
    extended at either end. *)
Theorem bouts_partition (data : list overlay_row) (i : nat) :
  i < length data →
  ((turning data i ∧ ¬ walking data i ∧ ∀ g, g ∈ walking_seqs data → i ∉ g)
   ∨ (walking data i ∧ ¬ turning data i
      ∧ ∃ k g, walking_seqs data !! k = Some g ∧ i ∈ g
          ∧ ∀ k' g', walking_seqs data !! k' = Some g' → i ∈ g' → k' = k))
  ∧ (∀ g, g ∈ walking_seqs data →
       ∃ s n, g = seq s (S n) ∧ (∀ j, j ∈ g → walking data j)
         ∧ ¬ walking data (s + S n) ∧ ∀ j, S j = s → ¬ walking data j).
Proof.
  intros Hi. split; [|apply walking_seqs_maximal].
  destruct (walking_or_turning data i Hi) as [[Hw Ht] | [Ht Hw]]; [right|left].
  - split_and!; [done..|].
    apply elem_of_walking_seqs in Hw as (g & [k Hk]%list_elem_of_lookup_1 & Hg).
    exists k, g. split_and!; [done..|].
    intros k' g' Hk' Hg'. by eapply walking_seqs_unique.
  - split_and!; [done..|]. intros g Hg Hig. apply Hw, elem_of_walking_seqs. eauto.
Qed.

Lemma bouts_partition_witness :
  walking_seqs small_timeline = [[0; 1]; [3]]
  ∧ ((turning small_timeline 2 ∧ ¬ walking small_timeline 2
      ∧ ∀ g, g ∈ walking_seqs small_timeline → 2 ∉ g)
     ∨ (walking small_timeline 2 ∧ ¬ turning small_timeline 2
        ∧ ∃ k g, walking_seqs small_timeline !! k = Some g ∧ 2 ∈ g
            ∧ ∀ k' g', walking_seqs small_timeline !! k' = Some g' → 2 ∈ g' → k' = k)).
Proof.
  split; [reflexivity|].
  apply (bouts_partition small_timeline 2). vm_compute. lia.
Defined.




(** C6.  Of a table of windows, [subset_data_non_zero_runs] with the
    cutoff 5 keeps, in their order, the windows that do not lie in a
    maximal run of five or more windows of rate zero, and removes
    every window of such a run.  For every bout the table of windows
    is produced, and the rate of the bout is 0 when no window is
    kept, and the arithmetic mean of the rates of the kept windows
    otherwise. *)
Theorem zero_run_filtering :
  (∀ table : list window,
     ∃ keep, subset_data_non_zero_runs table 5 = Ret (select keep table)
       ∧ ∀ j, keep j = false ↔ in_long_zero_run (map w_heel_strikes table) 5 j)
  ∧ (∀ E data o,
       ∃ table kept,
         window_table E data o = Ret table
         ∧ subset_data_non_zero_runs table 5 = Ret kept
         ∧ calculate_number_of_steps_per_window E data o
           = Ret (match kept with
                  | [] => 0%Q
                  | _ => (Np.Qsum (map w_heel_strikes kept)
                          / inject_Z (Z.of_nat (length kept)))%Q
                  end)).
Proof.
  split; [intros table; apply subset_data_non_zero_runs_select|].
  intros E data o. destruct (window_table_total E data o) as [table Htable].
  destruct (subset_data_non_zero_runs_select table 5) as (keep & Hkept & _).
  exists table, (select keep table). split_and!; [done..|].
  unfold calculate_number_of_steps_per_window. rewrite Htable. cbn [mbind outcome_bind].
  rewrite Hkept. cbn [mbind outcome_bind].
  destruct (select keep table); [done|]. unfold Np.Qmean. by rewrite length_map.
Qed.

Lemma zero_run_filtering_witness :
  ∃ keep, subset_data_non_zero_runs small_table 5 = Ret (select keep small_table)
    ∧ ∀ j, keep j = false ↔ in_long_zero_run (map w_heel_strikes small_table) 5 j.
Proof. exact (proj1 zero_run_filtering small_table). Defined.

(** The table [small_table] loses its run of five zeros and keeps its
    shorter runs. *)
Example subset_small_table :
  subset_data_non_zero_runs small_table 5
  = Ret (map (λ q, Window 0 q (Np.Fin 1)) [0; 0; 1; 2; 0]%Q).
Proof. reflexivity. Qed.

(** C7, the failing inputs.  When the recording has accelerometer
    rows and every row of the merged timeline is turning there is no
    bout, and the two step rates are the mean of an empty array,
    which is [nan]: neither finite nor non-negative.  The recording
    [turning_recording] is one, with the filter that passes its input
    through. *)
Theorem step_rates_nan_without_bout :
  (∀ E rows o evs,
     calculate_rotation E (filter (λ r, sensorType r = "rotationRate") rows) o = Ret evs →
     let accel_ts := filter (λ r, sensorType r = "userAcceleration") rows in
     accel_ts ≠ [] →
     (∀ i, i < length (create_overlay_data accel_ts evs) →
           turning (create_overlay_data accel_ts evs) i) →
     ∃ f, pipeline E (Frame rows) o = Ret (RetDict f)
       ∧ wchunk_mean_no_of_steps_per_secs f = Np.NaN
       ∧ no_wchunk_mean_no_of_steps_per_secs f = Np.NaN)
  ∧ pipeline passthrough (Frame turning_recording) OY
    = Ret (RetDict (FeatureDict Np.NaN Np.NaN 1 (Np.Fin 2) (Np.Fin 2) (Np.Fin 2)))
  ∧ Np.is_finite Np.NaN = false ∧ Np.nonneg Np.NaN = false.
Proof.
  split_and!; [|vm_compute; reflexivity|reflexivity|reflexivity].
  intros E rows o evs Hevs accel_ts _ Hturning.
  cbn [pipeline]. unfold pipeline_frame. rewrite Hevs. cbn [mbind outcome_bind].
  fold accel_ts. rewrite (walking_seqs_none (create_overlay_data accel_ts evs)).
  - cbn [mapM mret outcome_ret mbind outcome_bind map Np.mean].
    destruct (rotation_features _) as [[[n m] lo] hi]. eauto.
  - intros i Hw. assert (Hi : i < length (create_overlay_data accel_ts evs)).
    { destruct Hw as (r & Hr & _). by eapply lookup_lt_Some. }
    destruct (walking_or_turning _ i Hi) as [[_ Hnt] | [_ Hnw]]; [|done].
    by apply Hnt, Hturning.
Qed.

Lemma step_rates_nan_without_bout_witness :
  ∃ f, pipeline passthrough (Frame turning_recording) OY = Ret (RetDict f)
    ∧ wchunk_mean_no_of_steps_per_secs f = Np.NaN
    ∧ no_wchunk_mean_no_of_steps_per_secs f = Np.NaN.
Proof.
  apply (proj1 step_rates_nan_without_bout passthrough turning_recording OY
           [TurnEvent 1 (4 # 2) 2 (8 # 2)]).
  - vm_compute. reflexivity.
  - discriminate.
  - intros i Hi. change (i < 2) in Hi.
    destruct i as [|[|i]]; [| |lia]; eexists; (split; [reflexivity|]); vm_compute; discriminate.
Defined.

(** C8.  Whatever [pipeline] is given, the dictionary it returns has
    its four rotation entries computed from the turn events of the
    recording whose [aucXt] is greater than 2: when there is none the
    count is 0 and the three durations are 0; otherwise the count is
    their number, the mean duration is the arithmetic mean of their
    durations and the other two are the least and the greatest of
    their durations.  With two events of [aucXt] 5 and 1/2 the count
    is 1 and the three durations are the duration of the first. *)
Theorem rotation_block (E : externals) (data : pdata) (o : orientation) (f : feature_dict) :
  pipeline E data o = Ret (RetDict f) →
  (∃ rows evs turns,
     (data = Frame rows
      ∨ ∃ s raw, data = Path s ∧ open_filepath E s = Ret (SchemaV2 raw)
          ∧ clean_accelerometer_data E raw = Ret rows)
     ∧ calculate_rotation E (filter (λ r, sensorType r = "rotationRate") rows) o = Ret evs
     ∧ turns `sublist_of` evs
     ∧ (∀ e, e ∈ turns ↔ e ∈ evs ∧ (2 < ev_aucXt e)%Q)
     ∧ let d := map ev_turn_duration turns in
       (turns = [] →
          rotation_no_of_turns f = 0 ∧ rotation_mean_duration f = Np.Fin 0
          ∧ rotation_min_duration f = Np.Fin 0 ∧ rotation_max_duration f = Np.Fin 0)
       ∧ (turns ≠ [] →
          rotation_no_of_turns f = length turns
          ∧ rotation_mean_duration f
            = Np.Fin (Np.Qsum d / inject_Z (Z.of_nat (length turns)))
          ∧ ∃ lo hi,
              rotation_min_duration f = Np.Fin lo ∧ rotation_max_duration f = Np.Fin hi
              ∧ lo ∈ d ∧ hi ∈ d ∧ ∀ v, v ∈ d → (lo <= v <= hi)%Q))
  ∧ (∀ e1 e2, (ev_aucXt e1 == 5)%Q → (ev_aucXt e2 == 1 # 2)%Q →
       ∃ m, rotation_features (filter (λ e, Qlt_bool 2 (ev_aucXt e) = true) [e1; e2])
            = (1, Np.Fin m, Np.Fin (ev_turn_duration e1), Np.Fin (ev_turn_duration e1))
            ∧ (m == ev_turn_duration e1)%Q).
Proof.
  intros Hf. split.
  - assert (∃ rows, (data = Frame rows
                     ∨ ∃ s raw, data = Path s ∧ open_filepath E s = Ret (SchemaV2 raw)
                         ∧ clean_accelerometer_data E raw = Ret rows)
                    ∧ pipeline_frame E rows o = Ret (RetDict f)) as (rows & Hrows & Hframe).
    { destruct data as [s|rows]; cbn [pipeline] in Hf; [|eauto].
      destruct (String.eqb s "#ERROR"); [done|].
      destruct (open_filepath E s) as [[raw| |]|] eqn:Hraw;
        cbn [mbind outcome_bind clean_table] in Hf; [|done..].
      destruct (clean_accelerometer_data E raw) as [rows|] eqn:Hclean;
        cbn [mbind outcome_bind] in Hf; [|done].
      exists rows. split; [right; eauto|done]. }
    apply pipeline_frame_rotation in Hframe as (evs & f' & Hevs & [= <-] & Hblock).
    exists rows, evs, (filter (λ e, Qlt_bool 2 (ev_aucXt e) = true) evs).
    split_and!; [done|done|apply sublist_filter| |].
    { intros e. rewrite list_elem_of_filter, Qlt_bool_iff. tauto. }
    unfold rotation_features in Hblock.
    destruct (filter _ evs) as [|e turns] eqn:Hturns; cbn [length Nat.eqb negb] in Hblock.
    + injection Hblock as -> -> -> ->. split; [done|]. by intros [].
    + injection Hblock as -> -> -> ->. split; [done|]. intros _.
      split_and!; [done | unfold Np.Qmean; cbn [length]; by rewrite length_map |].
      destruct (Qminimum_spec (map ev_turn_duration (e :: turns))) as [Hlo Hle]; [done|].
      destruct (Qmaximum_spec (map ev_turn_duration (e :: turns))) as [Hhi Hge]; [done|].
      eexists _, _. split_and!; [done..|]. intros v Hv. split; [by apply Hle | by apply Hge].
  - intros e1 e2 H1 H2.
    assert (Qlt_bool 2 (ev_aucXt e1) = true) as Hq1 by (apply Qlt_bool_iff; lra).
    assert (Qlt_bool 2 (ev_aucXt e2) ≠ true) as Hq2 by (rewrite Qlt_bool_iff; lra).
    rewrite filter_cons_True, filter_cons_False, filter_nil by done.
    eexists. split; [reflexivity|]. unfold Np.Qmean, Np.Qsum. cbn. field.
Qed.

Lemma rotation_block_witness :
  ∃ m, rotation_features (filter (λ e, Qlt_bool 2 (ev_aucXt e) = true) two_events)
       = (1, Np.Fin m, Np.Fin 3, Np.Fin 3)
       ∧ (m == 3)%Q.
Proof.
  refine (proj2 (rotation_block passthrough (Frame turning_recording) OY
                   (FeatureDict Np.NaN Np.NaN 1 (Np.Fin 2) (Np.Fin 2) (Np.Fin 2)) _)
                (TurnEvent 1 (5 # 3) 3 5) (TurnEvent 2 (1 # 2) 1 (1 # 2)) _ _).
  - vm_compute. reflexivity.
  - reflexivity.
  - reflexivity.
Defined.

(** C9.  A bout of fewer than 256 rows has no window: the loop ends
    at its first test whatever the fuel, the table of windows is
    empty, and the function returns 0, with no exception. *)
Theorem short_bout_rate_is_zero (E : externals) (data : list sample) (o : orientation) :
  length data < 256 →
  (∀ fuel,
     window_loop E fuel o
       (zip data (butter_lowpass_filter E (map (col o) data) 100 5 4)) 257 = Ret [])
  ∧ window_table E data o = Ret []
  ∧ calculate_number_of_steps_per_window E data o = Ret 0%Q.
Proof.
  intros Hlen. split_and!.
  - intros fuel. apply window_loop_short. rewrite length_zip. lia.
  - apply window_table_short. lia.
  - unfold calculate_number_of_steps_per_window.
    rewrite window_table_short by lia. reflexivity.
Qed.

Lemma short_bout_rate_is_zero_witness :
  calculate_number_of_steps_per_window passthrough [acc_row 0 1; acc_row 1 1; acc_row 2 1] OY
  = Ret 0%Q.
Proof.
  apply (short_bout_rate_is_zero passthrough [acc_row 0 1; acc_row 1 1; acc_row 2 1] OY).
  simpl. lia.
Defined.

(** C10.  The rows [subset_data_non_zero_runs] returns are rows of
    its argument, in their order; a row it leaves out has a rate of
    zero, so that every row of another rate is returned. *)
Theorem subset_deletes_zero_rows_only (data : list window) (zero_runs_cutoff : nat) :
  ∃ keep,
    subset_data_non_zero_runs data zero_runs_cutoff = Ret (select keep data)
    ∧ select keep data `sublist_of` data
    ∧ ∀ j w, data !! j = Some w → keep j = false → (w_heel_strikes w == 0)%Q.
Proof.
  destruct (subset_data_non_zero_runs_select data zero_runs_cutoff) as (keep & Hkeep & Hspec).
  exists keep. split_and!; [done|apply select_sublist|].
  intros j w Hw (s & e & (_ & Hin & _) & Hj & _)%Hspec.
  destruct (Hin j Hj) as (q & Hq & Hzero).
  rewrite list_lookup_fmap, Hw in Hq. by injection Hq as <-.
Qed.

Lemma subset_deletes_zero_rows_only_witness :
  ∃ keep,
    subset_data_non_zero_runs small_table 5 = Ret (select keep small_table)
    ∧ select keep small_table `sublist_of` small_table
    ∧ ∀ j w, small_table !! j = Some w → keep j = false → (w_heel_strikes w == 0)%Q.
Proof. exact (subset_deletes_zero_rows_only small_table 5). Defined.

(** * Further properties of the code *)

(** ** [detect_zcr] *)

Lemma diff_lookup (l : list Z) : ∀ i d,
  Np.diff l !! i = Some d ↔ ∃ a b, l !! i = Some a ∧ l !! S i = Some b ∧ d = (b - a)%Z.
Proof.
  induction l as [|a [|b l] IH]; intros i d.
  - split; [done|]. by intros (? & ? & ? & _).
  - split; [done|]. intros (? & ? & _ & ? & _). by destruct i.
  - change (Np.diff (a :: b :: l)) with ((b - a)%Z :: Np.diff (b :: l)).
    destruct i as [|i].
    + cbn. split.
      * intros [= <-]. by exists a, b.
      * by intros (? & ? & [= <-] & [= <-] & ->).
    + cbn [lookup list_lookup]. apply IH.
Qed.

(** X1.  [detect_zcr] lists, in increasing order, exactly the indexes
    [i] whose value and the next one differ in sign (negative, zero
    or positive); a zero is a sign of its own. *)
Theorem detect_zcr_sign_changes (array : list Q) :
  StronglySorted lt (detect_zcr array)
  ∧ ∀ i, i ∈ detect_zcr array
         ↔ ∃ a b, array !! i = Some a ∧ array !! S i = Some b ∧ Np.sign a ≠ Np.sign b.
Proof.
  split; [apply detect_zcr_sorted|]. intros i. unfold detect_zcr.
  rewrite where_spec, list_lookup_fmap. split.
  - destruct (Np.diff _ !! i) as [d|] eqn:Hd; [|done]. cbn. intros [= Hnz].
    apply diff_lookup in Hd as (sa & sb & Ha & Hb & ->).
    rewrite list_lookup_fmap in Ha, Hb.
    destruct (array !! i) as [a|]; [|done]. destruct (array !! S i) as [b|]; [|done].
    cbn in Ha, Hb. injection Ha as <-. injection Hb as <-.
    exists a, b. split_and!; [done..|]. intros Heq. rewrite Heq, Z.sub_diag in Hnz. done.
  - intros (a & b & Ha & Hb & Hne).
    assert (Hd : Np.diff (map Np.sign array) !! i = Some (Np.sign b - Np.sign a)%Z).
    { apply diff_lookup. exists (Np.sign a), (Np.sign b).
      by rewrite !list_lookup_fmap, Ha, Hb. }
    rewrite Hd. cbn. f_equal. apply negb_true_iff, Z.eqb_neq. lia.
Qed.

Lemma detect_zcr_sign_changes_witness :
  StronglySorted lt (detect_zcr [1; 0; 1; -1]%Q)
  ∧ ∀ i, i ∈ detect_zcr [1; 0; 1; -1]%Q
         ↔ ∃ a b, [1; 0; 1; -1]%Q !! i = Some a ∧ [1; 0; 1; -1]%Q !! S i = Some b
                  ∧ Np.sign a ≠ Np.sign b.
Proof. exact (detect_zcr_sign_changes [1; 0; 1; -1]%Q). Defined.

Example detect_zcr_through_zero : detect_zcr [1; 0; 1; -1]%Q = [0; 1; 2].
Proof. reflexivity. Qed.

(** ** [zero_runs] and [subset_data_non_zero_runs] *)

(** X2.  [zero_runs] raises nothing (the positions it reshapes come in
    pairs) and returns the maximal runs of zeros of the array, each as
    [start, end) with [start < end <= len(array)]; two of the runs it
    returns never share an index. *)
Theorem zero_runs_returns_maximal_runs (array : list Q) :
  ∃ runs, zero_runs array = Ret runs
    ∧ (∀ s e, (s, e) ∈ runs ↔ maximal_run (zero_rate array) s e)
    ∧ (∀ s e, (s, e) ∈ runs → s < e ≤ length array)
    ∧ (∀ s e s' e' j, (s, e) ∈ runs → (s', e') ∈ runs →
         s ≤ j < e → s' ≤ j < e' → (s, e) = (s', e')).
Proof.
  destruct (zero_runs_maximal array) as (runs & Hruns & Hspec).
  exists runs. split_and!; [done..| |].
  - intros s e (Hse & Hin & _)%Hspec. split; [done|].
    destruct (Hin (e - 1)) as (q & Hq & _); [lia|].
    apply lookup_lt_Some in Hq. lia.
  - intros s e s' e' j Hr%Hspec Hr'%Hspec Hj Hj'.
    by destruct (maximal_run_unique _ _ _ _ _ j Hr Hr' Hj Hj') as [-> ->].
Qed.

Lemma zero_runs_returns_maximal_runs_witness :
  ∃ runs, zero_runs [0; 0; 1; 0]%Q = Ret runs
    ∧ (∀ s e, (s, e) ∈ runs ↔ maximal_run (zero_rate [0; 0; 1; 0]%Q) s e)
    ∧ (∀ s e, (s, e) ∈ runs → s < e ≤ 4)
    ∧ (∀ s e s' e' j, (s, e) ∈ runs → (s', e') ∈ runs →
         s ≤ j < e → s' ≤ j < e' → (s, e) = (s', e')).
Proof. exact (zero_runs_returns_maximal_runs [0; 0; 1; 0]%Q). Defined.

Example zero_runs_small : zero_runs [0; 0; 1; 0]%Q = Ret [(0, 2); (3, 4)].
Proof. reflexivity. Qed.

Lemma select_all {A} (keep : nat → bool) (l : list A) :
  (∀ j, j < length l → keep j = true) → select keep l = l.
Proof.
  intros Hkeep. unfold select.
  rewrite <- (map_snd_imap_pair l 0) at 2. f_equal.
  assert (H : ∀ k, (∀ j, k ≤ j < k + length l → keep j = true) →
    filter (λ r : nat * A, keep r.1 = true) (imap (λ i, pair (k + i)) l)
    = imap (λ i, pair (k + i)) l).
  { clear Hkeep. induction l as [|a l IH]; intros k Hk; [done|].
    rewrite imap_cons_pair, filter_cons_True by (cbn; apply Hk; simpl; lia).
    f_equal. apply IH. intros j Hj. apply Hk. simpl. lia. }
  apply (H 0). intros j Hj. apply Hkeep. lia.
Qed.

Lemma select_none {A} (keep : nat → bool) (l : list A) :
  (∀ j, j < length l → keep j = false) → select keep l = [].
Proof.
  intros Hkeep. unfold select.
  assert (H : ∀ k, (∀ j, k ≤ j < k + length l → keep j = false) →
    filter (λ r : nat * A, keep r.1 = true) (imap (λ i, pair (k + i)) l) = []).
  { clear Hkeep. induction l as [|a l IH]; intros k Hk; [done|].
    rewrite imap_cons_pair, filter_cons_False.
    - apply IH. intros j Hj. apply Hk. simpl. lia.
    - cbn. rewrite Hk by (simpl; lia). done. }
  change (imap pair l) with (imap (λ i, pair (0 + i)) l).
  rewrite (H 0); [done|]. intros j Hj. apply Hkeep. lia.
Qed.

Lemma long_zero_run_bound rates n i :
  in_long_zero_run rates n i → n ≤ length rates ∧ zero_rate rates i.
Proof.
  intros (s & e & (Hse & Hin & _) & Hi & Hn). split; [|by apply Hin].
  destruct (Hin (e - 1)) as (q & Hq & _); [lia|]. apply lookup_lt_Some in Hq. lia.
Qed.

(** X3.  [subset_data_non_zero_runs] returns its table unchanged when
    the table has fewer rows than the cutoff, and when no row has a
    rate of zero; it returns the empty table when every rate is zero
    and the table has rows, at least as many as the cutoff. *)
Theorem subset_data_non_zero_runs_edges (data : list window) (zero_runs_cutoff : nat) :
  (length data < zero_runs_cutoff →
     subset_data_non_zero_runs data zero_runs_cutoff = Ret data)
  ∧ (Forall (λ w, ¬ (w_heel_strikes w == 0)%Q) data →
     subset_data_non_zero_runs data zero_runs_cutoff = Ret data)
  ∧ (Forall (λ w, (w_heel_strikes w == 0)%Q) data →
     data ≠ [] → zero_runs_cutoff ≤ length data →
     subset_data_non_zero_runs data zero_runs_cutoff = Ret []).
Proof.
  destruct (subset_data_non_zero_runs_select data zero_runs_cutoff) as (keep & -> & Hkeep).
  split_and!.
  - intros Hlen. f_equal. apply select_all. intros j _.
    destruct (keep j) eqn:Hj; [done|]. apply Hkeep, long_zero_run_bound in Hj as [Hn _].
    rewrite length_map in Hn. lia.
  - intros Hnz. f_equal. apply select_all. intros j _.
    destruct (keep j) eqn:Hj; [done|].
    apply Hkeep, long_zero_run_bound in Hj as [_ (q & Hq & Hzero)].
    rewrite list_lookup_fmap in Hq. destruct (data !! j) as [w|] eqn:Hw; [|done].
    injection Hq as <-. rewrite Forall_forall in Hnz.
    exfalso. eapply Hnz; [|done]. by eapply list_elem_of_lookup_2.
  - intros Hz Hne Hn. f_equal. apply select_none. intros j Hj. apply Hkeep.
    assert (Hzero : ∀ k, k < length data → zero_rate (map w_heel_strikes data) k).
    { intros k [w Hw]%lookup_lt_is_Some_2. exists (w_heel_strikes w).
      rewrite list_lookup_fmap, Hw. split; [done|].
      rewrite Forall_forall in Hz. apply Hz. by eapply list_elem_of_lookup_2. }
    exists 0, (length data). split_and!; try lia.
    split_and!; [lia| |done|].
    + intros k Hk. apply Hzero. lia.
    + intros (q & Hq & _). apply lookup_lt_Some in Hq. rewrite length_map in Hq. lia.
Qed.

Lemma subset_data_non_zero_runs_edges_witness :
  subset_data_non_zero_runs (map (λ q, Window 0 q (Np.Fin 0)) [0; 0; 0; 0; 0; 0]%Q) 5 = Ret []
  ∧ subset_data_non_zero_runs (map (λ q, Window 0 q (Np.Fin 0)) [0; 0; 0]%Q) 5
    = Ret (map (λ q, Window 0 q (Np.Fin 0)) [0; 0; 0]%Q)
  ∧ subset_data_non_zero_runs (map (λ q, Window 0 q (Np.Fin 0)) [1; 2]%Q) 1
    = Ret (map (λ q, Window 0 q (Np.Fin 0)) [1; 2]%Q).
Proof.
  split_and!.
  - apply (proj2 (proj2 (subset_data_non_zero_runs_edges _ 5))).
    + repeat constructor.
    + discriminate.
    + simpl. lia.
  - apply (proj1 (subset_data_non_zero_runs_edges _ 5)). simpl. lia.
  - apply (proj1 (proj2 (subset_data_non_zero_runs_edges _ 1))).
    repeat constructor; discriminate.
Defined.

(** ** [separate_array_sequence] *)

Lemma consecutive_runs_adjacent l :
  ∀ k g g' a b,
    consecutive_runs l !! k = Some g → consecutive_runs l !! S k = Some g' →
    last g = Some a → head g' = Some b → b ≠ S a.
Proof.
  induction l as [|x l IH]; intros k g g' a b; cbn [consecutive_runs]; [done|].
  pose proof (consecutive_runs_nonempty l) as Hne.
  destruct (consecutive_runs l) as [|[|y h] gs] eqn:Hruns.
  - by destruct k.
  - by inversion Hne.
  - destruct (y =? S x) eqn:Hy.
    + destruct k as [|k].
      * cbn. intros [= <-] Hg' Ha Hb.
        apply (IH 0 (y :: h) g' a b); [done|done| |done].
        by rewrite last_cons_cons in Ha.
      * cbn. intros Hg Hg'. by apply (IH (S k)).
    + apply Nat.eqb_neq in Hy. destruct k as [|k].
      * cbn. intros [= <-] [= <-] [= <-] [= <-]. done.
      * cbn. intros Hg Hg'. by apply (IH k).
Qed.

(** X4.  [separate_array_sequence] cuts its argument, whatever it is,
    into pieces that put end to end give the argument back; every
    piece is a run [s, s+1, ..., s+n] of consecutive integers, and a
    piece never continues the one before it. *)
Theorem separate_array_sequence_pieces (array : list nat) :
  concat (separate_array_sequence array) = array
  ∧ Forall (λ g, ∃ s n, g = seq s (S n)) (separate_array_sequence array)
  ∧ ∀ k g g' a b,
      separate_array_sequence array !! k = Some g →
      separate_array_sequence array !! S k = Some g' →
      last g = Some a → head g' = Some b → b ≠ S a.
Proof.
  rewrite separate_array_sequence_runs. split_and!.
  - apply concat_consecutive_runs.
  - apply consecutive_runs_seq.
  - apply consecutive_runs_adjacent.
Qed.

Lemma separate_array_sequence_pieces_witness :
  separate_array_sequence [3; 4; 7; 6; 7] = [[3; 4]; [7]; [6; 7]]
  ∧ 7 ≠ S 4.
Proof.
  split; [reflexivity|].
  apply (proj2 (proj2 (separate_array_sequence_pieces [3; 4; 7; 6; 7])) 0 [3; 4] [7] 4 7);
    reflexivity.
Defined.

(** ** [calculate_number_of_steps_per_window] *)

Lemma Qsum_nonneg l : Forall (λ q, (0 <= q)%Q) l → (0 <= Np.Qsum l)%Q.
Proof.
  induction 1 as [|q l Hq _ IH]; cbn [Np.Qsum foldr]; [lra|].
  change (foldr Qplus 0%Q l) with (Np.Qsum l). lra.
Qed.

Lemma Qsum_zero l : Forall (λ q, (q == 0)%Q) l → (Np.Qsum l == 0)%Q.
Proof.
  induction 1 as [|q l Hq _ IH]; cbn [Np.Qsum foldr]; [reflexivity|].
  change (foldr Qplus 0%Q l) with (Np.Qsum l). lra.
Qed.

Lemma Qmean_nonneg l : Forall (λ q, (0 <= q)%Q) l → (0 <= Np.Qmean l)%Q.
Proof.
  intros Hl. unfold Np.Qmean, Qdiv. apply Qmult_le_0_compat; [by apply Qsum_nonneg|].
  apply Qinv_le_0_compat. change 0%Q with (inject_Z 0). rewrite <- Zle_Qle. lia.
Qed.

Lemma Qmean_zero l : Forall (λ q, (q == 0)%Q) l → (Np.Qmean l == 0)%Q.
Proof.
  intros Hl. unfold Np.Qmean, Qdiv. rewrite (Qsum_zero l Hl). ring.
Qed.

Lemma rate_nonneg (k : nat) : (0 <= inject_Z (Z.of_nat k) / (256 / 100))%Q.
Proof.
  unfold Qdiv at 1. apply Qmult_le_0_compat.
  - change 0%Q with (inject_Z 0). rewrite <- Zle_Qle. lia.
  - apply Qinv_le_0_compat. done.
Qed.

Section WindowsMore.
Context (E : externals).

Lemma butter_lowpass_filter_length data sample_rate cutoff order :
  length (butter_lowpass_filter E data sample_rate cutoff order) = length data.
Proof. apply lfilter_length. Qed.

Lemma window_loop_times (o : orientation) (ts : list (sample * Q)) :
  ∀ fuel jPos obs,
    length ts ≤ jPos + fuel →
    window_loop E fuel o ts jPos = Ret obs →
    map (λ w : nat * nat * Np.npfloat, w.1.1) obs
    = map (λ k, jPos + 50 * k) (seq 0 ((length ts - jPos + 49) / 50)).
Proof.
  intros fuel. revert ts.
  induction fuel as [|fuel IH]; intros ts jPos obs Hfuel; cbn [window_loop].
  - intros [= <-]. replace ((length ts - jPos + 49) / 50) with 0; [done|].
    symmetry. apply Nat.div_small. lia.
  - destruct (jPos <? length ts) eqn:Hlt.
    + apply Nat.ltb_lt in Hlt.
      destruct (iloc_last _) as [t1|]; cbn [mbind outcome_bind]; [|done].
      destruct (iloc _ 0) as [t0|]; cbn [mbind outcome_bind]; [|done].
      destruct (window_loop E fuel o _ (jPos + 50)) as [rest|] eqn:Hrest;
        cbn [mbind outcome_bind]; [|done].
      intros [= <-]. cbn [map fst].
      apply IH in Hrest; [|rewrite length_after_window; lia].
      rewrite length_after_window in Hrest. rewrite Hrest.
      replace ((length ts - jPos + 49) / 50)
        with (S ((length ts - (jPos + 50) + 49) / 50)).
      * cbn [seq map]. rewrite <- fmap_S_seq. f_equal; [lia|].
        rewrite <- list_fmap_compose. apply list_fmap_ext. intros _ k _. simpl. lia.
      * destruct (decide (jPos + 50 ≤ length ts)) as [Hge|Hlt'].
        -- replace (length ts - jPos + 49) with ((length ts - (jPos + 50) + 49) + 1 * 50) by lia.
           rewrite Nat.div_add by lia. lia.
        -- replace (length ts - (jPos + 50) + 49) with 49 by lia.
           replace (49 / 50) with 0 by reflexivity.
           apply (Nat.div_unique _ 50 1 (length ts - jPos - 1)); lia.
    + apply Nat.ltb_ge in Hlt. intros [= <-].
      replace ((length ts - jPos + 49) / 50) with 0; [done|].
      symmetry. apply Nat.div_small. lia.
Qed.

Lemma window_loop_no_strike (o : orientation) (ts : list (sample * Q)) :
  (∀ d v hs, heel_strikes E d v = Some hs → hs.2 = 0) →
  ∀ fuel jPos obs,
    window_loop E fuel o ts jPos = Ret obs →
    Forall (λ w : nat * nat * Np.npfloat, w.1.2 = 0) obs.
Proof.
  intros Hno fuel. revert ts.
  induction fuel as [|fuel IH]; intros ts jPos obs; cbn [window_loop].
  - intros [= <-]. constructor.
  - destruct (jPos <? length ts); [|intros [= <-]; constructor].
    destruct (iloc_last _) as [t1|]; cbn [mbind outcome_bind]; [|done].
    destruct (iloc _ 0) as [t0|]; cbn [mbind outcome_bind]; [|done].
    destruct (window_loop E fuel o _ (jPos + 50)) as [rest|] eqn:Hrest;
      cbn [mbind outcome_bind]; [|done].
    intros [= <-]. constructor; [|by eapply IH]. cbn [fst snd].
    destruct (lt_const _ _); [done|].
    destruct (heel_strikes E _ _) as [hs|] eqn:Hhs; [by eapply Hno|done].
Qed.

(** X5.  The table of windows of a bout of [n] rows has one window
    for each of 257, 307, 357, ... below [n], in that order: none up
    to 257 rows, one from 258 to 307 rows, and so on. *)
Theorem window_table_times (data : list sample) (o : orientation) :
  ∃ table, window_table E data o = Ret table
    ∧ map w_time table = window_times (length data)
    ∧ (table = [] ↔ length data ≤ 257).
Proof.
  destruct (window_table_total E data o) as [table Htable]. exists table.
  assert (Htimes : map w_time table = window_times (length data)).
  { unfold window_table in Htable.
    destruct (window_loop E _ o _ _) as [obs|] eqn:Hobs; cbn [mbind outcome_bind] in Htable;
      [|done].
    injection Htable as <-. apply window_loop_times in Hobs; [|lia].
    rewrite map_map. cbn [w_time]. rewrite Hobs.
    unfold window_times. rewrite length_zip, butter_lowpass_filter_length, length_map.
    by rewrite Nat.min_id. }
  split_and!; [done..|]. split.
  - intros ->. unfold window_times in Htimes. symmetry in Htimes.
    apply map_eq_nil in Htimes.
    destruct (decide (length data ≤ 257)) as [|Hgt]; [done|].
    replace (length data - 257 + 49) with ((length data - 258) + 1 * 50) in Htimes by lia.
    rewrite Nat.div_add in Htimes by lia.
    rewrite Nat.add_1_r in Htimes. done.
  - intros Hlen. rewrite window_table_short in Htable by done. by injection Htable as <-.
Qed.

Lemma calculate_steps_non_negative (data : list sample) (o : orientation) :
  ∃ q, calculate_number_of_steps_per_window E data o = Ret q ∧ (0 <= q)%Q.
Proof.
  unfold calculate_number_of_steps_per_window.
  destruct (window_table_total E data o) as [table Htable]. rewrite Htable.
  cbn [mbind outcome_bind].
  destruct (subset_data_non_zero_runs_select table 5) as (keep & -> & _).
  cbn [mbind outcome_bind].
  destruct (_ =? 0); eexists; (split; [reflexivity|]); [lra|].
  apply Qmean_nonneg, Forall_fmap.
  assert (Htab : Forall (λ w, (0 <= w_heel_strikes w)%Q) table).
  { unfold window_table in Htable.
    destruct (window_loop E _ o _ _) as [obs|]; cbn [mbind outcome_bind] in Htable; [|done].
    injection Htable as <-. apply Forall_fmap, Forall_forall. intros w _. apply rate_nonneg. }
  rewrite Forall_forall in Htab. apply Forall_forall. intros w Hw.
  apply Htab. eapply elem_of_sublist; [done|apply select_sublist].
Qed.

(** X6.  Given a bout with its time index, which is how [pipeline]
    passes it, [calculate_number_of_steps_per_window] raises nothing,
    whatever the rows, the filter and the detector are, and whatever
    the detector leaves in the arrays it is given; and the rate it
    returns is never negative. *)
Theorem steps_per_window_non_negative (data : list sample) (o : orientation) :
  ∃ q, calculate_number_of_steps_per_window E data o = Ret q ∧ (0 <= q)%Q.
Proof. apply calculate_steps_non_negative. Qed.

(** X7.  When the detector finds no strike, or raises, on every
    window it is given, the rate of the bout is zero. *)
Theorem steps_per_window_no_strike (data : list sample) (o : orientation) :
  (∀ d v hs, heel_strikes E d v = Some hs → hs.2 = 0) →
  ∃ q, calculate_number_of_steps_per_window E data o = Ret q ∧ (q == 0)%Q.
Proof.
  intros Hno. unfold calculate_number_of_steps_per_window.
  destruct (window_table_total E data o) as [table Htable]. rewrite Htable.
  cbn [mbind outcome_bind].
  destruct (subset_data_non_zero_runs_select table 5) as (keep & -> & _).
  cbn [mbind outcome_bind].
  destruct (_ =? 0); eexists; (split; [reflexivity|]); [reflexivity|].
  apply Qmean_zero, Forall_fmap.
  assert (Htab : Forall (λ w, (w_heel_strikes w == 0)%Q) table).
  { unfold window_table in Htable.
    destruct (window_loop E _ o _ _) as [obs|] eqn:Hobs; cbn [mbind outcome_bind] in Htable;
      [|done].
    injection Htable as <-. apply Forall_fmap.
    eapply Forall_impl; [by eapply window_loop_no_strike|].
    intros w Hw. unfold compose. cbn [w_heel_strikes]. rewrite Hw. reflexivity. }
  rewrite Forall_forall in Htab. apply Forall_forall. intros w Hw.
  apply Htab. eapply elem_of_sublist; [done|apply select_sublist].
Qed.

End WindowsMore.

Lemma steps_per_window_no_strike_witness :
  ∃ q, calculate_number_of_steps_per_window passthrough
         [acc_row 0 1; acc_row 1 1; acc_row 2 1] OY = Ret q ∧ (q == 0)%Q.
Proof. apply steps_per_window_no_strike. intros d v hs. discriminate. Defined.

(** ** [calculate_rotation] *)

Lemma non_decreasing_le l : non_decreasing l →
  ∀ n i a b, l !! i = Some a → l !! (i + n) = Some b → (a <= b)%Q.
Proof.
  intros Hl. induction n as [|n IH]; intros i a b Ha Hb.
  - rewrite Nat.add_0_r in Hb. simplify_eq. lra.
  - destruct (lookup_lt_is_Some_2 l (i + n)) as [c Hc].
    { apply lookup_lt_Some in Hb. lia. }
    apply Qle_trans with c; [by eapply IH|].
    apply (Hl (i + n) c b Hc). by replace (S (i + n)) with (i + S n) by lia.
Qed.

Lemma length_omap_le {A B} (f : A → option B) l : length (omap f l) ≤ length l.
Proof.
  induction l as [|a l IH]; [done|]. cbn [omap list_omap].
  destruct (f a); simpl; lia.
Qed.

Lemma length_intervals zcr : ∀ start, length (intervals start zcr) = length zcr.
Proof. induction zcr as [|i zcr IH]; intros start; cbn; [done|]. by rewrite IH. Qed.

Lemma elem_of_intervals zcr : ∀ start s i, (s, i) ∈ intervals start zcr → i ∈ zcr.
Proof.
  induction zcr as [|i0 zcr IH]; intros start s i; cbn [intervals]; [by intros ?%elem_of_nil|].
  intros [[= -> ->] | H]%elem_of_cons; [by left|]. right. by eapply IH.
Qed.

Section RotationMore.
Context (E : externals).

Lemma calculate_rotation_events_spec (data : list sample) (o : orientation) :
  non_decreasing (map s_td data) →
  ∃ evs,
    calculate_rotation E data o = Ret evs
    ∧ length evs ≤ length (detect_zcr (butter_lowpass_filter E (map (col o) data) 100 2 2))
    ∧ Forall (λ e, (0 <= ev_turn_duration e)%Q ∧ (0 <= ev_auc e)%Q ∧ (0 <= ev_aucXt e)%Q
                   ∧ ev_aucXt e = (ev_auc e * ev_turn_duration e)%Q
                   ∧ ev_td e ∈ map s_td data) evs.
Proof.
  intros Htd. rewrite calculate_rotation_intervals by done.
  set (ys := butter_lowpass_filter E (map (col o) data) 100 2 2).
  set (td := map s_td data) in *.
  assert (Hlen : length ys = length td).
  { unfold ys, td. by rewrite butter_lowpass_filter_length, !length_map. }
  eexists. split; [reflexivity|]. split.
  { etrans; [apply length_omap_le|]. by rewrite length_intervals. }
  apply Forall_forall. intros e ([s i] & Hiv & He)%list_elem_of_omap.
  apply elem_of_intervals in Hiv.
  pose proof (detect_zcr_bound ys) as Hb. rewrite Forall_forall in Hb.
  specialize (Hb i Hiv). rewrite Hlen in Hb.
  cbn [interval_event] in He.
  destruct (2 <=? length (slice s (i + 1) ys)) eqn:H2; [|done].
  apply Nat.leb_le in H2. rewrite length_slice in H2.
  injection He as <-. cbn [ev_turn_duration ev_auc ev_aucXt ev_td].
  assert (Hdur : (0 <= at_ td (i + 1) - at_ td s)%Q).
  { unfold at_.
    destruct (lookup_lt_is_Some_2 td s) as [a Ha]; [lia|].
    destruct (lookup_lt_is_Some_2 td (i + 1)) as [b Hb']; [lia|].
    rewrite Ha, Hb'. cbn.
    pose proof (non_decreasing_le td Htd (i + 1 - s) s a b Ha) as Hle.
    replace (s + (i + 1 - s)) with (i + 1) in Hle by lia. specialize (Hle Hb'). lra. }
  split_and!; [done|apply Qabs_nonneg| |done|].
  - apply Qmult_le_0_compat; [apply Qabs_nonneg|done].
  - unfold at_. destruct (lookup_lt_is_Some_2 td i) as [a Ha]; [lia|].
    rewrite Ha. cbn. by eapply list_elem_of_lookup_2.
Qed.

(** X8.  On gyroscope rows whose [td] never goes down,
    [calculate_rotation] returns at most one event per sign change of
    the filtered axis, and in every event the duration, the area and
    [aucXt] are non-negative, [aucXt] is the area times the duration,
    and the marker is the [td] of one of the rows. *)
Theorem turn_events_non_negative (data : list sample) (o : orientation) :
  non_decreasing (map s_td data) →
  ∃ evs,
    calculate_rotation E data o = Ret evs
    ∧ length evs ≤ length (detect_zcr (butter_lowpass_filter E (map (col o) data) 100 2 2))
    ∧ Forall (λ e, (0 <= ev_turn_duration e)%Q ∧ (0 <= ev_auc e)%Q ∧ (0 <= ev_aucXt e)%Q
                   ∧ ev_aucXt e = (ev_auc e * ev_turn_duration e)%Q
                   ∧ ev_td e ∈ map s_td data) evs.
Proof. apply calculate_rotation_events_spec. Qed.

End RotationMore.

Lemma turn_events_non_negative_witness :
  ∃ evs,
    calculate_rotation passthrough (zip_with rot_row turn_td turn_ys) OY = Ret evs
    ∧ length evs ≤ 1.
Proof.
  destruct (turn_events_non_negative passthrough (zip_with rot_row turn_td turn_ys) OY)
    as (evs & Hevs & Hlen & _).
  - apply index_sorted_non_decreasing. vm_compute. reflexivity.
  - exists evs. split; [exact Hevs|exact Hlen].
Defined.

(** ** [clean_accelerometer_data] *)

Section CleaningMore.
Context (E : externals).

(** X9.  On a table that has the columns it reads, with a number for
    every timestamp, [clean_accelerometer_data] fails in three cases:
    no row has its three axes ([IndexError], from
    [date_series.iloc[0]]); a row that has them has a timestamp the
    library cannot hold as a time ([OutOfBoundsDatetime]); the
    difference of such a timestamp to the first one overflows
    ([OverflowError]).  In every other case it returns as many rows
    as have their three axes, one of them with [td = 0], each with a
    [td] in the range of the library, the sensor and the axes of a row
    of the file and [AA] computed from its axes. *)
Theorem clean_accelerometer_data_rows (data : list raw_sample) :
  let kept := filter (λ r, complete r = true) data in
  (kept = [] → clean_accelerometer_data E data = Raise IndexError)
  ∧ (kept ≠ [] → ¬ Forall (λ r, in_ns_range (r_timestamp r) = true) kept →
     clean_accelerometer_data E data = Raise OutOfBoundsDatetime)
  ∧ (∀ r0, head kept = Some r0 →
       Forall (λ r, in_ns_range (r_timestamp r) = true) kept →
       ¬ Forall (λ r, in_ns_range (r_timestamp r - r_timestamp r0) = true) kept →
       clean_accelerometer_data E data = Raise OverflowError)
  ∧ (∀ r0, head kept = Some r0 →
       Forall (λ r, in_ns_range (r_timestamp r) = true) kept →
       Forall (λ r, in_ns_range (r_timestamp r - r_timestamp r0) = true) kept →
       ∃ rows, clean_accelerometer_data E data = Ret rows
         ∧ length rows = length kept
         ∧ (∃ row, row ∈ rows ∧ (s_td row == 0)%Q)
         ∧ Forall (λ row,
             in_ns_range (s_td row) = true
             ∧ s_AA row = np_sqrt E (s_x row * s_x row + s_y row * s_y row
                                     + s_z row * s_z row)%Q
             ∧ ∃ r, r ∈ data ∧ sensorType row = r_sensorType r
                  ∧ r_x r = Some (s_x row) ∧ r_y r = Some (s_y row)
                  ∧ r_z r = Some (s_z row)) rows).
Proof.
  intros kept. pose proof (with_td_rows E data) as Hwith. cbv zeta in Hwith.
  fold kept in Hwith.
  split_and!.
  - intros Hnil. rewrite Hnil in Hwith. unfold clean_accelerometer_data. by rewrite Hwith.
  - intros Hne Hout. destruct kept as [|r0 rs]; [done|].
    rewrite <- forallb_Forall in Hout. apply not_true_is_false in Hout.
    rewrite Hout in Hwith. cbn [negb] in Hwith.
    unfold clean_accelerometer_data. by rewrite Hwith.
  - intros r0 Hr0 Hin Hout. destruct kept as [|r0' rs]; [done|]. injection Hr0 as ->.
    rewrite <- forallb_Forall in Hin, Hout. apply not_true_is_false in Hout.
    rewrite Hin, Hout in Hwith. cbn [negb] in Hwith.
    unfold clean_accelerometer_data. by rewrite Hwith.
  - intros r0 Hr0 Hin Hdiff.
    destruct (clean_rows_spec E data) as (_ & _ & Hret). fold kept in Hret.
    destruct Hret as (rows0 & _ & Hclean & Hlen & (row & Hrow & Htd) & Hall).
    { unfold cleanable. fold kept. destruct kept as [|r0' rs]; [done|]. injection Hr0 as ->.
      apply andb_true_iff. by rewrite !forallb_Forall. }
    pose proof (merge_sort_Permutation td_le rows0) as Hperm.
    exists (merge_sort td_le rows0). split_and!; [done| | |].
    + by rewrite Hperm.
    + exists row. by rewrite Hperm.
    + by rewrite Hperm.
Qed.

End CleaningMore.

Lemma clean_accelerometer_data_rows_witness :
  clean_accelerometer_data passthrough late_file = Raise OutOfBoundsDatetime
  ∧ ∃ rows, clean_accelerometer_data passthrough unsorted_file = Ret rows
      ∧ length rows = 2.
Proof.
  split.
  - apply (proj1 (proj2 (clean_accelerometer_data_rows passthrough late_file))).
    + discriminate.
    + intros H. apply Forall_cons in H as [_ H]. apply Forall_cons in H as [H _].
      vm_compute in H. discriminate.
  - destruct (proj2 (proj2 (proj2 (clean_accelerometer_data_rows passthrough unsorted_file)))
                (RawSample 2 "userAcceleration" (Some 0%Q) (Some 0%Q) (Some 0%Q)))
      as (rows & Hrows & Hlen & _).
    + reflexivity.
    + repeat constructor.
    + repeat constructor.
    + exists rows. split; [exact Hrows | exact Hlen].
Defined.

(** ** [pipeline]: what can go wrong *)



Section PipelineMore.
Context (E : externals).




(** X11.  Given a path that is not the mark, [pipeline] fails with the
    exception of the reader when the file cannot be read, and with
    [KeyError] when the file holds an empty JSON array or is of the
    first schema: the table has no column [x], [y] or [z] for the
    cleaning to read.  For a file of the current schema (with a number
    for every timestamp) it fails with [IndexError] when no row has
    its three axes, with that or a range error of the library when
    the table is not [cleanable]; and when the table is [cleanable]
    and has a row of the accelerometer with its three axes it returns
    a dictionary: the cleaning has sorted the rows, so the
    integration cannot fail. *)
Theorem pipeline_path_outcomes (s : string) (o : orientation) :
  s ≠ "#ERROR" →
  (∀ e, open_filepath E s = Raise e → pipeline E (Path s) o = Raise e)
  ∧ (open_filepath E s = Ret NoColumns → pipeline E (Path s) o = Raise KeyError)
  ∧ (∀ rows, open_filepath E s = Ret (SchemaV1 rows) →
       pipeline E (Path s) o = Raise KeyError)
  ∧ (∀ data, open_filepath E s = Ret (SchemaV2 data) →
       (Forall (λ r, complete r = false) data → pipeline E (Path s) o = Raise IndexError)
       ∧ (cleanable data = false →
          ∃ e, pipeline E (Path s) o = Raise e
            ∧ (e = IndexError ∨ e = OutOfBoundsDatetime ∨ e = OverflowError))
       ∧ (cleanable data = true →
          (∃ r, r ∈ data ∧ complete r = true ∧ r_sensorType r = "userAcceleration") →
          ∃ f, pipeline E (Path s) o = Ret (RetDict f))).
Proof.
  intros Hs. cbn [pipeline].
  destruct (String.eqb s "#ERROR") eqn:Heq; [by apply String.eqb_eq in Heq|].
  split_and!.
  - intros e ->. done.
  - intros ->. done.
  - intros rows ->. done.
  - intros data ->. cbn [mbind outcome_bind clean_table].
    destruct (clean_rows_spec E data) as (Hnone & Hraise & Hret). split_and!.
    + intros Hinc. by rewrite (Hnone Hinc).
    + intros Hc. destruct (Hraise Hc) as (e & -> & He). eauto.
    + intros Hc _. destruct (Hret Hc) as (rows0 & _ & -> & _).
      cbn [mbind outcome_bind]. apply pipeline_frame_total.
      apply StronglySorted_non_decreasing, StronglySorted_filter.
      apply Sorted_StronglySorted; [apply _|]. apply (Sorted_merge_sort td_le).
Qed.

End PipelineMore.


Lemma pipeline_path_outcomes_witness :
  ∃ f, pipeline (with_reader (λ _, Ret (SchemaV2 unsorted_file))) (Path "walk.json") OY
       = Ret (RetDict f).
Proof.
  refine (proj2 (proj2 (proj2 (proj2 (proj2
            (pipeline_path_outcomes (with_reader (λ _, Ret (SchemaV2 unsorted_file)))
               "walk.json" OY _))) unsorted_file eq_refl)) _ _).
  - discriminate.
  - reflexivity.
  - eexists. split; [by left|]. split; reflexivity.
Defined.

(** ** The merged timeline, again *)

Lemma map_ov_sample_overlay accel_data rotation_data :
  map ov_sample (create_overlay_data accel_data rotation_data)
  = map fst (merge_left accel_data rotation_data).
Proof.
  unfold create_overlay_data.
  set (test := merge_left accel_data rotation_data).
  set (vd := zip _ _).
  assert (Hlen : length test = length vd).
  { unfold vd, fillna. rewrite length_zip, !length_map, !length_bfill, !length_map. lia. }
  clearbody vd. revert vd Hlen.
  induction test as [|r test IH]; intros [|v vd] Hlen; try done.
  cbn [zip_with map ov_sample]. f_equal. apply IH. simpl in Hlen. lia.
Qed.

Lemma merge_left_cons a accel_data rotation_data :
  merge_left (a :: accel_data) rotation_data
  = match filter (λ e, Qeq_bool (s_td a) (ev_td e) = true) rotation_data with
    | [] => [(a, None)]
    | ms => map (λ e, (a, Some e)) ms
    end ++ merge_left accel_data rotation_data.
Proof. reflexivity. Qed.

Lemma filter_distinct_td rotation_data (t : Q) :
  distinct_td rotation_data →
  length (filter (λ e, Qeq_bool t (ev_td e) = true) rotation_data) ≤ 1.
Proof.
  induction rotation_data as [|e rot IH]; intros Hd; [simpl; lia|].
  assert (Hd' : distinct_td rot).
  { intros i j e1 e2 H1 H2 Heq. by injection (Hd (S i) (S j) e1 e2 H1 H2 Heq). }
  destruct (decide (Qeq_bool t (ev_td e) = true)) as [He|He].
  - rewrite filter_cons_True by done. cbn [length].
    destruct (filter _ rot) as [|e' l] eqn:Hf; [simpl; lia|].
    assert (Hin : e' ∈ filter (λ e, Qeq_bool t (ev_td e) = true) rot) by (rewrite Hf; by left).
    apply list_elem_of_filter in Hin as [He' [j Hj]%list_elem_of_lookup_1].
    apply Qeq_bool_iff in He, He'.
    assert (0 = S j); [|done].
    apply (Hd 0 (S j) e e'); [done|done|]. by rewrite <- He, <- He'.
  - rewrite filter_cons_False by done. by apply IH.
Qed.

Lemma overlay_samples_spec
    (accel_data : list sample) (rotation_data : list turn_event) :
  accel_data `sublist_of` map ov_sample (create_overlay_data accel_data rotation_data)
  ∧ (distinct_td rotation_data →
     map ov_sample (create_overlay_data accel_data rotation_data) = accel_data).
Proof.
  rewrite map_ov_sample_overlay. split.
  - induction accel_data as [|a accel IH]; [done|].
    rewrite merge_left_cons, map_app.
    apply (sublist_app [a] _ accel); [|done].
    destruct (filter _ rotation_data) as [|e ms]; cbn [map fst].
    + done.
    + apply sublist_skip, sublist_nil_l.
  - intros Hd. induction accel_data as [|a accel IH]; [done|].
    rewrite merge_left_cons, map_app, IH.
    pose proof (filter_distinct_td rotation_data (s_td a) Hd) as Hlen.
    destruct (filter _ rotation_data) as [|e [|e' ms]]; [done|done|].
    simpl in Hlen. lia.
Qed.

(** X12.  The merged timeline keeps every accelerometer row, in the
    order of the recording: the rows of the timeline, without what
    the join adds, contain the accelerometer rows as a subsequence,
    and are the accelerometer rows themselves when no two turn events
    have the same [td] (a row is repeated once for every event of its
    [td]). *)
Theorem overlay_keeps_accelerometer_rows
    (accel_data : list sample) (rotation_data : list turn_event) :
  accel_data `sublist_of` map ov_sample (create_overlay_data accel_data rotation_data)
  ∧ (distinct_td rotation_data →
     map ov_sample (create_overlay_data accel_data rotation_data) = accel_data).
Proof. apply overlay_samples_spec. Qed.

Lemma overlay_keeps_accelerometer_rows_witness :
  map ov_sample (create_overlay_data [acc_row 0 1; acc_row 1 1] [TurnEvent 1 2 2 4])
  = [acc_row 0 1; acc_row 1 1].
Proof.
  apply (proj2 (overlay_keeps_accelerometer_rows _ _)).
  intros [|i] [|j] e e' Hi Hj _; done.
Defined.

(** Two events of one [td] make two rows of one accelerometer row. *)
Example merge_left_repeats_a_row :
  map ov_sample (create_overlay_data [acc_row 1 1] [TurnEvent 1 2 2 4; TurnEvent 1 3 1 3])
  = [acc_row 1 1; acc_row 1 1].
Proof. reflexivity. Qed.

Lemma first_known_fmap {A} (f : A → Q) (c : list (option A)) :
  first_known (map (fmap f) c) = f <$> first_some c.
Proof. induction c as [|[v|] c IH]; cbn; done. Qed.

Lemma first_known_drop_fmap {A B} (f : B → Q) (test : list (A * option B)) : ∀ i,
  first_known (drop i (map (λ r, f <$> r.2) test))
  = f <$> first_some (drop i (map snd test)).
Proof.
  induction test as [|[a m] test IH]; intros [|i]; cbn [drop map]; [done..| |apply IH].
  change (first_known (map (λ r : A * option B, f <$> r.2) ((a, m) :: test))
          = f <$> first_some (map snd ((a, m) :: test))).
  specialize (IH 0). cbn [drop] in IH. cbn [map first_known first_some snd].
  destruct m; cbn; [done|apply IH].
Qed.

Lemma first_some_elem {A} (c : list (option A)) v :
  first_some c = Some v → Some v ∈ c.
Proof.
  induction c as [|[w|] c IH]; cbn; [done| |].
  - intros [= ->]. by left.
  - intros H. right. by apply IH.
Qed.

Lemma first_some_None {A} (c : list (option A)) :
  first_some c = None → ∀ j o, c !! j = Some o → o = None.
Proof.
  induction c as [|[w|] c IH]; cbn; [done|done|].
  intros H [|j] o; cbn; [by intros [= <-]|]. by apply IH.
Qed.

Lemma fillna_bfill_lookup c i :
  i < length c →
  fillna 0 (bfill c) !! i = Some (default 0%Q (first_known (drop i c))).
Proof.
  intros Hi. unfold fillna. by rewrite list_lookup_fmap, bfill_lookup.
Qed.

Lemma overlay_lookup accel_data rotation_data i row :
  create_overlay_data accel_data rotation_data !! i = Some row →
  let evs := map snd (merge_left accel_data rotation_data) in
  i < length evs
  ∧ ov_auc row = (evs !! i) ≫= fmap ev_auc
  ∧ ov_aucXt row = default 0%Q (ev_aucXt <$> first_some (drop i evs))
  ∧ ov_turn_duration row = default 0%Q (ev_turn_duration <$> first_some (drop i evs)).
Proof.
  intros Hrow evs. unfold create_overlay_data in Hrow.
  apply lookup_zip_with_Some in Hrow as ([a m] & [v d] & -> & Htest & Hvd).
  apply lookup_zip_with_Some in Hvd as (v' & d' & [= <- <-] & Hv & Hd).
  assert (Hi : i < length (merge_left accel_data rotation_data)) by by eapply lookup_lt_Some.
  rewrite fillna_bfill_lookup in Hv, Hd by by rewrite length_map.
  injection Hv as <-. injection Hd as <-.
  cbn [ov_auc ov_aucXt ov_turn_duration fst snd].
  unfold evs. rewrite length_map, list_lookup_fmap, Htest. cbn.
  by rewrite !first_known_drop_fmap.
Qed.

(** X13.  In every row of the merged timeline [aucXt] and
    [turn_duration] come from one and the same turn event; or both
    are zero, and then they are zero in every row after it, none of
    which carries an event: the rows after the last event of the
    timeline are never turning. *)
Theorem overlay_row_values
    (accel_data : list sample) (rotation_data : list turn_event) (i : nat) (row : overlay_row) :
  create_overlay_data accel_data rotation_data !! i = Some row →
  (∃ e, e ∈ rotation_data
        ∧ ov_aucXt row = ev_aucXt e ∧ ov_turn_duration row = ev_turn_duration e)
  ∨ (ov_aucXt row = 0%Q ∧ ov_turn_duration row = 0%Q
     ∧ ∀ j row', i ≤ j →
         create_overlay_data accel_data rotation_data !! j = Some row' →
         ov_aucXt row' = 0%Q ∧ ov_turn_duration row' = 0%Q ∧ ov_auc row' = None).
Proof.
  intros Hrow. destruct (overlay_lookup _ _ _ _ Hrow) as (Hi & _ & HX & HD).
  set (evs := map snd (merge_left accel_data rotation_data)) in *.
  destruct (first_some (drop i evs)) as [e|] eqn:He.
  - left. exists e. split; [|done].
    apply first_some_elem, list_elem_of_lookup_1 in He as [k Hk].
    rewrite lookup_drop in Hk. apply list_elem_of_lookup_2 in Hk.
    apply list_elem_of_fmap in Hk as ([a m] & Hm & Hin). cbn in Hm. subst m.
    by apply merge_left_rows in Hin as [_ [? _]].
  - right. split_and!; [done..|]. intros j row' Hij Hrow'.
    destruct (overlay_lookup _ _ _ _ Hrow') as (Hj & HA' & HX' & HD').
    fold evs in Hj, HA', HX', HD'.
    assert (Hlater : ∀ k o, evs !! (j + k) = Some o → o = None).
    { intros k o Ho. apply (first_some_None _ He (j - i + k) o).
      rewrite lookup_drop. by replace (i + (j - i + k)) with (j + k) by lia. }
    assert (Hnone : first_some (drop j evs) = None).
    { destruct (first_some (drop j evs)) as [e|] eqn:He'; [|done].
      apply first_some_elem, list_elem_of_lookup_1 in He' as [k Hk].
      rewrite lookup_drop in Hk. by apply Hlater in Hk. }
    rewrite Hnone in HX', HD'. split_and!; [done..|].
    rewrite HA'. destruct (evs !! j) as [o|] eqn:Ho; [|done].
    rewrite <- (Nat.add_0_r j) in Ho. by apply Hlater in Ho as ->.
Qed.

Lemma overlay_row_values_witness :
  (∃ e, e ∈ [TurnEvent 1 2 2 4] ∧ 4%Q = ev_aucXt e ∧ 2%Q = ev_turn_duration e)
  ∨ (4%Q = 0%Q ∧ 2%Q = 0%Q
     ∧ ∀ j row', 0 ≤ j →
         create_overlay_data [acc_row 0 1; acc_row 1 1; acc_row 2 1] [TurnEvent 1 2 2 4] !! j
         = Some row' →
         ov_aucXt row' = 0%Q ∧ ov_turn_duration row' = 0%Q ∧ ov_auc row' = None).
Proof.
  exact (overlay_row_values [acc_row 0 1; acc_row 1 1; acc_row 2 1] [TurnEvent 1 2 2 4] 0
           (OverlayRow (acc_row 0 1) None 2 4) eq_refl).
Defined.

(** ** A recording without a turn *)







Section NoTurn.
Context (E : externals).


End NoTurn.


(** ** [get_sensor_ts_from_filepath] *)

Section SensorTs.
Context (E : externals) (read : string → outcome json_frame).

(** X15.  [get_sensor_ts_from_filepath] returns the mark ["#ERROR"]
    it is given without reading anything.  For a file of the schema
    with a column ["sensorType"] (and a number for every timestamp) it
    never raises, because it turns every failure of the cleaning into
    the mark: it returns ["#ERROR"] when the rows of the sensor are
    not [cleanable] (no row of the sensor has its three axes, an empty
    file included, or a timestamp is out of the range of the
    library), and otherwise a table of as many rows as the sensor has
    with three axes, with a [td] that never goes down. *)
Theorem get_sensor_ts_current_schema (filepath sensor : string) (rows : list raw_sample) :
  get_sensor_ts_from_filepath E read "#ERROR" sensor = Ret (TsStr "#ERROR")
  ∧ (filepath ≠ "#ERROR" → read filepath = Ret (SchemaV2 rows) →
     let data := filter (λ r, r_sensorType r = sensor) rows in
     let kept := filter (λ r, complete r = true) data in
     (kept = [] →
        get_sensor_ts_from_filepath E read filepath sensor = Ret (TsStr "#ERROR"))
     ∧ (cleanable data = false →
        get_sensor_ts_from_filepath E read filepath sensor = Ret (TsStr "#ERROR"))
     ∧ (cleanable data = true →
        ∃ ts, get_sensor_ts_from_filepath E read filepath sensor = Ret (TsFrame ts)
          ∧ length ts = length kept ∧ non_decreasing (map t_td ts))).
Proof.
  split; [done|]. intros Hfp Hread data kept.
  unfold get_sensor_ts_from_filepath.
  destruct (String.eqb filepath "#ERROR") eqn:Heq; [by apply String.eqb_eq in Heq|].
  rewrite Hread. cbn [mbind outcome_bind frame_rows].
  destruct (clean_rows_spec E data) as (_ & Hraise & Hret). fold kept in Hret.
  assert (Hnot : cleanable data = false →
            (if length rows =? 0 then Ret (TsStr "#ERROR")
             else match clean_accelerometer_data E data with
                  | Ret data => Ret (TsFrame (map ts_columns data))
                  | Raise _ => Ret (TsStr "#ERROR")
                  end) = Ret (TsStr "#ERROR")).
  { intros Hc. destruct (length rows =? 0); [done|].
    by destruct (Hraise Hc) as (e & -> & _). }
  split_and!.
  - intros Hkept. apply Hnot. unfold cleanable. fold kept. by rewrite Hkept.
  - exact Hnot.
  - intros Hc. destruct (length rows =? 0) eqn:Hlen.
    { apply Nat.eqb_eq, nil_length_inv in Hlen. subst rows. done. }
    destruct (Hret Hc) as (rows0 & _ & Hclean & Hl & _).
    fold data. rewrite Hclean.
    eexists. split; [reflexivity|]. rewrite length_map. split.
    + by rewrite merge_sort_Permutation.
    + rewrite map_map. cbn [ts_columns t_td].
      apply StronglySorted_non_decreasing, Sorted_StronglySorted; [apply _|].
      apply (Sorted_merge_sort td_le).
Qed.

(** X16.  For a file of the schema with a column per sensor the same
    function lets the failure of the cleaning through: when the file
    has rows and none has the three axes of the sensor, it raises
    [IndexError] where a file of the other schema gives ["#ERROR"]. *)
Theorem get_sensor_ts_first_schema (filepath sensor : string) (rows : list v1_sample) :
  filepath ≠ "#ERROR" → read filepath = Ret (SchemaV1 rows) → rows ≠ [] →
  Forall (λ r, ∃ x y z, v1_axes r sensor = (x, y, z)
                 ∧ (x = None ∨ y = None ∨ z = None)) rows →
  get_sensor_ts_from_filepath E read filepath sensor = Raise IndexError.
Proof.
  intros Hfp Hread Hne Hall. unfold get_sensor_ts_from_filepath.
  destruct (String.eqb filepath "#ERROR") eqn:Heq; [by apply String.eqb_eq in Heq|].
  rewrite Hread. cbn [mbind outcome_bind frame_rows].
  destruct (length rows =? 0) eqn:Hlen.
  { apply Nat.eqb_eq, nil_length_inv in Hlen. done. }
  rewrite (proj1 (clean_rows_spec E _)); [done|].
  apply Forall_fmap. eapply Forall_impl; [exact Hall|].
  intros r (x & y & z & Hr & Hmiss). unfold compose. rewrite Hr. unfold complete. cbn.
  destruct Hmiss as [-> | [-> | ->]]; [done| by destruct x | by destruct x, y].
Qed.

End SensorTs.

Lemma get_sensor_ts_current_schema_witness :
  (∃ ts, get_sensor_ts_from_filepath passthrough (λ _, Ret (SchemaV2 unsorted_file))
           "walk.json" "userAcceleration" = Ret (TsFrame ts)
     ∧ length ts = 2 ∧ non_decreasing (map t_td ts))
  ∧ get_sensor_ts_from_filepath passthrough (λ _, Ret (SchemaV2 late_file))
      "walk.json" "userAcceleration" = Ret (TsStr "#ERROR").
Proof.
  split.
  - refine (proj2 (proj2 (proj2 (get_sensor_ts_current_schema passthrough
              (λ _, Ret (SchemaV2 unsorted_file)) "walk.json" "userAcceleration"
              unsorted_file) _ eq_refl)) _); [discriminate|reflexivity].
  - refine (proj1 (proj2 (proj2 (get_sensor_ts_current_schema passthrough
              (λ _, Ret (SchemaV2 late_file)) "walk.json" "userAcceleration"
              late_file) _ eq_refl)) _); [discriminate|reflexivity].
Defined.

Lemma get_sensor_ts_first_schema_witness :
  get_sensor_ts_from_filepath passthrough
    (λ _, Ret (SchemaV1 [V1Sample 0 (λ _, (None, Some 1%Q, Some 1%Q))]))
    "walk.json" "userAcceleration" = Raise IndexError.
Proof.
  apply get_sensor_ts_first_schema with (rows := [V1Sample 0 (λ _, (None, Some 1%Q, Some 1%Q))]).
  - discriminate.
  - reflexivity.
  - discriminate.
  - repeat constructor. eexists _, _, _. split; [reflexivity|]. by left.
Defined.

(** ** [featurize] *)

Lemma mapM_cons {A B} (f : A → outcome B) a l :
  mapM f (a :: l) = f a ≫= λ y, mapM f l ≫= λ k, Ret (y :: k).
Proof. reflexivity. Qed.

Lemma mapM_Ret {A B} (f : A → outcome B) l ys :
  mapM f l = Ret ys ↔ Forall2 (λ x y, f x = Ret y) l ys.
Proof.
  revert ys. induction l as [|a l IH]; intros ys.
  - split; [intros [= <-]; constructor | by inversion 1].
  - rewrite mapM_cons.
    destruct (f a) as [b|e] eqn:Hb; cbn [mbind outcome_bind].
    + destruct (mapM f l) as [bs|e] eqn:Hbs; cbn [mbind outcome_bind].
      * split.
        -- intros [= <-]. constructor; [done|]. by apply IH.
        -- inversion 1 as [|? y ? ys' Hy Hys]; subst. rewrite Hb in Hy. injection Hy as <-.
           apply IH in Hys. by injection Hys as <-.
      * split; [done|]. inversion 1 as [|? y ? ys' Hy Hys]; subst. by apply IH in Hys.
    + split; [done|]. inversion 1 as [|? y ? ys' Hy Hys]; subst. congruence.
Qed.

Lemma mapM_Raise {A B} (f : A → outcome B) l a e :
  a ∈ l → f a = Raise e → ∃ e', mapM f l = Raise e'.
Proof.
  intros Ha He. destruct (mapM f l) as [ys|e'] eqn:Hm; [|eauto].
  apply mapM_Ret in Hm. apply list_elem_of_lookup_1 in Ha as [i Hi].
  destruct (Forall2_lookup_l _ _ _ _ _ Hm Hi) as (y & _ & Hy). congruence.
Qed.

Lemma mapM_Raise_inv {A B} (f : A → outcome B) l e :
  mapM f l = Raise e → ∃ a, a ∈ l ∧ f a = Raise e.
Proof.
  induction l as [|a l IH]; [done|]. rewrite mapM_cons.
  destruct (f a) as [b|e'] eqn:Hb; cbn [mbind outcome_bind].
  - destruct (mapM f l) as [bs|e'] eqn:Hbs; cbn [mbind outcome_bind]; [done|].
    intros [= ->]. destruct (IH eq_refl) as (a' & Ha' & He). exists a'. split; [by right|done].
  - intros [= ->]. exists a. split; [by left|done].
Qed.

(** X17.  [featurize] assigns the column of the walking files before
    it reads a balance file.  When [pipeline] returns for the two files
    of every row, the caller's table ends with its two columns, entry
    [i] of each being what [pipeline] returns for the file of row [i],
    and the call returns.  When [pipeline] raises for the walking file
    of some row, the call raises and the table is as it was.  When it
    returns for every walking file and raises for the balance file of
    some row, the call raises and leaves in the table the column
    ["walk_features"] of every row, and of ["balance_features"] what
    was there.  The rows are never touched, and an exception of
    [featurize] is one that [pipeline] raises for a file of a row. *)
Theorem featurize_columns {A} (E : externals) (data : path_table A) :
  let walk := λ r : path_row A, pipeline E (Path (walk_motion_json_pathfile r)) OY in
  let balance := λ r : path_row A, pipeline E (Path (balance_motion_json_pathfile r)) OY in
  pt_rows (featurize E data).1 = pt_rows data
  ∧ (∀ ws bs,
       Forall2 (λ r w, walk r = Ret w) (pt_rows data) ws →
       Forall2 (λ r b, balance r = Ret b) (pt_rows data) bs →
       featurize E data = (PathTable (pt_rows data) (Some ws) (Some bs), Ret ()))
  ∧ (∀ r e, r ∈ pt_rows data → walk r = Raise e →
       ∃ e', featurize E data = (data, Raise e'))
  ∧ (∀ ws r e,
       Forall2 (λ r w, walk r = Ret w) (pt_rows data) ws →
       r ∈ pt_rows data → balance r = Raise e →
       ∃ e', featurize E data
             = (PathTable (pt_rows data) (Some ws) (pt_balance_features data), Raise e'))
  ∧ (∀ e, (featurize E data).2 = Raise e →
       ∃ r, r ∈ pt_rows data ∧ (walk r = Raise e ∨ balance r = Raise e)).
Proof.
  intros walk balance. unfold featurize. fold walk balance. split_and!.
  - destruct (mapM walk (pt_rows data)) as [ws|]; [|done]. cbn [pt_rows].
    by destruct (mapM balance (pt_rows data)).
  - intros ws bs Hws%mapM_Ret Hbs%mapM_Ret. rewrite Hws. cbn [pt_rows]. by rewrite Hbs.
  - intros r e Hr He.
    destruct (mapM_Raise walk (pt_rows data) r e Hr He) as [e' ->]. eauto.
  - intros ws r e Hws%mapM_Ret Hr He. rewrite Hws. cbn [pt_rows].
    destruct (mapM_Raise balance (pt_rows data) r e Hr He) as [e' ->]. eauto.
  - intros e. destruct (mapM walk (pt_rows data)) as [ws|e'] eqn:Hws.
    + cbn [pt_rows]. destruct (mapM balance (pt_rows data)) as [bs|e''] eqn:Hbs; [done|].
      cbn [snd]. intros [= ->].
      apply mapM_Raise_inv in Hbs as (r & Hr & He). eauto.
    + cbn [snd]. intros [= ->].
      apply mapM_Raise_inv in Hws as (r & Hr & He). eauto.
Qed.

Lemma featurize_columns_witness :
  ∃ e', featurize passthrough
          (PathTable [PathRow 1 "#ERROR" "#ERROR"; PathRow 2 "#ERROR" "b.json"] None None)
        = (PathTable [PathRow 1 "#ERROR" "#ERROR"; PathRow 2 "#ERROR" "b.json"]
             (Some [RetStr "#ERROR"; RetStr "#ERROR"]) None, Raise e').
Proof.
  apply (proj1 (proj2 (proj2 (proj2 (featurize_columns passthrough
           (PathTable [PathRow 1 "#ERROR" "#ERROR"; PathRow 2 "#ERROR" "b.json"] None None)))))
           [RetStr "#ERROR"; RetStr "#ERROR"] (PathRow 2 "#ERROR" "b.json") IOError).
  - repeat constructor.
  - right. by left.
  - reflexivity.
Defined.

(** ** [fix_column_name] *)

Lemma prefix_substring s : ∀ n t,
  String.prefix s (String.substring 0 n t) = true → String.prefix s t = true.
Proof.
  induction s as [|a s IH]; intros n t; [by destruct t|].
  destruct t as [|b t]; [by destruct n|]. destruct n as [|n]; [done|].
  cbn. destruct (Ascii.ascii_dec a b); [apply IH|done].
Qed.

Lemma index_substring sep : sep ≠ ""%string → ∀ rest q,
  String.index 0 sep rest = Some q →
  String.index 0 sep (String.substring 0 q rest) = None.
Proof.
  intros Hsep. induction rest as [|b rest IH]; intros q.
  - cbn. by destruct sep.
  - cbn [String.index]. destruct (String.prefix sep (String b rest)) eqn:Hp.
    + intros [= <-]. cbn. by destruct sep.
    + destruct (String.index 0 sep rest) as [q'|] eqn:Hq; [|done].
      intros [= <-]. cbn [String.substring String.index].
      destruct (String.prefix sep (String b (String.substring 0 q' rest))) eqn:Hp'.
      * apply (prefix_substring sep (S q') (String b rest)) in Hp'. congruence.
      * by rewrite (IH q' eq_refl).
Qed.

Lemma split_second_piece sep s n :
  sep ≠ ""%string → split_second sep s = Ret n → py_in sep n = false.
Proof.
  intros Hsep. unfold split_second, py_in.
  destruct (String.index 0 sep s) as [p|]; [|done].
  destruct (String.index 0 sep (String.substring _ _ s)) as [q|] eqn:Hq.
  - intros [= <-]. by rewrite (index_substring sep Hsep _ q Hq).
  - intros [= <-]. by rewrite Hq.
Qed.

Lemma split_second_raise sep s e :
  split_second sep s = Raise e → e = IndexError ∧ py_in sep s = false.
Proof.
  unfold split_second, py_in. destruct (String.index 0 sep s) as [p|].
  - by destruct (String.index 0 sep _).
  - by intros [= <-].
Qed.

Lemma rename_loop_raise features : ∀ columns f,
  f ∈ features → py_in "features_" f = false →
  rename_loop features columns = Raise IndexError.
Proof.
  induction features as [|f0 fs IH]; intros columns f Hf Hno; [by apply elem_of_nil in Hf|].
  cbn [rename_loop]. destruct (split_second "features_" f0) as [n|e] eqn:Hs.
  - cbn [mbind outcome_bind]. apply elem_of_cons in Hf as [->|Hf]; [|by eapply IH].
    unfold split_second, py_in in *. by destruct (String.index 0 "features_" f0).
  - by apply split_second_raise in Hs as [-> _].
Qed.

Lemma rename_loop_map features : ∀ columns,
  Forall (λ f, py_in "features_" f = true) features →
  rename_loop features columns
  = Ret (map (λ c, if decide (c ∈ features)
                   then match split_second "features_" c with Ret n => n | Raise _ => c end
                   else c) columns).
Proof.
  induction features as [|f fs IH]; intros columns Hall.
  - cbn [rename_loop]. f_equal. rewrite <- (map_id columns) at 1.
    apply map_ext. intros c. rewrite decide_False; [done|apply not_elem_of_nil].
  - apply Forall_cons in Hall as [Hf Hfs]. cbn [rename_loop].
    destruct (split_second "features_" f) as [n|e] eqn:Hs.
    2: { apply split_second_raise in Hs as [_ Hs]. congruence. }
    cbn [mbind outcome_bind]. rewrite IH by done. f_equal.
    unfold rename_column. rewrite map_map. apply map_ext. intros c.
    assert (Hn : n ∉ fs).
    { intros Hin. rewrite Forall_forall in Hfs. apply Hfs in Hin.
      apply split_second_piece in Hs; [congruence|done]. }
    destruct (String.eqb c f) eqn:Hcf.
    + apply String.eqb_eq in Hcf as ->.
      rewrite decide_False by done. rewrite decide_True by by left. by rewrite Hs.
    + apply String.eqb_neq in Hcf.
      destruct (decide (c ∈ fs)) as [Hc|Hc].
      * rewrite decide_True by by right. done.
      * rewrite decide_False; [done|]. by intros [?|?]%elem_of_cons.
Qed.

(** X18.  [fix_column_name] raises [IndexError] as soon as a column
    has ["feature"] in its name and not ["features_"].  Otherwise it
    keeps the number and the order of the columns, leaves alone the
    names without ["feature"], and gives every other column the part
    of its name between the first ["features_"] and the next one. *)
Theorem fix_column_name_outcomes (columns : list string) :
  ((∃ c, c ∈ columns ∧ py_in "feature" c = true ∧ py_in "features_" c = false) →
   fix_column_name columns = Raise IndexError)
  ∧ ((∀ c, c ∈ columns → py_in "feature" c = true → py_in "features_" c = true) →
     fix_column_name columns = Ret (map fixed_name columns)
     ∧ ∀ c, c ∈ columns → py_in "feature" c = true →
            split_second "features_" c = Ret (fixed_name c)).
Proof.
  unfold fix_column_name. split.
  - intros (c & Hc & Hf & Hno). apply (rename_loop_raise _ _ c); [|done].
    by apply list_elem_of_filter.
  - intros Hall. split.
    + rewrite rename_loop_map.
      * f_equal. apply Forall_fmap_ext, Forall_forall. intros c Hc. unfold fixed_name.
        destruct (py_in "feature" c) eqn:Hf.
        -- rewrite decide_True; [done|]. by apply list_elem_of_filter.
        -- rewrite decide_False; [done|]. intros [? _]%list_elem_of_filter. congruence.
      * apply Forall_forall. intros f [Hf Hin]%list_elem_of_filter. by apply Hall.
    + intros c Hc Hf. unfold fixed_name. rewrite Hf.
      destruct (split_second "features_" c) as [n|e] eqn:Hs; [done|].
      apply split_second_raise in Hs as [_ Hs]. rewrite Hall in Hs; done.
Qed.

Lemma fix_column_name_outcomes_witness :
  fix_column_name ["recordId"; "walk_features_x.mean"; "balance_features_y"]
  = Ret (map fixed_name ["recordId"; "walk_features_x.mean"; "balance_features_y"])
  ∧ fix_column_name ["recordId"; "feature_count"] = Raise IndexError.
Proof.
  split.
  - apply (proj2 (fix_column_name_outcomes _)).
    intros c Hc. repeat (apply elem_of_cons in Hc as [->|Hc]; [vm_compute; done|]).
    by apply elem_of_nil in Hc.
  - apply (proj1 (fix_column_name_outcomes _)).
    exists "feature_count"%string. split_and!; [right; by left|reflexivity..].
Defined.

Example fix_column_name_small :
  fix_column_name ["recordId"; "walk_features_x.mean"; "a_features_b_features_c"]
  = Ret ["recordId"; "x.mean"; "b_"]%string.
Proof. reflexivity. Qed.

(** ** The step rates of [pipeline] *)

Lemma Np_sum_Fin l : Np.sum (map Np.Fin l) = Np.Fin (Np.Qsum l).
Proof.
  induction l as [|q l IH]; [done|].
  cbn [map Np.sum foldr]. change (foldr Np.add (Np.Fin 0) (map Np.Fin l)) with (Np.sum (map Np.Fin l)).
  by rewrite IH.
Qed.

Lemma Np_mean_Fin l :
  l ≠ [] → Np.mean (map Np.Fin l) = Np.Fin (Np.Qmean l).
Proof.
  intros Hl. destruct l as [|q l]; [done|].
  transitivity (match Np.sum (map Np.Fin (q :: l)) with
                | Np.Fin s =>
                    Np.Fin (s / inject_Z (Z.of_nat (length (map Np.Fin (q :: l)))))
                | v => v
                end); [reflexivity|].
  by rewrite Np_sum_Fin, length_map.
Qed.

Section StepRates.
Context (E : externals).

Lemma bout_rates_windowed data o g r :
  bout_rates E data o g = Ret r →
  ∃ bout, calculate_number_of_steps_per_window E bout o = Ret r.1.
Proof.
  unfold bout_rates.
  destruct (iloc g 0) as [first|]; cbn [mbind outcome_bind]; [|done].
  destruct (iloc_last g) as [last|]; cbn [mbind outcome_bind]; [|done].
  destruct (calculate_number_of_steps_per_window E _ o) as [q|] eqn:Hq;
    cbn [mbind outcome_bind]; [|done].
  destruct (iloc_last _) as [t1|]; cbn [mbind outcome_bind]; [|done].
  destruct (iloc _ 0) as [t0|]; cbn [mbind outcome_bind]; [|done].
  intros [= <-]. eauto.
Qed.

(** X19.  In the dictionary [pipeline] returns for a DataFrame the
    windowed step rate is [nan] exactly when the merged timeline has
    no bout, and a non-negative number otherwise. *)
Theorem windowed_rate_nan_or_non_negative
    (rows : list sample) (o : orientation) (f : feature_dict) :
  pipeline E (Frame rows) o = Ret (RetDict f) →
  ∃ evs,
    calculate_rotation E (filter (λ r, sensorType r = "rotationRate") rows) o = Ret evs
    ∧ let data :=
        create_overlay_data (filter (λ r, sensorType r = "userAcceleration") rows) evs in
      (walking_seqs data = [] ∧ wchunk_mean_no_of_steps_per_secs f = Np.NaN
       ∧ no_wchunk_mean_no_of_steps_per_secs f = Np.NaN)
      ∨ (walking_seqs data ≠ []
         ∧ ∃ q, wchunk_mean_no_of_steps_per_secs f = Np.Fin q ∧ (0 <= q)%Q).
Proof.
  cbn [pipeline]. unfold pipeline_frame.
  destruct (calculate_rotation E _ o) as [evs|]; cbn [mbind outcome_bind]; [|done].
  set (data := create_overlay_data _ evs).
  destruct (mapM (bout_rates E data o) (walking_seqs data)) as [rates|] eqn:Hrates;
    cbn [mbind outcome_bind]; [|done].
  destruct (rotation_features _) as [[[n m] lo] hi]. intros [= <-].
  exists evs. split; [done|]. cbv zeta. fold data.
  cbn [wchunk_mean_no_of_steps_per_secs no_wchunk_mean_no_of_steps_per_secs].
  apply mapM_Ret in Hrates.
  destruct (walking_seqs data) as [|g gs] eqn:Hseqs.
  - left. apply Forall2_nil_inv_l in Hrates as ->. done.
  - right. split; [done|].
    assert (Hne : map fst rates ≠ []).
    { apply Forall2_length in Hrates. destruct rates; [done|discriminate]. }
    rewrite <- (map_map fst Np.Fin), Np_mean_Fin by done.
    eexists. split; [reflexivity|]. apply Qmean_nonneg, Forall_fmap, Forall_forall.
    intros r [i Hi]%list_elem_of_lookup_1.
    destruct (Forall2_lookup_r _ _ _ _ _ Hrates Hi) as (g' & _ & Hg').
    apply bout_rates_windowed in Hg' as [bout Hbout].
    destruct (calculate_steps_non_negative E bout o) as (q & Hq & Hpos).
    unfold compose. congruence.
Qed.

Lemma map_snd_slice_zip {A B} (a b : nat) (l : list A) (k : list B) :
  length l = length k → map snd (slice a b (zip l k)) = slice a b k.
Proof.
  intros Hlen. unfold slice.
  rewrite <- (snd_zip l k) at 2 by lia.
  by rewrite <- fmap_drop, <- fmap_take.
Qed.

Lemma window_loop_gate (o : orientation) (ts : list (sample * Q)) :
  ∀ fuel jPos obs,
    window_loop E fuel o ts jPos = Ret obs →
    Forall (λ w : nat * nat * Np.npfloat,
              w.2 = Np.var (map snd (slice (w.1.1 - 256) w.1.1 ts))
              ∧ (lt_const w.2 (1 # 100) = true → w.1.2 = 0)) obs.
Proof.
  intros fuel. revert ts.
  induction fuel as [|fuel IH]; intros ts jPos obs; cbn [window_loop].
  - intros [= <-]. constructor.
  - destruct (jPos <? length ts); [|intros [= <-]; constructor].
    destruct (iloc_last _) as [t1|]; cbn [mbind outcome_bind]; [|done].
    destruct (iloc _ 0) as [t0|]; cbn [mbind outcome_bind]; [|done].
    destruct (window_loop E fuel o _ (jPos + 50)) as [rest|] eqn:Hrest;
      cbn [mbind outcome_bind]; [|done].
    intros [= <-]. constructor.
    + cbn [fst snd]. split; [done|]. by intros ->.
    + apply IH in Hrest. eapply Forall_impl; [exact Hrest|].
      intros w [Hvar Hgate]. split; [|done].
      rewrite Hvar, !map_slice. by rewrite snd_after_window.
Qed.

(** X20.  In the table of windows the variance of a window is the
    sample variance of the 256 filtered values that end before its
    [time], and a window whose variance is under 0.01 has a rate of
    zero, whatever the detector would say of it. *)
Theorem window_table_variance_gate (data : list sample) (o : orientation) :
  ∃ table, window_table E data o = Ret table
    ∧ Forall (λ w,
        w_variance w
        = Np.var (slice (w_time w - 256) (w_time w)
                    (butter_lowpass_filter E (map (col o) data) 100 5 4))
        ∧ (lt_const (w_variance w) (1 # 100) = true → (w_heel_strikes w == 0)%Q)) table.
Proof.
  destruct (window_table_total E data o) as [table Htable]. exists table. split; [done|].
  unfold window_table in Htable.
  destruct (window_loop E _ o _ _) as [obs|] eqn:Hobs; cbn [mbind outcome_bind] in Htable;
    [|done].
  injection Htable as <-. apply Forall_fmap.
  eapply Forall_impl; [by eapply window_loop_gate|].
  intros w [Hvar Hgate]. unfold compose. cbn [w_variance w_time w_heel_strikes]. split.
  - rewrite Hvar. f_equal. apply map_snd_slice_zip.
    by rewrite butter_lowpass_filter_length, length_map.
  - intros Hlt. rewrite (Hgate Hlt). reflexivity.
Qed.

End StepRates.

Lemma windowed_rate_nan_or_non_negative_witness :
  ∃ evs,
    calculate_rotation passthrough
      (filter (λ r, sensorType r = "rotationRate") turning_recording) OY = Ret evs
    ∧ let data :=
        create_overlay_data
          (filter (λ r, sensorType r = "userAcceleration") turning_recording) evs in
      (walking_seqs data = [] ∧ Np.NaN = Np.NaN ∧ Np.NaN = Np.NaN)
      ∨ (walking_seqs data ≠ [] ∧ ∃ q, Np.NaN = Np.Fin q ∧ (0 <= q)%Q).
Proof.
  apply (windowed_rate_nan_or_non_negative passthrough turning_recording OY
           (FeatureDict Np.NaN Np.NaN 1 (Np.Fin 2) (Np.Fin 2) (Np.Fin 2))).
  vm_compute. reflexivity.
Defined.

(** ** From the gyroscope rows to the timeline and the rotation entries *)

Lemma strictly_increasing_non_decreasing l : strictly_increasing l → non_decreasing l.
Proof. intros Hl i a b Ha Hb. apply Qlt_le_weak. apply (Hl i (S i) a b); [lia|done..]. Qed.

Lemma StronglySorted_lookup {A} (R : relation A) l i j x y :
  StronglySorted R l → i < j → l !! i = Some x → l !! j = Some y → R x y.
Proof.
  intros Hl. revert i j. induction Hl as [|a l Hl IH Ha]; intros i j Hij Hi Hj; [done|].
  destruct j as [|j]; [lia|]. destruct i as [|i].
  - cbn in Hi. injection Hi as <-. rewrite Forall_forall in Ha.
    apply Ha. by eapply list_elem_of_lookup_2.
  - apply (IH i j); [lia|done..].
Qed.

Lemma events_td_sorted td ys :
  strictly_increasing td →
  ∀ zcr_list start,
    StronglySorted lt zcr_list → Forall (λ i, i + 1 < length td) zcr_list →
    StronglySorted (λ e e', (ev_td e < ev_td e')%Q)
      (omap (interval_event td ys) (intervals start zcr_list))
    ∧ Forall (λ e, ∃ i, i ∈ zcr_list ∧ ev_td e = at_ td i)
        (omap (interval_event td ys) (intervals start zcr_list)).
Proof.
  intros Htd. induction zcr_list as [|i zcr IH]; intros start Hs Hb.
  - split; constructor.
  - apply StronglySorted_inv in Hs as [Hs Hi]. apply Forall_cons in Hb as [Hbi Hb].
    destruct (IH (i + 1) Hs Hb) as [IHs IHf].
    assert (Hrest : Forall (λ e, ∃ j, j ∈ i :: zcr ∧ ev_td e = at_ td j)
                      (omap (interval_event td ys) (intervals (i + 1) zcr))).
    { eapply Forall_impl; [exact IHf|]. intros e (j & Hj & He). exists j. split; [by right|done]. }
    cbn [intervals omap list_omap].
    destruct (interval_event td ys (start, i)) as [e|] eqn:He; [|done].
    assert (Hetd : ev_td e = at_ td i).
    { cbn [interval_event] in He. destruct (2 <=? _); [|done]. by injection He as <-. }
    split.
    + constructor; [done|]. eapply Forall_impl; [exact IHf|].
      intros e' (j & Hj & He'). rewrite Hetd, He'.
      rewrite Forall_forall in Hi, Hb. pose proof (Hi j Hj) as Hij. pose proof (Hb j Hj) as Hjb.
      unfold at_.
      destruct (lookup_lt_is_Some_2 td i) as [a Ha]; [lia|].
      destruct (lookup_lt_is_Some_2 td j) as [b Hb']; [lia|].
      rewrite Ha, Hb'. cbn. by apply (Htd i j).
    + constructor; [|done]. exists i. split; [by left|done].
Qed.

Lemma sorted_td_distinct evs :
  StronglySorted (λ e e', (ev_td e < ev_td e')%Q) evs → distinct_td evs.
Proof.
  intros Hs i j e e' Hi Hj Heq.
  destruct (Nat.lt_trichotomy i j) as [Hlt | [-> | Hlt]]; [|done|].
  - pose proof (StronglySorted_lookup _ _ _ _ _ _ Hs Hlt Hi Hj) as H. cbn beta in H. lra.
  - pose proof (StronglySorted_lookup _ _ _ _ _ _ Hs Hlt Hj Hi) as H. cbn beta in H. lra.
Qed.

Section Composition.
Context (E : externals).

(** X21.  When the [td] of the gyroscope rows goes strictly up, the
    turn events have markers that go strictly up too, so no two of
    them have the same [td], and the merged timeline has exactly the
    accelerometer rows, one row of the timeline for each, in their
    order. *)
Theorem timeline_is_accelerometer_series (rows : list sample) (o : orientation) :
  let accel_ts := filter (λ r, sensorType r = "userAcceleration") rows in
  let rotation_ts := filter (λ r, sensorType r = "rotationRate") rows in
  strictly_increasing (map s_td rotation_ts) →
  ∃ evs,
    calculate_rotation E rotation_ts o = Ret evs
    ∧ StronglySorted (λ e e', (ev_td e < ev_td e')%Q) evs
    ∧ map ov_sample (create_overlay_data accel_ts evs) = accel_ts.
Proof.
  intros accel_ts rotation_ts Htd.
  rewrite calculate_rotation_intervals by by apply strictly_increasing_non_decreasing.
  set (ys := butter_lowpass_filter E (map (col o) rotation_ts) 100 2 2).
  eexists. split; [reflexivity|].
  assert (Hsorted : StronglySorted (λ e e', (ev_td e < ev_td e')%Q)
            (omap (interval_event (map s_td rotation_ts) ys) (intervals 0 (detect_zcr ys)))).
  { apply events_td_sorted; [done|apply detect_zcr_sorted|].
    replace (length (map s_td rotation_ts)) with (length ys); [apply detect_zcr_bound|].
    unfold ys. by rewrite butter_lowpass_filter_length, !length_map. }
  split; [done|]. by apply overlay_samples_spec, sorted_td_distinct.
Qed.

(** X22.  For a DataFrame whose gyroscope [td] never goes down, the
    count of turns in the dictionary is at most the number of sign
    changes of the filtered axis, and the mean, the least and the
    greatest duration are numbers with [0 <= least <= greatest] and
    [0 <= mean]. *)
Theorem rotation_block_non_negative (rows : list sample) (o : orientation) (f : feature_dict) :
  let rotation_ts := filter (λ r, sensorType r = "rotationRate") rows in
  non_decreasing (map s_td rotation_ts) →
  pipeline E (Frame rows) o = Ret (RetDict f) →
  rotation_no_of_turns f
    ≤ length (detect_zcr (butter_lowpass_filter E (map (col o) rotation_ts) 100 2 2))
  ∧ ∃ m lo hi,
      rotation_mean_duration f = Np.Fin m ∧ rotation_min_duration f = Np.Fin lo
      ∧ rotation_max_duration f = Np.Fin hi
      ∧ (0 <= m)%Q ∧ (0 <= lo)%Q ∧ (lo <= hi)%Q.
Proof.
  intros rotation_ts Htd Hf. cbn [pipeline] in Hf.
  apply pipeline_frame_rotation in Hf as (evs & f' & Hevs & [= <-] & Hblock).
  fold rotation_ts in Hevs.
  destruct (calculate_rotation_events_spec E rotation_ts o Htd) as (evs' & Hevs' & Hlen & Hall).
  rewrite Hevs in Hevs'. injection Hevs' as <-.
  assert (Hd : Forall (λ d, (0 <= d)%Q)
            (map ev_turn_duration (filter (λ e, Qlt_bool 2 (ev_aucXt e) = true) evs))).
  { apply Forall_fmap, Forall_forall. intros e [_ He]%list_elem_of_filter.
    rewrite Forall_forall in Hall. by destruct (Hall e He) as [? _]. }
  unfold rotation_features in Hblock.
  remember (filter (λ e, Qlt_bool 2 (ev_aucXt e) = true) evs) as turns eqn:Hturns.
  destruct turns as [|e turns']; cbn [length Nat.eqb negb] in Hblock.
  - injection Hblock as -> -> -> ->. split; [lia|]. exists 0%Q, 0%Q, 0%Q. split_and!; done.
  - injection Hblock as -> -> -> ->. split.
    + assert (Hle : length (e :: turns') ≤ length evs)
        by (rewrite Hturns; apply length_filter).
      cbn [length] in Hle. cbn [rotation_no_of_turns]. lia.
    + destruct (Qminimum_spec (map ev_turn_duration (e :: turns'))) as [Hlo Hle]; [done|].
      destruct (Qmaximum_spec (map ev_turn_duration (e :: turns'))) as [Hhi Hge]; [done|].
      eexists _, _, _. split_and!; [done..| | |].
      * by apply Qmean_nonneg.
      * rewrite Forall_forall in Hd. by apply Hd.
      * by apply Hle.
Qed.

End Composition.

Lemma timeline_is_accelerometer_series_witness :
  ∃ evs,
    calculate_rotation passthrough
      (filter (λ r, sensorType r = "rotationRate") turning_recording) OY = Ret evs
    ∧ StronglySorted (λ e e', (ev_td e < ev_td e')%Q) evs
    ∧ map ov_sample
        (create_overlay_data
           (filter (λ r, sensorType r = "userAcceleration") turning_recording) evs)
      = filter (λ r, sensorType r = "userAcceleration") turning_recording.
Proof.
  apply (timeline_is_accelerometer_series passthrough turning_recording OY).
  intros i j a b Hij Hi Hj.
  change (map s_td (filter (λ r, sensorType r = "rotationRate") turning_recording))
    with [0; 1; 2; 3]%Q in Hi, Hj.
  destruct i as [|[|[|[|i]]]], j as [|[|[|[|j]]]]; try lia; simplify_eq/=; done.
Defined.

Lemma rotation_block_non_negative_witness :
  1 ≤ 1
  ∧ ∃ m lo hi,
      Np.Fin 2 = Np.Fin m ∧ Np.Fin 2 = Np.Fin lo ∧ Np.Fin 2 = Np.Fin hi
      ∧ (0 <= m)%Q ∧ (0 <= lo)%Q ∧ (lo <= hi)%Q.
Proof.
  apply (rotation_block_non_negative passthrough turning_recording OY
           (FeatureDict Np.NaN Np.NaN 1 (Np.Fin 2) (Np.Fin 2) (Np.Fin 2))).
  - apply index_sorted_non_decreasing. vm_compute. reflexivity.
  - vm_compute. reflexivity.
Defined.

(** ** Instances on small tables *)

Lemma window_table_times_witness :
  ∃ table, window_table passthrough [acc_row 0 1; acc_row 1 1] OY = Ret table
    ∧ map w_time table = window_times 2
    ∧ (table = [] ↔ 2 ≤ 257).
Proof. exact (window_table_times passthrough [acc_row 0 1; acc_row 1 1] OY). Defined.

Example window_times_of_400_rows : window_times 400 = [257; 307; 357].
Proof. reflexivity. Qed.

Lemma steps_per_window_non_negative_witness :
  ∃ q, calculate_number_of_steps_per_window centring (swinging_bout 310) OY = Ret q
    ∧ (0 <= q)%Q.
Proof. exact (steps_per_window_non_negative centring (swinging_bout 310) OY). Defined.

(** The bout of the instance has two windows, and each has 128
    values above 3/2 in the bout as it is given.  The detector counts
    128 strikes in the first and 25 in the second: the rows 51 to 256,
    which the two windows share, are centred when the second window
    is reached, and only the 25 values of the rows 257 to 306 are
    above 3/2. *)
Example swinging_bout_rate :
  ∃ table q,
    window_table centring (swinging_bout 310) OY = Ret table
    ∧ map w_time table = [257; 307]
    ∧ map (λ w, lt_const (w_variance w) (1 # 100)) table = [false; false]
    ∧ map (λ t, high_values (map s_y (slice (t - 256) t (swinging_bout 310)))) [257; 307]
      = [128; 128]
    ∧ Forall2 (λ w n, w_heel_strikes w == inject_Z (Z.of_nat n) / (256 / 100))%Q
        table [128; 25]
    ∧ calculate_number_of_steps_per_window centring (swinging_bout 310) OY = Ret q
    ∧ (q == 3825 # 128)%Q.
Proof.
  eexists _, _. split_and!; try (vm_compute; reflexivity).
  repeat (constructor; [vm_compute; reflexivity|]). constructor.
Qed.

Lemma window_table_variance_gate_witness :
  ∃ table, window_table passthrough [acc_row 0 1; acc_row 1 1] OY = Ret table
    ∧ Forall (λ w,
        w_variance w
        = Np.var (slice (w_time w - 256) (w_time w)
                    (butter_lowpass_filter passthrough
                       (map (col OY) [acc_row 0 1; acc_row 1 1]) 100 5 4))
        ∧ (lt_const (w_variance w) (1 # 100) = true → (w_heel_strikes w == 0)%Q)) table.
Proof. exact (window_table_variance_gate passthrough [acc_row 0 1; acc_row 1 1] OY). Defined.
